(** * sqla-pagination: keyset and limit/offset pagination over SQLAlchemy

    A shallow embedding of the pagination engine:
    - [sqlapagination/paginators/keyset/utils/ordering.py]
    - [sqlalchemy_pagination/paginators/keyset/paginator.py]
    - [sqlapagination/paginators/keyset/page.py], [sqlapagination/page.py]
    - [sqlalchemy_pagination/paginators/limit_offset/page.py]
    - [sqlapagination/paginators/limit_offset/paginator.py]
    - [sqlalchemy_pagination/utils.py]

    Python exceptions are values of [PyError] and fallible code lives in
    [Result]; SQLAlchemy expression objects are a small syntax tree, with
    the attributes the code reads ([modifier], [element]) as accessors
    that follow SQLAlchemy's attribute lookup, and, where copying and
    cyclic references matter, objects in a store ([Graph]) that the tree
    functions are shown to agree with. *)

From stdpp Require Import base option list strings gmap.
From Stdlib Require Import ZArith Lia Ascii DecimalString DecimalNat.

Local Open Scope Z_scope.
#[local] Set Warnings "-register-all".

(** ** Python runtime *)

Inductive PyError : Type :=
  | KeySetPairsMismatchQueryError (keyset_keys order_by_names : list string)
  | ValueError
  | TypeError (msg : string)
  | KeyError (key : string)
  | AttributeError (name : string)
  | IndexError
  | ZeroDivisionError
  | RecursionError
  | WrappingOverflow (* Exception(_WRAPPING_OVERFLOW) *)
  | OtherError (class_name : string). (* an exception of any other class *)

Inductive Result (A : Type) : Type :=
  | Ok (a : A)
  | Raise (e : PyError).
Arguments Ok {A} a.
Arguments Raise {A} e.

Definition bind {A B} (m : Result A) (k : A → Result B) : Result B :=
  match m with
  | Ok a => k a
  | Raise e => Raise e
  end.

Notation "'do' x <- m ; k" := (bind m (fun x => k))
  (at level 10, x pattern, m at level 100, k at level 200,
   format "'[v' 'do'  x  <-  m ; '/' k ']'").
Notation "'do' ( x , y ) <- m ; k" := (bind m (fun '(x, y) => k))
  (at level 10, x name, y name, m at level 100, k at level 200,
   format "'[v' 'do'  ( x ,  y )  <-  m ; '/' k ']'").

(** [[f(x) for x in xs]] where [f] may raise. *)
Fixpoint comprehension {A B} (f : A → Result B) (xs : list A) : Result (list B) :=
  match xs with
  | [] => Ok []
  | x :: xs' =>
      do y <- f x;
      do ys <- comprehension f xs';
      Ok (y :: ys)
  end.

Definition len {A} (l : list A) : Z := Z.of_nat (length l).

(** [l[:stop]] *)
Definition slice_to {A} (l : list A) (stop : Z) : list A :=
  if 0 <=? stop then take (Z.to_nat stop) l
  else take (Z.to_nat (len l + stop)) l.

(** [l[i]] *)
Definition getitem {A} (l : list A) (i : Z) : Result A :=
  let j := if 0 <=? i then i else len l + i in
  if (0 <=? j) && (j <? len l) then
    match l !! Z.to_nat j with
    | Some x => Ok x
    | None => Raise IndexError
    end
  else Raise IndexError.

(** [range(n)] as indices of a list. *)
Definition range (n : nat) : list nat := seq 0 n.

(** Dictionaries keep insertion order; [keyset_pairs] and the pages' pair
    tables are compared and reversed as sequences, so they are association
    lists. *)
Definition dict (K V : Type) : Type := list (K * V).

Definition keys {K V} (d : dict K V) : list K := d.*1.
Definition values {K V} (d : dict K V) : list V := d.*2.

Fixpoint dict_get {K V} `{EqDecision K} (d : dict K V) (k : K) : option V :=
  match d with
  | [] => None
  | (k', v) :: d' => if decide (k' = k) then Some v else dict_get d' k
  end.

(** [a or b] on values that are [None] or a dict: an empty dict is falsy. *)
Definition py_or {K V} (a b : option (dict K V)) : option (dict K V) :=
  match a with
  | Some (_ :: _) => a
  | _ => b
  end.

(** [s.split(".", 1)] unpacked into two names: [None] when there is no dot
    (the unpacking raises ValueError, which the caller catches). *)
Fixpoint split_dot_once (s : string) : option (string * string) :=
  match s with
  | EmptyString => None
  | String c s' =>
      if decide (c = "."%char) then Some (EmptyString, s')
      else match split_dot_once s' with
           | Some (a, b) => Some (String c a, b)
           | None => None
           end
  end.

Definition is_whitespace (c : ascii) : bool :=
  let n := nat_of_ascii c in
  ((9 <=? n) && (n <=? 13) || (n =? 32))%nat.

Fixpoint take_token (s : string) : string :=
  match s with
  | EmptyString => EmptyString
  | String c s' => if is_whitespace c then EmptyString else String c (take_token s')
  end.

Fixpoint drop_whitespace (s : string) : string :=
  match s with
  | EmptyString => EmptyString
  | String c s' => if is_whitespace c then drop_whitespace s' else s
  end.

(** [s.split()[0]] *)
Definition first_token (s : string) : Result string :=
  match drop_whitespace s with
  | EmptyString => Raise IndexError
  | s' => Ok (take_token s')
  end.

Definition lower_ascii (c : ascii) : ascii :=
  let n := nat_of_ascii c in
  if ((65 <=? n) && (n <=? 90))%nat then ascii_of_nat (n + 32) else c.

(** [s.lower()] on ASCII names. *)
Fixpoint lower (s : string) : string :=
  match s with
  | EmptyString => EmptyString
  | String c s' => String (lower_ascii c) (lower s')
  end.

(** ** SQLAlchemy expressions *)

Inductive Operator : Type :=
  | asc_op | desc_op | nullsfirst_op | nullslast_op | distinct_op | neg.

Global Instance Operator_eq_dec : EqDecision Operator.
Proof. solve_decision. Defined.

Inductive ArithOperator : Type := add | mul.

Global Instance ArithOperator_eq_dec : EqDecision ArithOperator.
Proof. solve_decision. Defined.

(** The column expressions an ORDER BY clause is made of. [Label],
    [_label_reference], [Grouping] and [UnaryExpression] have an
    [element]; [UnaryExpression] has a [modifier]. A [Grouping] has none
    as SQLAlchemy builds it, and answers every attribute it lacks from
    its element ([Grouping.__getattr__]); the [modifier] of a [Grouping]
    here is the instance attribute that an assignment [x.modifier = ...]
    leaves on it, which no rendering reads. *)
Inductive ColumnElement : Type :=
  | ColumnClause (table : option string) (name : string)
  | BinaryExpression (left : ColumnElement) (operator : ArithOperator) (right : ColumnElement)
  | Label (name : string) (element : ColumnElement)
  | LabelReference (element : ColumnElement)
  | Grouping (element : ColumnElement) (modifier : option Operator)
  | UnaryExpression (element : ColumnElement) (operator modifier : option Operator).

Global Instance ColumnElement_eq_dec : EqDecision ColumnElement.
Proof. solve_decision. Defined.

(** The attribute [modifier] as the object itself holds it. *)
Definition own_modifier (x : ColumnElement) : option Operator :=
  match x with
  | UnaryExpression _ _ modifier => modifier
  | Grouping _ modifier => modifier
  | _ => None
  end.

(** [getattr(x, "modifier", None)] with [frames] stack frames left. A
    [Grouping] that holds no [modifier] asks its element, one frame
    deeper; with no frame left the interpreter raises RecursionError,
    which the default of [getattr] does not catch. *)
Fixpoint getattr_modifier (frames : nat) (x : ColumnElement) {struct x}
  : Result (option Operator) :=
  match x with
  | Grouping e None =>
      match frames with
      | O => Raise RecursionError
      | S frames' => getattr_modifier frames' e
      end
  | _ => Ok (own_modifier x)
  end.

(** [getattr(x, "element", None)]; [hasattr(x, "element")] is [is_Some]. *)
Definition getattr_element (x : ColumnElement) : option ColumnElement :=
  match x with
  | Label _ e | LabelReference e | Grouping e _ | UnaryExpression e _ _ => Some e
  | _ => None
  end.

(** [x.modifier = m], on the objects that answer [modifier]. *)
Definition set_modifier (x : ColumnElement) (m : Operator) : ColumnElement :=
  match x with
  | UnaryExpression e op _ => UnaryExpression e op (Some m)
  | Grouping e _ => Grouping e (Some m)
  | _ => x
  end.

(** [x.element = e] *)
Definition set_element (x e : ColumnElement) : ColumnElement :=
  match x with
  | Label n _ => Label n e
  | LabelReference _ => LabelReference e
  | Grouping _ m => Grouping e m
  | UnaryExpression _ op m => UnaryExpression e op m
  | _ => x
  end.

Definition column (name : string) : ColumnElement := ColumnClause None name.
Definition asc (c : ColumnElement) : ColumnElement := UnaryExpression c None (Some asc_op).
Definition desc (c : ColumnElement) : ColumnElement := UnaryExpression c None (Some desc_op).

(** [mod in (asc_op, desc_op)] *)
Definition is_direction (modifier : option Operator) : bool :=
  match modifier with
  | Some asc_op | Some desc_op => true
  | _ => false
  end.

(** [mod in _ORDER_MODIFIERS] *)
Definition is_order_modifier (modifier : option Operator) : bool :=
  match modifier with
  | Some asc_op | Some desc_op | Some nullsfirst_op | Some nullslast_op => true
  | _ => false
  end.

Definition _WRAPPING_DEPTH : nat := 1000.
(* The bound is unfolded only where a computation needs its value. *)
Global Opaque _WRAPPING_DEPTH.

(** What [Select._order_by_clauses] may hold: column expressions, possibly
    grouped in (nested) clause lists, tuples or lists. *)
Inductive ClauseTree : Type :=
  | Clause (c : ColumnElement)
  | ClauseList (clauses : list ClauseTree).

(** One side of a comparison in the seek predicate: a column expression or
    a plain Python value taken from the bookmark. *)
Inductive Comparable : Type :=
  | Expr (c : ColumnElement)
  | Value (v : Z).

Inductive CompareOperator : Type := lt | gt | eq.
Inductive BooleanOperator : Type := and_op | or_op.

Inductive BooleanClause : Type :=
  | BinaryCompare (left : ColumnElement) (operator : CompareOperator) (right : Comparable)
  | TupleCompare (left : list Comparable) (operator : CompareOperator) (right : list Comparable)
  | BooleanClauseList (operator : BooleanOperator) (clauses : list BooleanClause)
  | PyBool (b : bool).

(** [a < b]: a column expression builds the comparison; a plain value on
    the left defers to the reflected operator of the expression on the
    right; two plain values compare in Python. *)
Definition py_lt (a b : Comparable) : BooleanClause :=
  match a, b with
  | Expr c, _ => BinaryCompare c lt b
  | Value v, Expr c => BinaryCompare c gt (Value v)
  | Value v, Value w => PyBool (v <? w)
  end.

(** [a == b] *)
Definition py_eq (a b : Comparable) : BooleanClause :=
  match a, b with
  | Expr c, _ => BinaryCompare c eq b
  | Value v, Expr c => BinaryCompare c eq (Value v)
  | Value v, Value w => PyBool (v =? w)
  end.

Definition and_ (clauses : list BooleanClause) : BooleanClause :=
  BooleanClauseList and_op clauses.
Definition or_ (clauses : list BooleanClause) : BooleanClause :=
  BooleanClauseList or_op clauses.

(** The row value comparison [tuple_ a < tuple_ b]. *)
Definition tuple_lt (a b : list Comparable) : BooleanClause := TupleCompare a lt b.

(** One entry of [column_descriptions]: a core column expression, or an
    ORM description [D] (see [OrmDescription]). *)
Inductive ColumnDescription (D : Type) : Type :=
  | ColumnElementDesc (c : ColumnElement)
  | OrmDesc (d : D).
Arguments ColumnElementDesc {D} c.
Arguments OrmDesc {D} d.

(** A select statement, by the parts the paginators read and replace. The
    generative methods return modified copies. *)
Module Select.
Record t (D : Type) : Type := mk {
  column_descriptions : list (ColumnDescription D);
  _where_criteria : list BooleanClause;
  _having_criteria : list BooleanClause;
  _group_by_clauses : option (list ColumnElement);
  _order_by_clauses : list ClauseTree;
  _limit_clause : option Z
}.
Arguments mk {D}.
Arguments column_descriptions {D}.
Arguments _where_criteria {D}.
Arguments _having_criteria {D}.
Arguments _group_by_clauses {D}.
Arguments _order_by_clauses {D}.
Arguments _limit_clause {D}.

Definition where_ {D} (q : t D) (c : BooleanClause) : t D :=
  mk (column_descriptions q) (_where_criteria q ++ [c]) (_having_criteria q)
     (_group_by_clauses q) (_order_by_clauses q) (_limit_clause q).

Definition having {D} (q : t D) (c : BooleanClause) : t D :=
  mk (column_descriptions q) (_where_criteria q) (_having_criteria q ++ [c])
     (_group_by_clauses q) (_order_by_clauses q) (_limit_clause q).

(** [q.order_by(None)] cancels the ordering; [q.order_by] with clauses adds
    to it. *)
Definition order_by {D} (q : t D) (clauses : option (list ColumnElement)) : t D :=
  mk (column_descriptions q) (_where_criteria q) (_having_criteria q)
     (_group_by_clauses q)
     (match clauses with
      | None => []
      | Some cs => _order_by_clauses q ++ (Clause <$> cs)
      end)
     (_limit_clause q).

Definition limit {D} (q : t D) (n : Z) : t D :=
  mk (column_descriptions q) (_where_criteria q) (_having_criteria q)
     (_group_by_clauses q) (_order_by_clauses q) (Some n).
End Select.

(** The generative calls a paginator makes on its statement, in order. *)
Inductive BuilderCall : Type :=
  | CallWhere (c : BooleanClause)
  | CallHaving (c : BooleanClause)
  | CallOrderBy (clauses : option (list ColumnElement))
  | CallLimit (n : Z).

(** ** What the engine takes from its surroundings *)

(** What [compval.type.bind_processor(dialect)(value)] comes to: the
    processed value; a TypeError or AttributeError, as when the type has
    no processor and [None] is called; or an exception of another class,
    such as the LookupError of an [Enum] column. *)
Inductive BindOutcome : Type :=
  | Bound (value : Z)
  | NotBound
  | BindError (class_name : string).

(** [str] is SQLAlchemy's rendering of an expression ([str(element)]),
    [recursion_limit] the number of Python stack frames a chain of nested
    calls may still use before the interpreter raises RecursionError,
    [bind_processor] the bind processing of a column's type, and
    [ORDER_COL_PREFIX] the constant of [constants.py]. *)
Class Environment : Type := {
  str : ColumnElement → string;
  recursion_limit : nat;
  bind_processor : ColumnElement → option string → Z → BindOutcome;
  ORDER_COL_PREFIX : string
}.

(** ** [utils/ordering.py] *)

(** The generator, as the list of what it yields. A tuple or list of
    clauses is a [ClauseList] here. *)
Fixpoint _flatten_order_by_clauses (order_by_clauses : ClauseTree) : list ColumnElement :=
  match order_by_clauses with
  | Clause c => [c]
  | ClauseList clauses =>
      (fix go xs := match xs with
                    | [] => []
                    | subclause :: xs' => _flatten_order_by_clauses subclause ++ go xs'
                    end) clauses
  end.

(** [get_order_by_clauses] of [utils.py]. *)
Definition get_order_by_clauses {D} (selectable : Select.t D) : ClauseTree :=
  ClauseList (Select._order_by_clauses selectable).

Fixpoint _get_order_direction (frames : nat) (column_element : option ColumnElement)
  : Result (option Operator) :=
  match frames with
  | O => Raise RecursionError
  | S frames' =>
      match column_element with
      | None => Ok None
      | Some x =>
          do modifier <- getattr_modifier frames' x;
          if is_direction modifier then Ok modifier
          else _get_order_direction frames' (getattr_element x)
      end
  end.

(** The loops of [_reverse_order_direction] and [_remove_order_direction]
    walk down a freshly copied chain: [copied] is its top, [x] the current
    node, and the nodes between them are [parents], nearest first.
    [rebuild parents x] is [copied] as it stands once [x] hangs below
    [parents]. *)
Fixpoint rebuild (parents : list ColumnElement) (x : ColumnElement) : ColumnElement :=
  match parents with
  | [] => x
  | parent :: above => rebuild above (set_element parent x)
  end.

Fixpoint _reverse_order_direction_loop `{Environment} (iterations : nat)
    (parents : list ColumnElement) (x : ColumnElement) : Result ColumnElement :=
  match iterations with
  | O => Raise WrappingOverflow
  | S iterations' =>
      do modifier <- getattr_modifier recursion_limit x;
      if is_direction modifier then
        if decide (modifier = Some asc_op)
        then Ok (rebuild parents (set_modifier x desc_op))
        else Ok (rebuild parents (set_modifier x asc_op))
      else
        match getattr_element x with
        | None => Ok (rebuild parents x)
        | Some e => _reverse_order_direction_loop iterations' (x :: parents) e
        end
  end.

Definition _reverse_order_direction `{Environment} (column_element : ColumnElement)
  : Result ColumnElement :=
  _reverse_order_direction_loop _WRAPPING_DEPTH [] column_element.
Global Arguments _reverse_order_direction : simpl never.

(** The warning about NULLS FIRST and NULLS LAST modifiers leaves no trace
    in the result. *)
Fixpoint _remove_order_direction_loop `{Environment} (iterations : nat)
    (parents : list ColumnElement) (x : ColumnElement) : Result ColumnElement :=
  match iterations with
  | O => Raise WrappingOverflow
  | S iterations' =>
      do modifier <- getattr_modifier recursion_limit x;
      if is_order_modifier modifier then
        match getattr_element x with
        | Some e => _remove_order_direction_loop iterations' parents e
        | None => Raise (AttributeError "element")
        end
      else
        match getattr_element x with
        | None => Ok (rebuild parents x)
        | Some e => _remove_order_direction_loop iterations' (x :: parents) e
        end
  end.

Definition _remove_order_direction `{Environment} (column_element : ColumnElement)
  : Result ColumnElement :=
  _remove_order_direction_loop _WRAPPING_DEPTH [] column_element.
Global Arguments _remove_order_direction : simpl never.

(** [while isinstance(el, _LABELLED): el = el.element] *)
Fixpoint strip_labels (el : ColumnElement) : ColumnElement :=
  match el with
  | Label _ e | LabelReference e => strip_labels e
  | _ => el
  end.

Module OrderByColumnWrapper.
Record t : Type := mk {
  column_name_or_obj : ColumnElement;
  full_name : string;
  table_name : option string;
  name : string
}.

(** The property [element] of a wrapper around [c]. *)
Definition element_of `{Environment} (c : ColumnElement) : Result ColumnElement :=
  _remove_order_direction c.

(** The property [comparable_value] of a wrapper around [c]. *)
Definition comparable_value_of `{Environment} (c : ColumnElement) : Result ColumnElement :=
  do el <- element_of c; Ok (strip_labels el).

(** The nullable-column warning is advisory and leaves no trace in the
    result; its argument [self.comparable_value] is still evaluated. *)
Definition __init__ `{Environment} (column_name_or_obj : string + ColumnElement) : Result t :=
  let c := match column_name_or_obj with
           | inl s => column s
           | inr c => c
           end in
  do d <- _get_order_direction recursion_limit (Some c);
  let c := match d with None => asc c | Some _ => c end in
  do _ <- comparable_value_of c;
  do el <- element_of c;
  let full_name := str el in
  match split_dot_once full_name with
  | Some (table_name, name) => Ok (mk c full_name (Some table_name) name)
  | None => Ok (mk c full_name None full_name)
  end.

Definition quoted_full_name `{Environment} (self : t) : Result string :=
  first_token (str (column_name_or_obj self)).

Definition element `{Environment} (self : t) : Result ColumnElement :=
  element_of (column_name_or_obj self).

Definition comparable_value `{Environment} (self : t) : Result ColumnElement :=
  comparable_value_of (column_name_or_obj self).

Definition is_ascending `{Environment} (self : t) : Result bool :=
  do d <- _get_order_direction recursion_limit (Some (column_name_or_obj self));
  match d with
  | None => Raise ValueError
  | Some d => Ok (bool_decide (d = asc_op))
  end.

Definition reversed `{Environment} (self : t) : Result t :=
  do new_uo <- _reverse_order_direction (column_name_or_obj self);
  __init__ (inr new_uo).

(** [try: value = compval.type.bind_processor(dialect)(value)], with
    [except (TypeError, AttributeError): pass]. *)
Definition processed_value `{Environment} (compval : ColumnElement) (dialect : option string)
    (value : Z) : Result Z :=
  match bind_processor compval dialect value with
  | Bound value' => Ok value'
  | NotBound => Ok value
  | BindError class_name => Raise (OtherError class_name)
  end.

Definition pair_for_comparison `{Environment} (self : t) (value : Z) (dialect : option string)
  : Result (Comparable * Comparable) :=
  do compval <- comparable_value self;
  do value <- processed_value compval dialect value;
  do ascending <- is_ascending self;
  if ascending then Ok (Expr compval, Value value)
  else Ok (Value value, Expr compval).
End OrderByColumnWrapper.

Definition parse_order_by_clause `{Environment} {D} (selectable : Select.t D)
  : Result (list OrderByColumnWrapper.t) :=
  comprehension (λ clause, OrderByColumnWrapper.__init__ (inr clause))
    (_flatten_order_by_clauses (get_order_by_clauses selectable)).

(** What [derive_order_key] reads off an ORM column description
    [{entity, expr, type}] through SQLAlchemy's introspection. *)
Record OrmDescription : Type := {
  (* [dict(expr.columns)] when [expr] is a [Bundle] *)
  bundle_columns : option (dict string ColumnElement);
  (* [entity == expr], or [expr] is the [Mapper] of [entity] *)
  is_a_table : bool;
  (* [class_mapper(type).get_property_by_column(c).key]; [None] stands for
     UnmappedColumnError *)
  property_key : ColumnElement → option string;
  (* [(expr.parent.local_table.description, expr.name)] when [expr] is a
     [QueryableAttribute] with a parent mapper *)
  queryable_attribute : option (string * string);
  (* [expr] as an ordering expression; [None] stands for ArgumentError *)
  expr_clause : option ColumnElement
}.

Inductive MappedOrderColumn : Type :=
  | DirectColumn (order_by_wrapper : OrderByColumnWrapper.t) (index : nat)
  | AttributeColumn (order_by_wrapper : OrderByColumnWrapper.t) (index : nat) (attr : string)
  | AppendedColumn (order_by_wrapper : OrderByColumnWrapper.t) (name : string)
                   (extra_column : ColumnElement).

Definition order_by_clause `{Environment} (self : MappedOrderColumn) : Result ColumnElement :=
  match self with
  | DirectColumn w _ | AttributeColumn w _ _ => Ok (OrderByColumnWrapper.column_name_or_obj w)
  | AppendedColumn w _ col =>
      do ascending <- OrderByColumnWrapper.is_ascending w;
      Ok (if ascending then col else desc col)
  end.

(** The attribute [order_by_wrapper] of a mapped column. *)
Definition order_by_wrapper (self : MappedOrderColumn) : OrderByColumnWrapper.t :=
  match self with
  | DirectColumn w _ | AttributeColumn w _ _ | AppendedColumn w _ _ => w
  end.

(** [MappedOrderColumn.reversed]: a shallow copy of the column, holding the
    reversed wrapper. *)
Definition MappedOrderColumn_reversed `{Environment} (self : MappedOrderColumn)
  : Result MappedOrderColumn :=
  do reversed <- OrderByColumnWrapper.reversed (order_by_wrapper self);
  match self with
  | DirectColumn _ index => Ok (DirectColumn reversed index)
  | AttributeColumn _ index attr => Ok (AttributeColumn reversed index attr)
  | AppendedColumn _ name extra_column => Ok (AppendedColumn reversed name extra_column)
  end.

Definition decimal (n : nat) : string := NilEmpty.string_of_uint (Nat.to_uint n).

(** [AppendedColumn(order_by_column_wrapper)], as [find_order_key] calls it,
    with no name given: the class-wide [_counter] is passed in and handed
    back. *)
Definition AppendedColumn_init `{Environment} (order_by_column_wrapper : OrderByColumnWrapper.t)
    (_counter : nat) : Result (MappedOrderColumn * nat) :=
  let _counter := S _counter in
  let name := ORDER_COL_PREFIX +:+ decimal _counter in
  do cv <- OrderByColumnWrapper.comparable_value order_by_column_wrapper;
  Ok (AppendedColumn order_by_column_wrapper name (Label name cv), _counter).

(** The first bundle column that compares equal to the comparable value. *)
Fixpoint find_bundle_key `{Environment} (columns : dict string ColumnElement)
    (order_column_wrapper : OrderByColumnWrapper.t) : Result (option string) :=
  match columns with
  | [] => Ok None
  | (key, col) :: rest =>
      do cv <- OrderByColumnWrapper.comparable_value order_column_wrapper;
      if decide (strip_labels col = cv) then Ok (Some key)
      else find_bundle_key rest order_column_wrapper
  end.

Definition derive_order_key `{Environment} (order_column_wrapper : OrderByColumnWrapper.t)
    (desc : ColumnDescription OrmDescription) (column_index : nat)
  : Result (option MappedOrderColumn) :=
  match desc with
  | ColumnElementDesc c =>
      do cv <- OrderByColumnWrapper.comparable_value order_column_wrapper;
      if decide (c = cv) then Ok (Some (DirectColumn order_column_wrapper column_index))
      else Ok None
  | OrmDesc d =>
      do in_bundle <- match bundle_columns d with
                      | Some columns => find_bundle_key columns order_column_wrapper
                      | None => Ok None
                      end;
      match in_bundle with
      | Some key => Ok (Some (AttributeColumn order_column_wrapper column_index key))
      | None =>
      do mapped <- (if is_a_table d then
                      do el <- OrderByColumnWrapper.element order_column_wrapper;
                      Ok (property_key d el)
                    else Ok None);
      match mapped with
      | Some key => Ok (Some (AttributeColumn order_column_wrapper column_index key))
      | None =>
      let same_attribute :=
        match queryable_attribute d with
        | Some (tname, attribute_name) =>
            bool_decide (OrderByColumnWrapper.table_name order_column_wrapper = Some tname
                         ∧ OrderByColumnWrapper.name order_column_wrapper = attribute_name)
        | None => false
        end in
      if same_attribute then Ok (Some (DirectColumn order_column_wrapper column_index))
      else
        do quoted <- OrderByColumnWrapper.quoted_full_name order_column_wrapper;
        match expr_clause d with
        | None => Ok None
        | Some expr =>
            do of_expr <- OrderByColumnWrapper.__init__ (inr expr);
            if decide (quoted = OrderByColumnWrapper.full_name of_expr)
            then Ok (Some (DirectColumn order_column_wrapper column_index))
            else Ok None
        end
      end
      end
  end.

Fixpoint find_order_key_from `{Environment} (order_column_wrapper : OrderByColumnWrapper.t)
    (column_descriptions : list (ColumnDescription OrmDescription)) (index : nat)
    (_counter : nat) : Result (MappedOrderColumn * nat) :=
  match column_descriptions with
  | [] => AppendedColumn_init order_column_wrapper _counter
  | desc :: rest =>
      do order_key <- derive_order_key order_column_wrapper desc index;
      match order_key with
      | Some k => Ok (k, _counter)
      | None => find_order_key_from order_column_wrapper rest (S index) _counter
      end
  end.

Definition find_order_key `{Environment} (order_column_wrapper : OrderByColumnWrapper.t)
    (column_descriptions : list (ColumnDescription OrmDescription))
    (_counter : nat) : Result (MappedOrderColumn * nat) :=
  find_order_key_from order_column_wrapper column_descriptions 0 _counter.

(** ** Bookmarks *)

(** A bookmark is a dictionary with at most the keys ["direction"],
    ["keyset_pairs"] and ["offset"]; [{}] has none of them. *)
Module Bookmark.
Record t : Type := mk {
  direction : option string;
  keyset_pairs : option (dict string Z);
  offset : option Z
}.

Definition empty : t := mk None None None.

(** [not bookmark] *)
Definition is_empty (b : t) : bool :=
  match b with
  | mk None None None => true
  | _ => false
  end.

(** [bookmark.get("direction", "forward") == "backward"] *)
Definition is_backward (b : t) : bool :=
  bool_decide (default "forward" (direction b) = "backward").
End Bookmark.

(** ** [utils.py] *)

(** A table row, or the attributes of a mapped instance loaded from it. *)
Definition Attrs : Type := dict string Z.

(** A result row: one mapped entity under its key, or plain column values
    under their names. *)
Inductive Row : Type :=
  | EntityRow (key : string) (entity : Attrs)
  | ColumnsRow (mapping : dict string Z).

(** The rows a page holds after [unpack_rows_if_row_contains_only_orm_model]:
    a row kept whole, or the single item of a one-key row. *)
Inductive PageRow : Type :=
  | KeptRow (mapping : dict string Z)
  | MappedInstance (attrs : Attrs)
  | Scalar (v : Z).

(** For a [Row] the code calls [row._mapping()]; [_mapping] is a property
    that holds a [RowMapping], and calling that is a TypeError. Anything
    else is read by attribute. *)
Definition get_value_from_row_by_column_name (row : PageRow) (column_name : string) : Result Z :=
  match row with
  | KeptRow mapping => Raise (TypeError "'RowMapping' object is not callable")
  | MappedInstance attrs =>
      match dict_get attrs column_name with
      | Some v => Ok v
      | None => Raise (AttributeError column_name)
      end
  | Scalar _ => Raise (AttributeError column_name)
  end.

Definition unpack_rows_if_row_contains_only_orm_model (rows : list Row) : list PageRow :=
  (λ row,
     match row with
     | EntityRow _ entity => MappedInstance entity
     | ColumnsRow [(_, v)] => Scalar v
     | ColumnsRow mapping => KeptRow mapping
     end) <$> rows.

(** ** [page.py] *)

(** The interface of pages over rows of type [T]. The sequence protocol is
    implemented once, on [_rows]. *)
Class AbstractPage (T P : Type) : Type := {
  _rows : P → list T;
  last_page : P → Result Bookmark.t;
  total_pages_count : P → Result Z;
  current_page_number : P → Result Z;
  is_full : P → bool;
  has_next : P → bool;
  has_previous : P → bool;
  next : P → Bookmark.t;
  previous : P → Bookmark.t;
  first_page : P → Bookmark.t
}.

Definition __getitem__ `{AbstractPage T P} (self : P) (i : Z) : Result T :=
  getitem (_rows self) i.

Definition __len__ `{AbstractPage T P} (self : P) : Z := len (_rows self).

Definition __iter__ `{AbstractPage T P} (self : P) : list T := _rows self.

(** ** [keyset/page.py] *)

(** The metadata record of [keyset/paginator.py], which pages are built
    from. *)
Module ParsingMetadata.
Record t : Type := mk {
  page_size : Z;
  order_by_columns : list OrderByColumnWrapper.t;
  bookmark : Bookmark.t;
  expected_entries_count : Z
}.

Definition __init__ (page_size : Z) (order_by_columns : list OrderByColumnWrapper.t)
    (bookmark : Bookmark.t) : t :=
  mk page_size order_by_columns bookmark (page_size + 1).
End ParsingMetadata.

(** [d[k] = v] *)
Fixpoint dict_set {K V} `{EqDecision K} (d : dict K V) (k : K) (v : V) : dict K V :=
  match d with
  | [] => [(k, v)]
  | (k', v') :: d' => if decide (k' = k) then (k, v) :: d' else (k', v') :: dict_set d' k v
  end.

(** [enumerate(l)] *)
Definition enumerate {A} (l : list A) : list (Z * A) :=
  zip (Z.of_nat <$> seq 0 (length l)) l.

Module KeySetPage.
Record t : Type := mk {
  _rows : list PageRow;
  _metadata : ParsingMetadata.t;
  _keyset_pairs_table : dict Z (dict string Z);
  _previous_bookmark : Bookmark.t;
  _first_keyset_pair : option (dict string Z);
  _last_keyset_pair : option (dict string Z);
  _additional_keyset_pair : option (dict string Z);
  _next_keyset_pair : option (dict string Z);
  _previous_keyset_pair : option (dict string Z)
}.

(** [{column.name: get_value_from_row_by_column_name(row, column.name)
     for column in order_by_columns}] *)
Fixpoint keyset_pairs_of (row : PageRow) (order_by_columns : list OrderByColumnWrapper.t)
    (pairs : dict string Z) : Result (dict string Z) :=
  match order_by_columns with
  | [] => Ok pairs
  | column :: rest =>
      do v <- get_value_from_row_by_column_name row (OrderByColumnWrapper.name column);
      keyset_pairs_of row rest (dict_set pairs (OrderByColumnWrapper.name column) v)
  end.

(** The loop filling [_keyset_pairs_table]. *)
Fixpoint fill_table (indexed : list (Z * PageRow))
    (order_by_columns : list OrderByColumnWrapper.t)
    (table : dict Z (dict string Z)) : Result (dict Z (dict string Z)) :=
  match indexed with
  | [] => Ok table
  | (idx, row) :: rest =>
      do pairs <- keyset_pairs_of row order_by_columns [];
      fill_table rest order_by_columns (dict_set table idx pairs)
  end.

Definition __init__ (rows : list PageRow) (parsing_metadata : ParsingMetadata.t) : Result t :=
  let _metadata := parsing_metadata in
  let _rows := slice_to rows (ParsingMetadata.page_size _metadata) in
  do _keyset_pairs_table <-
    fill_table (enumerate rows) (ParsingMetadata.order_by_columns _metadata) [];
  let _previous_bookmark := ParsingMetadata.bookmark parsing_metadata in
  let backward := Bookmark.is_backward _previous_bookmark in
  let _keyset_pairs_table :=
    if backward then reverse _keyset_pairs_table else _keyset_pairs_table in
  let _rows := if backward then reverse _rows else _rows in
  let _first_keyset_pair := dict_get _keyset_pairs_table 0 in
  let _last_keyset_pair := dict_get _keyset_pairs_table (len _rows - 1) in
  let _additional_keyset_pair := dict_get _keyset_pairs_table (len _rows) in
  let _next_keyset_pair := py_or _additional_keyset_pair _last_keyset_pair in
  let _previous_keyset_pair := Bookmark.keyset_pairs _previous_bookmark in
  Ok (mk _rows _metadata _keyset_pairs_table _previous_bookmark _first_keyset_pair
         _last_keyset_pair _additional_keyset_pair _next_keyset_pair _previous_keyset_pair).

Definition total_pages_count (self : t) : Result Z :=
  Raise (TypeError "KeySetPage does not support total_pages_count").

Definition current_page_number (self : t) : Result Z :=
  Raise (TypeError "KeySetPage does not support current_page_number property").

Definition last_page (self : t) : Result Bookmark.t :=
  Raise (TypeError "KeySetPage does not support last_page property").

Definition first_page (self : t) : Bookmark.t := Bookmark.empty.

Definition is_full (self : t) : bool :=
  bool_decide (len (_rows self) = ParsingMetadata.expected_entries_count (_metadata self)).

Definition has_next (self : t) : bool :=
  bool_decide (_next_keyset_pair self ≠ None).

Definition next (self : t) : Bookmark.t :=
  if negb (has_next self) then Bookmark.empty
  else Bookmark.mk (Some "forward") (_next_keyset_pair self) None.

Definition has_previous (self : t) : bool :=
  bool_decide (_previous_keyset_pair self ≠ None).

Definition previous (self : t) : Bookmark.t :=
  if negb (has_previous self) then Bookmark.empty
  else Bookmark.mk (Some "backward") (_previous_keyset_pair self) None.
End KeySetPage.

Global Instance KeySetPage_AbstractPage : AbstractPage PageRow KeySetPage.t := {
  _rows := KeySetPage._rows;
  last_page := KeySetPage.last_page;
  total_pages_count := KeySetPage.total_pages_count;
  current_page_number := KeySetPage.current_page_number;
  is_full := KeySetPage.is_full;
  has_next := KeySetPage.has_next;
  has_previous := KeySetPage.has_previous;
  next := KeySetPage.next;
  previous := KeySetPage.previous;
  first_page := KeySetPage.first_page
}.

(** ** [limit_offset/page.py] *)

(** [a // b] *)
Definition floordiv (a b : Z) : Result Z :=
  if decide (b = 0) then Raise ZeroDivisionError else Ok (a / b).

Module LimitOffsetPage.
Record t (T : Type) : Type := mk {
  _rows : list T;
  _page_size : Z;
  _rows_count : Z;
  _current_offset : Z
}.
Arguments mk {T}.
Arguments _rows {T}.
Arguments _page_size {T}.
Arguments _rows_count {T}.
Arguments _current_offset {T}.

Definition __init__ {T} (rows : list T) (page_size offset rows_count : Z) : t T :=
  mk rows page_size rows_count offset.

Definition offset_bookmark (offset : Z) : Bookmark.t := Bookmark.mk None None (Some offset).

Definition total_pages_count {T} (self : t T) : Result Z :=
  floordiv (_rows_count self) (_page_size self).

Definition current_page_number {T} (self : t T) : Result Z :=
  floordiv (_current_offset self) (_page_size self).

Definition first_page {T} (self : t T) : Bookmark.t := offset_bookmark 0.

Definition last_page {T} (self : t T) : Result Bookmark.t :=
  if _rows_count self - _page_size self <? 0 then Ok Bookmark.empty
  else Ok (offset_bookmark (_rows_count self - _page_size self)).

Definition is_full {T} (self : t T) : bool :=
  bool_decide (len (_rows self) = _page_size self).

Definition has_next {T} (self : t T) : bool :=
  _current_offset self + _page_size self <? _rows_count self.

Definition next {T} (self : t T) : Bookmark.t :=
  if negb (has_next self) then Bookmark.empty
  else offset_bookmark (_current_offset self + _page_size self).

Definition has_previous {T} (self : t T) : bool :=
  if (_current_offset self =? 0) || (_current_offset self <? _page_size self) then false
  else _current_offset self <? _page_size self.

Definition previous {T} (self : t T) : Bookmark.t :=
  if negb (has_previous self) then Bookmark.empty
  else offset_bookmark (_current_offset self - _page_size self).
End LimitOffsetPage.

Global Instance LimitOffsetPage_AbstractPage {T} : AbstractPage T (LimitOffsetPage.t T) := {
  _rows := LimitOffsetPage._rows;
  last_page := LimitOffsetPage.last_page;
  total_pages_count := LimitOffsetPage.total_pages_count;
  current_page_number := LimitOffsetPage.current_page_number;
  is_full := LimitOffsetPage.is_full;
  has_next := LimitOffsetPage.has_next;
  has_previous := LimitOffsetPage.has_previous;
  next := LimitOffsetPage.next;
  previous := LimitOffsetPage.previous;
  first_page := LimitOffsetPage.first_page
}.

(** ** [limit_offset/paginator.py] *)

(** What a result row holds in a column: a mapped instance or a number. *)
Inductive Cell : Type :=
  | Entity (attrs : Attrs)
  | Number (v : Z).

(** A result row: its columns in order, under their keys. *)
Definition ResultRow : Type := dict string Cell.

(** [row[0]] *)
Definition row_first (row : ResultRow) : Result Cell :=
  match row with
  | [] => Raise IndexError
  | (_, cell) :: _ => Ok cell
  end.

(** [row[key]] *)
Definition row_get (row : ResultRow) (key : string) : Result Cell :=
  match dict_get row key with
  | Some cell => Ok cell
  | None => Raise (KeyError key)
  end.

(** [select(func.count("*")).select_from(table).scalar_subquery().label(key)] *)
Record CountSubquery : Type := { counted_from : string; count_label : string }.

Module LimitOffsetPaginator.
(** The statement, by the further parts this paginator reads and sets:
    the FROM list ([get_final_froms()], tables by name), the OFFSET and
    the columns added to the selected ones. *)
Record Statement : Type := mk_statement {
  select : Select.t OrmDescription;
  final_froms : list string;
  _offset_clause : option Z;
  added_columns : list CountSubquery
}.

Definition limit (stmt : Statement) (n : Z) : Statement :=
  mk_statement (Select.limit (select stmt) n) (final_froms stmt) (_offset_clause stmt)
    (added_columns stmt).

Definition offset (stmt : Statement) (n : Z) : Statement :=
  mk_statement (select stmt) (final_froms stmt) (Some n) (added_columns stmt).

Definition add_columns (stmt : Statement) (c : CountSubquery) : Statement :=
  mk_statement (select stmt) (final_froms stmt) (_offset_clause stmt)
    (added_columns stmt ++ [c]).

Record t : Type := mk {
  _page_size : Z;
  _select_or_query : Statement;
  _bookmark : Bookmark.t;
  _offset : Z;
  _total_count_key : string
}.

Definition __init__ (query_or_select : Statement) (page_size : Z)
    (bookmark : option Bookmark.t) (total_count_key : string) : t :=
  let bookmark := default Bookmark.empty bookmark in
  mk page_size query_or_select bookmark (default 0 (Bookmark.offset bookmark))
     total_count_key.

Definition _with_total_count_subquery (self : t) (stmt : Statement) : Result Statement :=
  match final_froms (_select_or_query self) with
  | [] => Raise IndexError
  | first :: _ => Ok (add_columns stmt {| counted_from := first;
                                           count_label := _total_count_key self |})
  end.

Definition get_modified_sql_statement (self : t) : Result Statement :=
  _with_total_count_subquery self
    (offset (limit (_select_or_query self) (_page_size self)) (_offset self)).

(** [with self.bookmarked(bookmark): body]: the body runs on the paginator
    with the bookmark set, and may change it; whatever the body's outcome,
    the [finally] clause then clears offset and bookmark. *)
Definition bookmarked {A} (self : t) (bookmark : Bookmark.t) (body : t → Result A * t)
  : Result A * t :=
  let self := mk (_page_size self) (_select_or_query self) bookmark (_offset self)
                (_total_count_key self) in
  let self := mk (_page_size self) (_select_or_query self) (_bookmark self)
                (default 0 (Bookmark.offset bookmark)) (_total_count_key self) in
  let '(outcome, self) := body self in
  let self := mk (_page_size self) (_select_or_query self) (_bookmark self) 0
                (_total_count_key self) in
  let self := mk (_page_size self) (_select_or_query self) Bookmark.empty (_offset self)
                (_total_count_key self) in
  (outcome, self).

(** [LimitOffsetPage] computes with the count as an integer: a row that
    holds an instance under the count's key is refused here, where Python
    would fail at the first comparison on the page. *)
Definition parse_result (self : t) (resulted_rows : list ResultRow)
  : Result (LimitOffsetPage.t Cell) :=
  match resulted_rows with
  | [] => Ok (LimitOffsetPage.__init__ [] (_page_size self) (_offset self) 0)
  | first :: _ =>
      do total_rows_count <- row_get first (_total_count_key self);
      do rows <- comprehension row_first resulted_rows;
      match total_rows_count with
      | Number n => Ok (LimitOffsetPage.__init__ rows (_page_size self) (_offset self) n)
      | Entity _ => Raise (TypeError "total count is not a number")
      end
  end.
End LimitOffsetPaginator.

(** ** [keyset/paginator.py] *)

Definition SUPPORTS_NATIVE_ROW_VALUES_COMPARISON : list string :=
  ["postgresql"; "mysql"; "sqlite"].

(** [self._dialect is not None and self._dialect.name.lower() in
    SUPPORTS_NATIVE_ROW_VALUES_COMPARISON]; a dialect is its name. *)
Definition supports_native_row_values_comparison (dialect : option string) : bool :=
  match dialect with
  | None => false
  | Some name => bool_decide (lower name ∈ SUPPORTS_NATIVE_ROW_VALUES_COMPARISON)
  end.

(** [l[index]] for an index produced by [range]. *)
Definition item {A} (l : list A) (index : nat) : Result A :=
  match l !! index with
  | Some x => Ok x
  | None => Raise IndexError
  end.

Definition _compare_sql_row_values (dialect : option string) (lesser greater : list Comparable)
  : Result BooleanClause :=
  if negb (bool_decide (length lesser = length greater)) then Raise ValueError
  else if bool_decide (length lesser = 1%nat) then
    do l0 <- item lesser 0;
    do g0 <- item greater 0;
    Ok (py_lt l0 g0)
  else if supports_native_row_values_comparison dialect then
    Ok (tuple_lt lesser greater)
  else
    do alternatives <-
      comprehension
        (λ eq_depth,
           do equalities <-
             comprehension
               (λ index,
                  do l <- item lesser index;
                  do g <- item greater index;
                  Ok (py_eq l g))
               (range eq_depth);
           do l <- item lesser eq_depth;
           do g <- item greater eq_depth;
           Ok (and_ (equalities ++ [py_lt l g])))
        (range (length lesser));
    Ok (or_ alternatives).

(** A computation that issues generative calls on a statement: the calls
    made so far, and its outcome. *)
Definition Builder (A : Type) : Type := list BuilderCall * Result A.

Definition pure {A} (r : Result A) : Builder A := ([], r).

Definition and_then {A B} (m : Builder A) (k : A → Builder B) : Builder B :=
  match m with
  | (calls, Ok a) => let '(calls', r) := k a in (calls ++ calls', r)
  | (calls, Raise e) => (calls, Raise e)
  end.

Definition call_where {D} (q : Select.t D) (c : BooleanClause) : Builder (Select.t D) :=
  ([CallWhere c], Ok (Select.where_ q c)).
Definition call_having {D} (q : Select.t D) (c : BooleanClause) : Builder (Select.t D) :=
  ([CallHaving c], Ok (Select.having q c)).
Definition call_order_by {D} (q : Select.t D) (clauses : option (list ColumnElement))
  : Builder (Select.t D) :=
  ([CallOrderBy clauses], Ok (Select.order_by q clauses)).
Definition call_limit {D} (q : Select.t D) (n : Z) : Builder (Select.t D) :=
  ([CallLimit n], Ok (Select.limit q n)).

Module KeySetPaginator.
Record t : Type := mk {
  _page_size : Z;
  _select_or_query : Select.t OrmDescription;
  _bookmark : Bookmark.t;
  _order_by_columns : list OrderByColumnWrapper.t;
  _order_by_clauses : list ColumnElement;
  _dialect : option string
}.

Definition _should_reverse_order_by_clause (bookmark : Bookmark.t) : bool :=
  if Bookmark.is_backward bookmark then true else false.

(** [[find_order_key(c, column_descriptors) for c in order_by_columns]],
    threading the counter of appended columns. *)
Fixpoint mapped_order_by_columns `{Environment}
    (order_by_columns : list OrderByColumnWrapper.t)
    (column_descriptors : list (ColumnDescription OrmDescription)) (_counter : nat)
  : Result (list MappedOrderColumn * nat) :=
  match order_by_columns with
  | [] => Ok ([], _counter)
  | c :: rest =>
      do (k, _counter) <- find_order_key c column_descriptors _counter;
      do (ks, _counter) <- mapped_order_by_columns rest column_descriptors _counter;
      Ok (k :: ks, _counter)
  end.

Definition _scaffold_order_by_clauses `{Environment}
    (select_or_query : Select.t OrmDescription)
    (order_by_columns : list OrderByColumnWrapper.t) (_counter : nat)
  : Result (list ColumnElement * nat) :=
  let column_descriptors := Select.column_descriptions select_or_query in
  do (mapped, _counter) <- mapped_order_by_columns order_by_columns column_descriptors _counter;
  do clauses <- comprehension order_by_clause mapped;
  Ok (clauses, _counter).

(** The constructor; [_counter] is [AppendedColumn._counter] before and
    after. *)
Definition __init__ `{Environment} (query_or_select : Select.t OrmDescription)
    (page_size : Z) (dialect : option string) (bookmark : option Bookmark.t)
    (_counter : nat) : Result (t * nat) :=
  let bookmark := default Bookmark.empty bookmark in
  do order_by_columns <- parse_order_by_clause query_or_select;
  do order_by_columns <-
    (if _should_reverse_order_by_clause bookmark
     then comprehension OrderByColumnWrapper.reversed order_by_columns
     else Ok order_by_columns);
  do (order_by_clauses, _counter) <-
    _scaffold_order_by_clauses query_or_select order_by_columns _counter;
  Ok (mk page_size query_or_select bookmark order_by_columns order_by_clauses dialect,
      _counter).

(** [greater_row, lesser_row = zip] of the unpacked [swapped]. *)
Definition unzip_pair {A} (swapped : list (A * A)) : Result (list A * list A) :=
  match swapped with
  | [] => Raise ValueError
  | _ => Ok (swapped.*1, swapped.*2)
  end.

Definition _apply_filter_condition_if_required `{Environment} (self : t)
  : Builder (Select.t OrmDescription) :=
  if Bookmark.is_empty (_bookmark self) then pure (Ok (_select_or_query self))
  else
    let group_by_clauses := Select._group_by_clauses (_select_or_query self) in
    and_then
      (pure
         (do keyset_pairs <- match Bookmark.keyset_pairs (_bookmark self) with
                             | Some pairs => Ok pairs
                             | None => Raise (KeyError "keyset_pairs")
                             end;
          let order_by_column_names := OrderByColumnWrapper.name <$> _order_by_columns self in
          if negb (bool_decide (order_by_column_names = keys keyset_pairs)) then
            Raise (KeySetPairsMismatchQueryError (keys keyset_pairs) order_by_column_names)
          else
            let zipped := zip (_order_by_columns self) (values keyset_pairs) in
            do swapped <-
              comprehension
                (λ '(c, value), OrderByColumnWrapper.pair_for_comparison c value (_dialect self))
                zipped;
            do (greater_row, lesser_row) <- unzip_pair swapped;
            _compare_sql_row_values (_dialect self) lesser_row greater_row))
      (λ filter_condition,
         match group_by_clauses with
         | Some (_ :: _) => call_having (_select_or_query self) filter_condition
         | _ => call_where (_select_or_query self) filter_condition
         end).

Definition get_modified_sql_statement `{Environment} (self : t)
  : Builder (Select.t OrmDescription) :=
  and_then (_apply_filter_condition_if_required self) (λ q,
  and_then (call_order_by q None) (λ q,
  and_then (call_order_by q (Some (_order_by_clauses self))) (λ select_or_query,
  let total_rows_num_plus_one_extra_to_check_next := _page_size self + 1 in
  call_limit select_or_query total_rows_num_plus_one_extra_to_check_next))).
End KeySetPaginator.

Definition parse_result (self : KeySetPaginator.t) (resulted_rows : list Row)
  : Result KeySetPage.t :=
  KeySetPage.__init__
    (unpack_rows_if_row_contains_only_orm_model resulted_rows)
    (ParsingMetadata.__init__
       (KeySetPaginator._page_size self)
       (KeySetPaginator._order_by_columns self)
       (KeySetPaginator._bookmark self)).

(** ** Evaluation of expressions and statements on rows *)

Fixpoint eval_column (r : Attrs) (c : ColumnElement) : Z :=
  match c with
  | ColumnClause _ name => default 0 (dict_get r name)
  | BinaryExpression a add b => eval_column r a + eval_column r b
  | BinaryExpression a mul b => eval_column r a * eval_column r b
  | Label _ e | LabelReference e | Grouping e _ => eval_column r e
  | UnaryExpression e (Some neg) _ => - eval_column r e
  | UnaryExpression e _ _ => eval_column r e
  end.

Definition eval_comparable (r : Attrs) (a : Comparable) : Z :=
  match a with
  | Expr c => eval_column r c
  | Value v => v
  end.

Definition compare_values (op : CompareOperator) (x y : Z) : bool :=
  match op with
  | lt => x <? y
  | gt => y <? x
  | eq => x =? y
  end.

(** Row-value comparison: the first differing position decides. *)
Fixpoint row_value_lt (a b : list Z) : bool :=
  match a, b with
  | x :: a', y :: b' => (x <? y) || ((x =? y) && row_value_lt a' b')
  | _, _ => false
  end.

Definition compare_row_values (op : CompareOperator) (a b : list Z) : bool :=
  match op with
  | lt => row_value_lt a b
  | gt => row_value_lt b a
  | eq => bool_decide (a = b)
  end.

Fixpoint eval_clause (r : Attrs) (c : BooleanClause) : bool :=
  match c with
  | BinaryCompare a op b => compare_values op (eval_column r a) (eval_comparable r b)
  | TupleCompare a op b =>
      compare_row_values op (eval_comparable r <$> a) (eval_comparable r <$> b)
  | BooleanClauseList and_op cs =>
      (fix all cs := match cs with [] => true | c :: cs' => eval_clause r c && all cs' end) cs
  | BooleanClauseList or_op cs =>
      (fix any cs := match cs with [] => false | c :: cs' => eval_clause r c || any cs' end) cs
  | PyBool b => b
  end.

(** [expr DESC] sorts downwards, anything else upwards. *)
Definition sorts_descending (c : ColumnElement) : bool :=
  match c with
  | UnaryExpression _ _ (Some desc_op) => true
  | _ => false
  end.

(** [r1] comes strictly before [r2] under ORDER BY [clauses]. *)
Fixpoint ordered_before (clauses : list ColumnElement) (r1 r2 : Attrs) : bool :=
  match clauses with
  | [] => false
  | c :: cs =>
      let x := eval_column r1 c in
      let y := eval_column r2 c in
      let before := if sorts_descending c then y <? x else x <? y in
      before || ((x =? y) && ordered_before cs r1 r2)
  end.

Fixpoint insert_ordered (clauses : list ColumnElement) (r : Attrs) (sorted : list Attrs)
  : list Attrs :=
  match sorted with
  | [] => [r]
  | r' :: rest =>
      if ordered_before clauses r r' then r :: sorted
      else r' :: insert_ordered clauses r rest
  end.

Definition sort_rows (clauses : list ColumnElement) (rows : list Attrs) : list Attrs :=
  foldr (insert_ordered clauses) [] rows.

(** Executing an ungrouped single-entity statement on a table: filter,
    sort, cut. *)
Definition execute {D} (entity_key : string) (table : list Attrs) (q : Select.t D) : list Row :=
  let kept :=
    filter (λ r, forallb (eval_clause r) (Select._where_criteria q ++ Select._having_criteria q))
           table in
  let sorted := sort_rows (_flatten_order_by_clauses (get_order_by_clauses q)) kept in
  let cut := match Select._limit_clause q with
             | Some n => take (Z.to_nat n) sorted
             | None => sorted
             end in
  EntityRow entity_key <$> cut.



(** ** A caller and sample data *)

(** One request as [examples/rest_api.py] serves it: build the paginator,
    run its statement on the table, parse the rows into a page. *)
Definition fetch_page `{Environment} (entity_key : string) (table : list Attrs)
    (query : Select.t OrmDescription) (page_size : Z) (bookmark : option Bookmark.t)
  : Result KeySetPage.t :=
  do (paginator, _) <- KeySetPaginator.__init__ query page_size None bookmark 0;
  do statement <- (KeySetPaginator.get_modified_sql_statement paginator).2;
  parse_result paginator (execute entity_key table statement).



(** A rendering in the manner of SQLAlchemy's default compiler; outside
    the columns of a select, a label renders as what it labels. *)
Fixpoint render (c : ColumnElement) : string :=
  match c with
  | ColumnClause (Some table) name => table +:+ "." +:+ name
  | ColumnClause None name => name
  | BinaryExpression a add b => render a +:+ " + " +:+ render b
  | BinaryExpression a mul b => render a +:+ " * " +:+ render b
  | Label name e => render e
  | LabelReference e => render e
  | Grouping e _ => "(" +:+ render e +:+ ")"
  | UnaryExpression e _ (Some asc_op) => render e +:+ " ASC"
  | UnaryExpression e _ (Some desc_op) => render e +:+ " DESC"
  | UnaryExpression e _ (Some nullsfirst_op) => render e +:+ " NULLS FIRST"
  | UnaryExpression e _ (Some nullslast_op) => render e +:+ " NULLS LAST"
  | UnaryExpression e (Some neg) _ => "-" +:+ render e
  | UnaryExpression e _ _ => render e
  end.

(** The recursion limit is the interpreter's default of 1000, less the
    frames in use where the engine is called. The columns of the sample
    tables are [Integer] columns, whose type has no bind processor. *)
Definition default_environment : Environment := {|
  str := render;
  recursion_limit := 950;
  bind_processor := λ _ _ _, NotBound;
  ORDER_COL_PREFIX := "_sqlakeyset_oc_"
|}.

(** The [authors] table of [tests/conftest.py], by its [id] column. *)
Definition Author_id : ColumnElement := ColumnClause (Some "authors") "id".
Definition Author_name : ColumnElement := ColumnClause (Some "authors") "name".

Definition Author : OrmDescription := {|
  bundle_columns := None;
  is_a_table := true;
  property_key := λ c, if decide (c = Author_id) then Some "id"
                        else if decide (c = Author_name) then Some "name"
                        else None;
  queryable_attribute := None;
  expr_clause := None
|}.

(** [select(Author).order_by(Author.id)] *)
Definition select_Author_order_by_id : Select.t OrmDescription :=
  Select.mk [OrmDesc Author] [] [] None [Clause Author_id] None.

(** Rows with ids 1..n. *)
Definition authors (n : nat) : list Attrs :=
  (λ i, [("id", Z.of_nat i)]) <$> seq 1 n.

(** ** Expression objects in a store *)

(** SQLAlchemy expressions are mutable objects, and the routines of
    [utils/ordering.py] copy what they are about to change. In a store of
    objects a chain of [element] references may run into itself, which no
    [ColumnElement] tree can. *)
Module Graph.
(** An object: [shell] holds its class and every attribute but the child,
    [element] names the child object, if the class has one. *)
Record Node : Type := mk { shell : ColumnElement; element : option nat }.

Definition node_modifier (node : Node) : option Operator :=
  own_modifier (shell node).

Definition node_set_modifier (node : Node) (m : Operator) : Node :=
  mk (set_modifier (shell node) m) (element node).

(** [getattr(x, "modifier", None)] with [frames] stack frames left; a
    [Grouping] that holds no [modifier] asks its element. *)
Fixpoint getattr_modifier (frames : nat) (s : gmap nat Node) (x : nat)
  : Result (option Operator) :=
  match s !! x with
  | Some (mk (Grouping _ None) (Some e)) =>
      match frames with
      | O => Raise RecursionError
      | S frames' => getattr_modifier frames' s e
      end
  | Some node => Ok (node_modifier node)
  | None => Ok None
  end.

Definition getattr_element (s : gmap nat Node) (x : nat) : option nat :=
  s !! x ≫= element.

(** [x._clone()]: a shallow copy at a fresh address. *)
Definition _clone (s : gmap nat Node) (x : nat) : gmap nat Node * nat :=
  let y := fresh (dom s) in
  (match s !! x with Some node => <[y := node]> s | None => s end, y).

(** [x._copy_internals()]: the child is replaced by a copy of itself. *)
Definition _copy_internals (s : gmap nat Node) (x : nat) : gmap nat Node :=
  match s !! x with
  | Some (mk sh (Some e)) => let '(s', e') := _clone s e in <[x := mk sh (Some e')]> s'
  | _ => s
  end.

(** [x.modifier = m] *)
Definition set_modifier (s : gmap nat Node) (x : nat) (m : Operator) : gmap nat Node :=
  match s !! x with
  | Some node => <[x := node_set_modifier node m]> s
  | None => s
  end.

(** [x.element = e] *)
Definition set_element (s : gmap nat Node) (x e : nat) : gmap nat Node :=
  match s !! x with
  | Some (mk sh _) => <[x := mk sh (Some e)]> s
  | None => s
  end.

Fixpoint _get_order_direction (frames : nat) (s : gmap nat Node)
    (column_element : option nat) : Result (option Operator) :=
  match frames with
  | O => Raise RecursionError
  | S frames' =>
      match column_element with
      | None => Ok None
      | Some x =>
          do modifier <- getattr_modifier frames' s x;
          if is_direction modifier then Ok modifier
          else _get_order_direction frames' s (getattr_element s x)
      end
  end.

Fixpoint _reverse_order_direction_loop `{Environment} (iterations : nat) (s : gmap nat Node)
    (copied x : nat) : gmap nat Node * Result nat :=
  match iterations with
  | O => (s, Raise WrappingOverflow)
  | S iterations' =>
      match getattr_modifier recursion_limit s x with
      | Raise e => (s, Raise e)
      | Ok modifier =>
      if is_direction modifier then
        if decide (modifier = Some asc_op)
        then (set_modifier s x desc_op, Ok copied)
        else (set_modifier s x asc_op, Ok copied)
      else
        match getattr_element s x with
        | None => (s, Ok copied)
        | Some _ =>
            let s := _copy_internals s x in
            match getattr_element s x with
            | Some e => _reverse_order_direction_loop iterations' s copied e
            | None => (s, Raise (AttributeError "element"))
            end
        end
      end
  end.

Definition _reverse_order_direction `{Environment} (s : gmap nat Node) (column_element : nat)
  : gmap nat Node * Result nat :=
  let '(s, copied) := _clone s column_element in
  _reverse_order_direction_loop _WRAPPING_DEPTH s copied copied.

Fixpoint _remove_order_direction_loop `{Environment} (iterations : nat) (s : gmap nat Node)
    (copied : nat) (parent : option nat) (x : nat) : gmap nat Node * Result nat :=
  match iterations with
  | O => (s, Raise WrappingOverflow)
  | S iterations' =>
      match getattr_modifier recursion_limit s x with
      | Raise e => (s, Raise e)
      | Ok modifier =>
      if is_order_modifier modifier then
        let s := _copy_internals s x in
        match getattr_element s x with
        | None => (s, Raise (AttributeError "element"))
        | Some e =>
            match parent with
            | None => _remove_order_direction_loop iterations' s e None e
            | Some p =>
                _remove_order_direction_loop iterations' (set_element s p e) copied parent e
            end
        end
      else
        match getattr_element s x with
        | None => (s, Ok copied)
        | Some _ =>
            let s := _copy_internals s x in
            match getattr_element s x with
            | Some e => _remove_order_direction_loop iterations' s copied (Some x) e
            | None => (s, Raise (AttributeError "element"))
            end
        end
      end
  end.

Definition _remove_order_direction `{Environment} (s : gmap nat Node) (column_element : nat)
  : gmap nat Node * Result nat :=
  let '(s, copied) := _clone s column_element in
  _remove_order_direction_loop _WRAPPING_DEPTH s copied None copied.

(** A label whose element is the label itself. *)
Definition self_loop : gmap nat Node :=
  {[ 0%nat := mk (Label "l" (column "c")) (Some 0%nat) ]}.
End Graph.

(** * Vocabulary of the properties *)

Definition is_mismatch (e : PyError) : bool :=
  match e with
  | KeySetPairsMismatchQueryError _ _ => true
  | _ => false
  end.

Definition raises {A} (P : PyError → bool) (r : Result A) : bool :=
  match r with
  | Ok _ => false
  | Raise e => P e
  end.

(** Equality of two value tuples, position by position. *)
Fixpoint all_equal (a b : list Z) : bool :=
  match a, b with
  | x :: a', y :: b' => (x =? y) && all_equal a' b'
  | _, _ => true
  end.

Definition rmap {A B} (f : A → B) (r : Result A) : Result B :=
  do a <- r; Ok (f a).

(** The lexicographic expansion as the specification words it: for each
    depth [d] below the number of keys, the conjunction of equality on the
    positions before [d] and strict inequality at position [d]; and the
    disjunction of these over all depths. *)
Definition expansion_at (lesser greater : list Comparable) (d : nat) : BooleanClause :=
  and_ (zip_with py_eq (take d lesser) (take d greater)
        ++ zip_with py_lt (take 1 (drop d lesser)) (take 1 (drop d greater))).

Definition lexicographic_expansion (lesser greater : list Comparable) : BooleanClause :=
  or_ (expansion_at lesser greater <$> seq 0 (length lesser)).

(** [a] comes before [b] in the lexicographic order: they agree up to some
    position, and there [a] holds the smaller value. *)
Definition lexicographically_less (a b : list Z) : Prop :=
  ∃ k x y, a !! k = Some x ∧ b !! k = Some y ∧ take k a = take k b ∧ x < y.

(** [asc_op] and [desc_op] swapped; any other modifier is left alone. *)
Definition flip_direction (d : option Operator) : option Operator :=
  match d with
  | Some asc_op => Some desc_op
  | Some desc_op => Some asc_op
  | _ => d
  end.

(** The wrapper that [OrderByColumnWrapper.__init__] builds around [c] once
    its order modifiers are removed, leaving [el]. *)
Definition names_of `{Environment} (c el : ColumnElement) : OrderByColumnWrapper.t :=
  match split_dot_once (str el) with
  | Some (table_name, name) => OrderByColumnWrapper.mk c (str el) (Some table_name) name
  | None => OrderByColumnWrapper.mk c (str el) None (str el)
  end.

Definition author (id : Z) : PageRow := MappedInstance [("id", id)].

Definition forward (pairs : dict string Z) : Bookmark.t :=
  Bookmark.mk (Some "forward") (Some pairs) None.
Definition backward (pairs : dict string Z) : Bookmark.t :=
  Bookmark.mk (Some "backward") (Some pairs) None.

(** One request against the five authors. *)
Definition request (page_size : Z) (bookmark : option Bookmark.t) : Result KeySetPage.t :=
  @fetch_page default_environment "Author" (authors 5) select_Author_order_by_id
    page_size bookmark.

(** The paginator for the authors after id 2, and what it emits. *)
Definition authors_after_two : KeySetPaginator.t :=
  KeySetPaginator.mk 2 select_Author_order_by_id (forward [("id", 2)])
    [OrderByColumnWrapper.mk (asc Author_id) "authors.id" (Some "authors") "id"]
    [asc Author_id] None.

Definition authors_after_two_calls : list BuilderCall :=
  [CallWhere (BinaryCompare Author_id gt (Value 2));
   CallOrderBy None; CallOrderBy (Some [asc Author_id]); CallLimit 3].

Definition authors_after_two_statement : Select.t OrmDescription :=
  Select.mk [OrmDesc Author] [BinaryCompare Author_id gt (Value 2)] [] None
    [Clause (asc Author_id)] (Some 3).

(** [c] inside [n] groupings. *)
Fixpoint wrapped (n : nat) (c : ColumnElement) : ColumnElement :=
  match n with
  | O => c
  | S n' => Grouping (wrapped n' c) None
  end.


Definition is_grouping (x : ColumnElement) : bool :=
  match x with
  | Grouping _ _ => true
  | _ => false
  end.

Definition is_wrapping_overflow (e : PyError) : bool :=
  match e with
  | WrappingOverflow => true
  | _ => false
  end.

(** In [s] the chain of [element] references from [x] passes [k] objects,
    none of them a grouping and none carrying an order modifier, and
    reaches an object. *)
Fixpoint endless (s : gmap nat Graph.Node) (x : nat) (k : nat) : Prop :=
  match k with
  | O => is_Some (s !! x)
  | S k' =>
      ∃ sh e, s !! x = Some (Graph.mk sh (Some e))
              ∧ is_grouping sh = false
              ∧ is_order_modifier (own_modifier sh) = false
              ∧ endless s e k'
  end.

(** [x] is a private copy of the original object [o]: the originals of
    [s0] are unchanged in [s], and [x] is none of them. *)
Definition copy_of (s0 s : gmap nat Graph.Node) (x o : nat) : Prop :=
  (∀ a, a ∈ dom s0 → s !! a = s0 !! a) ∧ (x ∉ dom s0) ∧ (s !! x = s0 !! o).

(** The object [x] of [s] is the root of the expression [t]. *)
Fixpoint represents (s : gmap nat Graph.Node) (x : nat) (t : ColumnElement) : Prop :=
  match t with
  | Label _ e | LabelReference e | Grouping e _ | UnaryExpression e _ _ =>
      ∃ sh y, s !! x = Some (Graph.mk sh (Some y)) ∧ set_element sh e = t ∧ represents s y e
  | _ => s !! x = Some (Graph.mk t None)
  end.

(** [node] is the root object of [t], its child being held by [s]. *)
Definition node_represents (s : gmap nat Graph.Node) (node : Graph.Node) (t : ColumnElement)
  : Prop :=
  match getattr_element t with
  | Some e => ∃ sh y, node = Graph.mk sh (Some y) ∧ set_element sh e = t ∧ represents s y e
  | None => node = Graph.mk t None
  end.

(** [x] is a private shallow copy of the root of [t]: the objects of [s0]
    are unchanged in [s], [x] is none of them, and its child is the
    original one. *)
Definition shallow_copy (s0 s : gmap nat Graph.Node) (x : nat) (t : ColumnElement) : Prop :=
  (∀ a, a ∈ dom s0 → s !! a = s0 !! a)
  ∧ (x ∉ dom s0)
  ∧ ∃ node, s !! x = Some node ∧ node_represents s0 node t.

(** The link from the parent to the current object in the loop of
    [_remove_order_direction]: without a parent the current object is the
    top; a parent is a private object whose child is the current one. *)
Definition parent_link (s0 s : gmap nat Graph.Node) (copied : nat) (parent : option nat)
    (x : nat) : Prop :=
  match parent with
  | None => copied = x
  | Some p => (p ∉ dom s0) ∧ p ≠ x ∧ ∃ shp, s !! p = Some (Graph.mk shp (Some x))
  end.

(** A labelled grouping around a descending column. *)
Definition labelled_name : ColumnElement :=
  Label "n" (Grouping (desc Author_name) None).

(** The objects of [labelled_name], from the label at address 0 down to
    the column at address 3. *)
Definition labelled_name_objects : gmap nat Graph.Node :=
  {[ 0%nat := Graph.mk (Label "n" Author_name) (Some 1%nat);
     1%nat := Graph.mk (Grouping Author_name None) (Some 2%nat);
     2%nat := Graph.mk (desc Author_name) (Some 3%nat);
     3%nat := Graph.mk Author_name None ]}.

(** The key of a row: what the page's pair table holds for it. *)
Definition key_of (order_by_columns : list OrderByColumnWrapper.t) (row : PageRow)
  : Result (dict string Z) :=
  KeySetPage.keyset_pairs_of row order_by_columns [].

(** The position a bookmark names, key by key: the key's comparable
    expression, whether it ascends, and the bookmark's value for it as the
    type of the key binds it for the dialect. *)
Definition cursor_of `{Environment} (dialect : option string)
    (order_by_columns : list OrderByColumnWrapper.t)
    (values : list Z) : Result (list (ColumnElement * bool * Z)) :=
  comprehension
    (λ '(c, value),
       do compval <- OrderByColumnWrapper.comparable_value c;
       do value <- OrderByColumnWrapper.processed_value compval dialect value;
       do ascending <- OrderByColumnWrapper.is_ascending c;
       Ok (compval, ascending, value))
    (zip order_by_columns values).

(** The type of the key [c] binds [value] for [dialect], or leaves it as
    it is: its bind processing raises nothing but the TypeError or
    AttributeError that [pair_for_comparison] passes over. *)
Definition binds `{Environment} (dialect : option string) (c : OrderByColumnWrapper.t)
    (value : Z) : Prop :=
  ∀ compval, OrderByColumnWrapper.comparable_value c = Ok compval →
             ∃ v, OrderByColumnWrapper.processed_value compval dialect value = Ok v.

(** Row [r] lies strictly past the cursor in the paging order: at the
    first key where they differ, [r] is on the far side in that key's
    direction. *)
Fixpoint strictly_after (r : Attrs) (cursor : list (ColumnElement * bool * Z)) : bool :=
  match cursor with
  | [] => false
  | (compval, ascending, value) :: rest =>
      let x := eval_column r compval in
      (if ascending then value <? x else x <? value)
      || ((x =? value) && strictly_after r rest)
  end.

Definition grouped {D} (q : Select.t D) : bool :=
  match Select._group_by_clauses q with
  | Some (_ :: _) => true
  | _ => false
  end.

(** The two sides [pair_for_comparison] returns for one key of a cursor. *)
Definition swap (key : ColumnElement * bool * Z) : Comparable * Comparable :=
  let '(compval, ascending, value) := key in
  if ascending then (Expr compval, Value value) else (Value value, Expr compval).

(** What [modifier] reads on [x] when the stack does not run out. *)
Fixpoint modifier_of (x : ColumnElement) : option Operator :=
  match x with
  | Grouping e None => modifier_of e
  | _ => own_modifier x
  end.

(** Some object on the chain of [element] references from [x] answers
    [modifier] with an order modifier. *)
Fixpoint has_order_modifier (x : ColumnElement) : bool :=
  is_order_modifier (modifier_of x)
  || match x with
     | Label _ e | LabelReference e | Grouping e _ | UnaryExpression e _ _ =>
         has_order_modifier e
     | _ => false
     end.

Fixpoint has_dot (s : string) : bool :=
  match s with
  | EmptyString => false
  | String c s' => bool_decide (c = "."%char) || has_dot s'
  end.

(** The names of the appended columns among [columns]. *)
Definition appended_names (columns : list MappedOrderColumn) : list string :=
  omap (λ k, match k with AppendedColumn _ name _ => Some name | _ => None end) columns.

(** [w] is a wrapper as [OrderByColumnWrapper.__init__] builds them. *)
Definition built `{Environment} (w : OrderByColumnWrapper.t) : Prop :=
  ∃ arg, OrderByColumnWrapper.__init__ arg = Ok w.

(** [column] with [w] in the place of its wrapper. *)
Definition with_wrapper (column : MappedOrderColumn) (w : OrderByColumnWrapper.t)
  : MappedOrderColumn :=
  match column with
  | DirectColumn _ index => DirectColumn w index
  | AttributeColumn _ index attr => AttributeColumn w index attr
  | AppendedColumn _ name extra_column => AppendedColumn w name extra_column
  end.

(** Two ordering keys have the same names. *)
Definition same_names (w w' : OrderByColumnWrapper.t) : Prop :=
  OrderByColumnWrapper.full_name w' = OrderByColumnWrapper.full_name w
  ∧ OrderByColumnWrapper.table_name w' = OrderByColumnWrapper.table_name w
  ∧ OrderByColumnWrapper.name w' = OrderByColumnWrapper.name w.

(** Two ordering keys are equivalent: the same names, the same
    expression once the order modifiers are removed, the same direction. *)
Definition same_key `{Environment} (w w' : OrderByColumnWrapper.t) : Prop :=
  same_names w w'
  ∧ (∃ el, OrderByColumnWrapper.element w = Ok el
           ∧ OrderByColumnWrapper.element w' = Ok el)
  ∧ ∃ a, OrderByColumnWrapper.is_ascending w = Ok a
         ∧ OrderByColumnWrapper.is_ascending w' = Ok a.

(** [w'] orders by the expression of [w], under the same names, the other
    way round. *)
Definition opposite_key `{Environment} (w w' : OrderByColumnWrapper.t) : Prop :=
  same_names w w'
  ∧ (∃ el, OrderByColumnWrapper.element w = Ok el
           ∧ OrderByColumnWrapper.element w' = Ok el)
  ∧ ∃ a, OrderByColumnWrapper.is_ascending w = Ok a
         ∧ OrderByColumnWrapper.is_ascending w' = Ok (negb a).


(** The ordering key of the sample query, as its wrapper. *)
Definition by_author_id : OrderByColumnWrapper.t :=
  OrderByColumnWrapper.mk (asc Author_id) "authors.id" (Some "authors") "id".

(** The key of a grouping around the descending name. *)
Definition by_grouped_name : OrderByColumnWrapper.t :=
  OrderByColumnWrapper.mk (Grouping (desc Author_name) None) "authors.name"
    (Some "authors") "name".

(** The paginator for the authors before id 4. *)
Definition authors_before_four : KeySetPaginator.t :=
  KeySetPaginator.mk 2 select_Author_order_by_id (backward [("id", 4)])
    [OrderByColumnWrapper.mk (desc Author_id) "authors.id" (Some "authors") "id"]
    [desc Author_id] None.



(** * Properties *)

(** ** Which errors a computation can raise *)

Lemma raises_bind {A B} (P : PyError → bool) (m : Result A) (k : A → Result B) :
  raises P m = false → (∀ a, raises P (k a) = false) → raises P (bind m k) = false.
Proof. destruct m as [a|e]; simpl; auto. Qed.

Lemma raises_comprehension {A B} (P : PyError → bool) (f : A → Result B) (xs : list A) :
  (∀ x, raises P (f x) = false) → raises P (comprehension f xs) = false.
Proof.
  intros Hf. induction xs as [|x xs IH]; simpl; [done|].
  apply raises_bind; [apply Hf|]. intros y.
  apply raises_bind; [apply IH|]. done.
Qed.

(** Reading [modifier] fails in one way only: the stack runs out. *)
Lemma getattr_modifier_raises frames x e :
  getattr_modifier frames x = Raise e → e = RecursionError.
Proof.
  revert frames. induction x as [| | | |x IH m|]; intros frames; try discriminate.
  destruct m; [discriminate|]. destruct frames; simpl; [by intros [= <-]|apply IH].
Qed.

Lemma getattr_modifier_no_raise (P : PyError → bool) frames x :
  P RecursionError = false → raises P (getattr_modifier frames x) = false.
Proof.
  intros HP. destruct (getattr_modifier frames x) as [m|e] eqn:Hm; [done|].
  by rewrite (getattr_modifier_raises _ _ _ Hm).
Qed.

Lemma get_order_direction_no_mismatch frames x :
  raises is_mismatch (_get_order_direction frames x) = false.
Proof.
  revert x. induction frames as [|n IH]; intros x; simpl; [done|].
  destruct x as [x|]; [|done].
  apply raises_bind; [by apply getattr_modifier_no_raise|].
  intros m. destruct (is_direction _); [done|]. apply IH.
Qed.

Lemma remove_order_direction_loop_no_mismatch `{Environment} n parents x :
  raises is_mismatch (_remove_order_direction_loop n parents x) = false.
Proof.
  revert parents x. induction n as [|n IH]; intros parents x; simpl; [done|].
  apply raises_bind; [by apply getattr_modifier_no_raise|].
  intros m. destruct (is_order_modifier _), (getattr_element x); simpl; auto.
Qed.

Lemma pair_for_comparison_no_mismatch `{Environment} c value dialect :
  raises is_mismatch (OrderByColumnWrapper.pair_for_comparison c value dialect) = false.
Proof.
  unfold OrderByColumnWrapper.pair_for_comparison,
    OrderByColumnWrapper.comparable_value, OrderByColumnWrapper.comparable_value_of,
    OrderByColumnWrapper.element_of, OrderByColumnWrapper.is_ascending,
    OrderByColumnWrapper.processed_value, _remove_order_direction.
  apply raises_bind.
  - apply raises_bind; [apply remove_order_direction_loop_no_mismatch|done].
  - intros compval. apply raises_bind; [by destruct (bind_processor _ _ _)|].
    intros value'. apply raises_bind.
    + apply raises_bind; [apply get_order_direction_no_mismatch|].
      intros [d|]; done.
    + intros [|]; done.
Qed.

Lemma item_no_mismatch {A} (l : list A) i : raises is_mismatch (item l i) = false.
Proof. unfold item. destruct (l !! i); done. Qed.

Lemma compare_sql_row_values_no_mismatch dialect lesser greater :
  raises is_mismatch (_compare_sql_row_values dialect lesser greater) = false.
Proof.
  unfold _compare_sql_row_values.
  destruct (negb _); [done|].
  destruct (bool_decide (length lesser = 1%nat)).
  { repeat (apply raises_bind; [apply item_no_mismatch|intros ?]). done. }
  destruct (supports_native_row_values_comparison _); [done|].
  apply raises_bind; [|done].
  apply raises_comprehension. intros eq_depth.
  apply raises_bind.
  - apply raises_comprehension. intros index.
    repeat (apply raises_bind; [apply item_no_mismatch|intros ?]). done.
  - intros eqs. repeat (apply raises_bind; [apply item_no_mismatch|intros ?]). done.
Qed.

(** ** The cursor is validated first (C1) *)

(** C1. When the bookmark holds keyset pairs whose key sequence is not the
    sequence of the ordering columns' names, [get_modified_sql_statement]
    raises KeySetPairsMismatchQueryError and has issued no [where],
    [having], [order_by] or [limit] call by then; when the two sequences
    agree, whatever it does, it does not raise that error. *)
Theorem cursor_mismatch_is_rejected_first `{Environment}
    (page_size : Z) (query : Select.t OrmDescription)
    (direction : option string) (pairs : dict string Z) (offset : option Z)
    (order_by_columns : list OrderByColumnWrapper.t)
    (order_by_clauses : list ColumnElement) (dialect : option string) :
  let self := KeySetPaginator.mk page_size query
                (Bookmark.mk direction (Some pairs) offset)
                order_by_columns order_by_clauses dialect in
  let names := OrderByColumnWrapper.name <$> order_by_columns in
  if bool_decide (names = keys pairs)
  then raises is_mismatch (KeySetPaginator.get_modified_sql_statement self).2 = false
  else KeySetPaginator.get_modified_sql_statement self
       = ([], Raise (KeySetPairsMismatchQueryError (keys pairs) names)).
Proof.
  intros self names.
  unfold KeySetPaginator.get_modified_sql_statement,
    KeySetPaginator._apply_filter_condition_if_required.
  assert (Bookmark.is_empty (KeySetPaginator._bookmark self) = false) as ->
    by (destruct direction, offset; done).
  cbn [KeySetPaginator._bookmark KeySetPaginator._order_by_columns self
       Bookmark.keyset_pairs bind].
  fold names. destruct (bool_decide (names = keys pairs)); cbn [negb].
  - set (cond := bind _ _).
    assert (raises is_mismatch cond = false) as Hcond.
    { subst cond. apply raises_bind.
      - apply raises_comprehension. intros [c v]. apply pair_for_comparison_no_mismatch.
      - intros swapped. apply raises_bind.
        + destruct swapped; done.
        + intros [g l]. apply compare_sql_row_values_no_mismatch. }
    destruct cond as [fc|e]; simpl in *; [|done].
    destruct (Select._group_by_clauses _) as [[|]|]; done.
  - done.
Qed.

(** ** The emitted statement (C6) *)

(** C6. Whenever [get_modified_sql_statement] emits a statement, for any
    page size and any bookmark, the statement's limit is [page_size + 1]
    and its ordering is exactly the paginator's resolved clauses: the base
    statement's own ordering is cancelled, not extended. The last three
    calls are [order_by(None)], [order_by] of the resolved clauses and
    [limit(page_size + 1)]. *)
Theorem emitted_statement_limit_and_ordering `{Environment}
    (self : KeySetPaginator.t) (calls : list BuilderCall) (q : Select.t OrmDescription) :
  KeySetPaginator.get_modified_sql_statement self = (calls, Ok q) →
  Select._limit_clause q = Some (KeySetPaginator._page_size self + 1)
  ∧ Select._order_by_clauses q = Clause <$> KeySetPaginator._order_by_clauses self
  ∧ ∃ filter_calls,
      calls = filter_calls ++
              [CallOrderBy None;
               CallOrderBy (Some (KeySetPaginator._order_by_clauses self));
               CallLimit (KeySetPaginator._page_size self + 1)].
Proof.
  unfold KeySetPaginator.get_modified_sql_statement.
  destruct (KeySetPaginator._apply_filter_condition_if_required self)
    as [filter_calls [q0|e]] eqn:Hfilter; simpl; [|done].
  intros [= <- <-]. simpl. split; [done|]. split; [done|].
  exists filter_calls. done.
Qed.

(** With no bookmark a statement is always emitted. *)
Lemma statement_emitted_without_bookmark `{Environment} (self : KeySetPaginator.t) :
  KeySetPaginator._bookmark self = Bookmark.empty →
  ∃ q, KeySetPaginator.get_modified_sql_statement self
       = ([CallOrderBy None;
           CallOrderBy (Some (KeySetPaginator._order_by_clauses self));
           CallLimit (KeySetPaginator._page_size self + 1)], Ok q).
Proof.
  intros Hb. unfold KeySetPaginator.get_modified_sql_statement,
    KeySetPaginator._apply_filter_condition_if_required.
  rewrite Hb. simpl. eauto.
Qed.

(** ** Pages (C4, C5, C8) *)

Lemma slice_to_length {A} (l : list A) (stop : Z) :
  0 ≤ stop → len (slice_to l stop) ≤ stop.
Proof.
  intros Hstop. unfold slice_to, len.
  destruct (Z.leb_spec 0 stop); [|lia].
  rewrite length_take. lia.
Qed.

Lemma slice_to_sublist {A} (l : list A) (stop : Z) :
  0 ≤ stop → slice_to l stop = take (Z.to_nat stop) l.
Proof. intros Hstop. unfold slice_to. destruct (Z.leb_spec 0 stop); [done|lia]. Qed.

Lemma getitem_elem_of {A} (l : list A) (i : Z) (x : A) :
  getitem l i = Ok x → x ∈ l.
Proof.
  unfold getitem. destruct (_ && _); [|done].
  destruct (l !! _) eqn:Hl; [|done]. intros [= <-].
  by eapply list_elem_of_lookup_2.
Qed.

Lemma KeySetPage_rows (rows : list PageRow) (metadata : ParsingMetadata.t) page :
  KeySetPage.__init__ rows metadata = Ok page →
  KeySetPage._rows page =
    let shown := slice_to rows (ParsingMetadata.page_size metadata) in
    if Bookmark.is_backward (ParsingMetadata.bookmark metadata) then reverse shown else shown.
Proof.
  unfold KeySetPage.__init__. destruct (KeySetPage.fill_table _ _ _); [|done].
  simpl. intros [= <-]. done.
Qed.

(** C5, for a page size that is not negative. A page built from any
    fetched rows, whatever the direction of its bookmark, shows at most
    [page_size] rows: its length is at most [page_size], what it iterates
    over is the first [page_size] fetched rows (in reverse for a backward
    bookmark), and every row that indexing returns is one of those. *)
Theorem page_never_exceeds_page_size
    (rows : list PageRow) (metadata : ParsingMetadata.t) (page : KeySetPage.t) :
  0 ≤ ParsingMetadata.page_size metadata →
  KeySetPage.__init__ rows metadata = Ok page →
  let shown := take (Z.to_nat (ParsingMetadata.page_size metadata)) rows in
  __len__ page ≤ ParsingMetadata.page_size metadata
  ∧ __iter__ page
    = (if Bookmark.is_backward (ParsingMetadata.bookmark metadata)
       then reverse shown else shown)
  ∧ ∀ i row, __getitem__ page i = Ok row → row ∈ shown.
Proof.
  intros Hsize Hinit shown.
  pose proof (KeySetPage_rows _ _ _ Hinit) as Hrows. simpl in Hrows.
  unfold __len__, __iter__, __getitem__. simpl.
  rewrite Hrows, slice_to_sublist by done. fold shown.
  assert (len shown ≤ ParsingMetadata.page_size metadata) as Hlen.
  { unfold shown, len. rewrite length_take. lia. }
  split; [|split].
  - destruct (Bookmark.is_backward _); [|done].
    unfold len in *. by rewrite length_reverse.
  - done.
  - intros i row Hget. apply getitem_elem_of in Hget.
    destruct (Bookmark.is_backward _); [|done]. by apply elem_of_reverse.
Qed.

(** C5 fails as stated: nothing keeps the page size from being negative,
    and the slice [rows[:page_size]] then drops rows from the end. With a
    page size of -1, three fetched rows give a page of two. *)
Lemma negative_page_size_shows_rows :
  ∃ page,
    KeySetPage.__init__ [author 1; author 2; author 3]
      (ParsingMetadata.__init__ (-1) [by_author_id] Bookmark.empty) = Ok page
    ∧ __iter__ page = [author 1; author 2]
    ∧ ¬ (__len__ page ≤ -1).
Proof. eexists. split; [vm_compute; reflexivity|]. split; [reflexivity|]. by vm_compute. Qed.

(** C8. On every keyset page, [total_pages_count] and
    [current_page_number] raise TypeError; neither ever yields a number. *)
Theorem keyset_page_counts_unsupported (page : KeySetPage.t) :
  total_pages_count page
    = Raise (TypeError "KeySetPage does not support total_pages_count")
  ∧ current_page_number page
    = Raise (TypeError "KeySetPage does not support current_page_number property").
Proof. split; reflexivity. Qed.

(** ** Limit/offset pages (C10) *)

(** C10. [LimitOffsetPage.has_previous] is false for every page size,
    offset and row count, so [previous] is always the empty bookmark. *)
Theorem limit_offset_never_has_previous {T} (rows : list T) (page_size offset rows_count : Z) :
  let page := LimitOffsetPage.__init__ rows page_size offset rows_count in
  has_previous page = false ∧ previous page = Bookmark.empty.
Proof.
  intros page.
  assert (has_previous page = false) as Hprev.
  { simpl. unfold LimitOffsetPage.has_previous. simpl.
    destruct (offset =? 0) eqn:H0; [done|].
    destruct (offset <? page_size) eqn:Hlt; done. }
  split; [done|].
  simpl in *. unfold LimitOffsetPage.previous. by rewrite Hprev.
Qed.

(** ** The decomposed seek predicate (C3) *)

Section Comparator.
Variable r : Attrs.

Lemma eval_or_ cs : eval_clause r (or_ cs) = existsb (eval_clause r) cs.
Proof. simpl. induction cs as [|c cs IH]; simpl; [done|]. by rewrite IH. Qed.

Lemma eval_and_ cs : eval_clause r (and_ cs) = forallb (eval_clause r) cs.
Proof. simpl. induction cs as [|c cs IH]; simpl; [done|]. by rewrite IH. Qed.

Lemma eval_py_lt a b :
  eval_clause r (py_lt a b) = (eval_comparable r a <? eval_comparable r b).
Proof. destruct a, b; reflexivity. Qed.

Lemma eval_py_eq a b :
  eval_clause r (py_eq a b) = (eval_comparable r a =? eval_comparable r b).
Proof. destruct a, b; simpl; try reflexivity. apply Z.eqb_sym. Qed.

Lemma eval_equalities la lb :
  forallb (eval_clause r) (zip_with py_eq la lb)
  = all_equal (eval_comparable r <$> la) (eval_comparable r <$> lb).
Proof.
  revert lb. induction la as [|a la IH]; intros [|b lb]; simpl; try done.
  by rewrite eval_py_eq, IH.
Qed.
End Comparator.

Lemma all_equal_take_S (a b : list Z) (k : nat) (x y : Z) :
  a !! k = Some x → b !! k = Some y →
  all_equal (take (S k) a) (take (S k) b)
  = all_equal (take k a) (take k b) && (x =? y).
Proof.
  revert a b. induction k as [|k IH]; intros [|x' a] [|y' b] Ha Hb;
    simplify_eq/=; try done.
  - destruct (x =? y); done.
  - rewrite (IH a b) by done. by rewrite andb_assoc.
Qed.

Lemma item_lookup {A} (l : list A) (i : nat) (x : A) : l !! i = Some x → item l i = Ok x.
Proof. unfold item. by intros ->. Qed.

Lemma equalities_comprehension (lesser greater : list Comparable) (k d : nat) :
  (k + d ≤ length lesser)%nat → (k + d ≤ length greater)%nat →
  comprehension
    (λ index, do l <- item lesser index; do g <- item greater index; Ok (py_eq l g))
    (seq k d)
  = Ok (zip_with py_eq (take d (drop k lesser)) (take d (drop k greater))).
Proof.
  revert k. induction d as [|d IH]; intros k Hl Hg; simpl; [done|].
  destruct (lookup_lt_is_Some_2 lesser k) as [l Hlk]; [lia|].
  destruct (lookup_lt_is_Some_2 greater k) as [g Hgk]; [lia|].
  rewrite (item_lookup _ _ _ Hlk), (item_lookup _ _ _ Hgk). simpl.
  rewrite IH by lia. simpl.
  by rewrite (drop_S _ _ _ Hlk), (drop_S _ _ _ Hgk).
Qed.

(** The alternatives for equality depths [k .. k+m-1] are all built, and
    one of them holds exactly when the first [k] positions agree and the
    rest of [lesser] is below the rest of [greater]. *)
Lemma alternatives_comprehension (lesser greater : list Comparable) (m k : nat) :
  length lesser = length greater → (k + m = length lesser)%nat →
  ∃ alternatives,
    comprehension
      (λ eq_depth,
         do equalities <-
           comprehension
             (λ index, do l <- item lesser index; do g <- item greater index; Ok (py_eq l g))
             (range eq_depth);
         do l <- item lesser eq_depth;
         do g <- item greater eq_depth;
         Ok (and_ (equalities ++ [py_lt l g])))
      (seq k m)
    = Ok alternatives
    ∧ alternatives = expansion_at lesser greater <$> seq k m
    ∧ ∀ r,
        let lv := eval_comparable r <$> lesser in
        let gv := eval_comparable r <$> greater in
        existsb (eval_clause r) alternatives
        = all_equal (take k lv) (take k gv) && row_value_lt (drop k lv) (drop k gv).
Proof.
  intros Hlen. unfold range. revert k. induction m as [|m IH]; intros k Hk.
  - exists []. split; [done|]. split; [done|]. intros r. simpl.
    set (lv := eval_comparable r <$> lesser). set (gv := eval_comparable r <$> greater).
    rewrite (drop_ge lv) by (unfold lv; rewrite length_fmap; lia).
    simpl. by rewrite andb_false_r.
  - destruct (lookup_lt_is_Some_2 lesser k) as [l Hlk]; [lia|].
    destruct (lookup_lt_is_Some_2 greater k) as [g Hgk]; [lia|].
    destruct (IH (S k)) as (rest & Hrest & Hform & Heval); [lia|].
    eexists. split; [|split].
    + simpl.
      rewrite (equalities_comprehension lesser greater 0 k) by lia. simpl.
      rewrite (item_lookup _ _ _ Hlk), (item_lookup _ _ _ Hgk). simpl.
      rewrite Hrest. simpl. reflexivity.
    + cbn [seq fmap list_fmap]. rewrite Hform. f_equal.
      unfold expansion_at. by rewrite (drop_S _ _ _ Hlk), (drop_S _ _ _ Hgk), !drop_0.
    + intros r. cbn zeta.
      set (lv := eval_comparable r <$> lesser). set (gv := eval_comparable r <$> greater).
      cbn [existsb]. rewrite (Heval r). fold lv gv.
      rewrite eval_and_, forallb_app, !drop_0, eval_equalities.
      cbn [forallb]. rewrite eval_py_lt, andb_true_r.
      rewrite !fmap_take. fold lv gv.
      assert (lv !! k = Some (eval_comparable r l)) as Hlv
        by (unfold lv; by rewrite list_lookup_fmap, Hlk).
      assert (gv !! k = Some (eval_comparable r g)) as Hgv
        by (unfold gv; by rewrite list_lookup_fmap, Hgk).
      rewrite (drop_S _ _ _ Hlv), (drop_S _ _ _ Hgv). cbn [row_value_lt].
      rewrite (all_equal_take_S _ _ _ _ _ Hlv Hgv).
      destruct (all_equal (take k lv) (take k gv)),
        (eval_comparable r l <? eval_comparable r g),
        (eval_comparable r l =? eval_comparable r g); done.
Qed.

Lemma row_value_lt_spec (a b : list Z) :
  row_value_lt a b = true ↔ lexicographically_less a b.
Proof.
  unfold lexicographically_less. revert b.
  induction a as [|x a IH]; intros [|y b]; simpl.
  - split; [done|]. by intros (k & ? & ? & ? & _).
  - split; [done|]. by intros (k & ? & ? & ? & _).
  - split; [done|]. by intros (k & ? & ? & _ & ? & _).
  - rewrite orb_true_iff, andb_true_iff, Z.ltb_lt, Z.eqb_eq, IH. split.
    + intros [Hlt|[-> (k & x' & y' & Ha & Hb & Htake & Hlt)]].
      * by exists 0%nat, x, y.
      * exists (S k), x', y'. simpl. by rewrite Htake.
    + intros ([|k] & x' & y' & Ha & Hb & Htake & Hlt); simplify_eq/=; [by left|].
      right. split; [done|]. eauto 10.
Qed.

(** C3. For tuples of equal length [n >= 2] and a dialect without native
    row-value comparison, [_compare_sql_row_values] returns the expansion
    itself: the disjunction, over the depths from 0 to [n - 1], of the
    conjunction of equality on the positions before the depth and strict
    inequality at it. On every row that predicate is true exactly when
    [lesser] comes before [greater] in the lexicographic order, and it has
    the value of the native tuple comparison. *)
Theorem decomposed_comparison_is_lexicographic
    (dialect : option string) (lesser greater : list Comparable) :
  length lesser = length greater →
  (2 ≤ length lesser)%nat →
  supports_native_row_values_comparison dialect = false →
  _compare_sql_row_values dialect lesser greater
  = Ok (lexicographic_expansion lesser greater)
  ∧ ∀ r,
      (eval_clause r (lexicographic_expansion lesser greater) = true
       ↔ lexicographically_less (eval_comparable r <$> lesser)
                                (eval_comparable r <$> greater))
      ∧ eval_clause r (lexicographic_expansion lesser greater)
        = eval_clause r (tuple_lt lesser greater).
Proof.
  intros Hlen Hn Hnative.
  destruct (alternatives_comprehension lesser greater (length lesser) 0 Hlen eq_refl)
    as (alternatives & Hbuilt & Hform & Heval).
  assert (∀ r, eval_clause r (lexicographic_expansion lesser greater)
               = row_value_lt (eval_comparable r <$> lesser) (eval_comparable r <$> greater))
    as Hvalue.
  { intros r. unfold lexicographic_expansion. rewrite <- Hform, eval_or_, (Heval r).
    cbn zeta. by rewrite !take_0, !drop_0. }
  split.
  - unfold _compare_sql_row_values.
    rewrite bool_decide_eq_true_2 by done. cbn [negb].
    rewrite bool_decide_eq_false_2 by lia.
    rewrite Hnative. unfold range in *. rewrite Hbuilt. cbn [bind].
    unfold lexicographic_expansion. by rewrite Hform.
  - intros r. split; [|by rewrite Hvalue].
    rewrite Hvalue. apply row_value_lt_spec.
Qed.

(** ** Reversing an ordering (C7) *)

Lemma set_element_getattr x e : getattr_element x = Some e → set_element x e = x.
Proof. destruct x; simpl; intros [= <-]; done. Qed.

Lemma set_element_twice x e e' : set_element (set_element x e) e' = set_element x e'.
Proof. destruct x; done. Qed.

Lemma own_modifier_set_element x e : own_modifier (set_element x e) = own_modifier x.
Proof. destruct x; done. Qed.

Lemma getattr_element_set_element x e e' :
  getattr_element x = Some e → getattr_element (set_element x e') = Some e'.
Proof. destruct x; done. Qed.

Lemma getattr_element_set_modifier t m :
  getattr_element (set_modifier t m) = getattr_element t.
Proof. destruct t; done. Qed.

(** What [getattr] returns, when it returns, does not depend on the
    frames it had. *)
Lemma getattr_modifier_Ok frames x m :
  getattr_modifier frames x = Ok m → m = modifier_of x.
Proof.
  revert frames. induction x as [| | | |x IH [o|]|]; intros frames; simpl;
    try (by intros [= <-]).
  destruct frames; [done|]. apply IH.
Qed.

(** An object with a modifier of its own is a unary expression or a
    grouping, and has an element. *)
Lemma modifier_of_has_element x d :
  modifier_of x = Some d → is_Some (getattr_element x).
Proof. destruct x; simpl; try done; eauto. Qed.

Lemma getattr_modifier_set_modifier frames x m :
  is_Some (modifier_of x) → getattr_modifier frames (set_modifier x m) = Ok (Some m).
Proof. destruct x; simpl; try done; by intros [? [=]]. Qed.

Lemma is_direction_order_modifier m : is_direction m = true → is_order_modifier m = true.
Proof. destruct m as [[]|]; done. Qed.

Lemma not_order_modifier_not_direction m :
  is_order_modifier m = false → is_direction m = false.
Proof. destruct m as [[]|]; done. Qed.

Lemma get_order_direction_is_direction frames x d :
  _get_order_direction frames x = Ok (Some d) → is_direction (Some d) = true.
Proof.
  revert x. induction frames as [|n IH]; intros x; simpl; [done|].
  destruct x as [x|]; [|done].
  destruct (getattr_modifier n x) as [m|]; [|done]. cbn [bind].
  destruct (is_direction m) eqn:Hdir; [|apply IH].
  intros [= Hmod]. by rewrite Hmod in Hdir.
Qed.

Section Loops.
Context `{Environment}.

(** The parents only matter when the finished chain is handed back. *)
Lemma reverse_loop_parents n parents x :
  _reverse_order_direction_loop n parents x
  = rmap (rebuild parents) (_reverse_order_direction_loop n [] x).
Proof.
  revert parents x. induction n as [|n IH]; intros parents x; simpl; [done|].
  destruct (getattr_modifier recursion_limit x) as [m|]; [|done]. cbn [bind].
  destruct (is_direction _).
  { destruct (decide _); done. }
  destruct (getattr_element x) as [e|]; [|done].
  rewrite (IH (x :: parents)), (IH [x]).
  destruct (_reverse_order_direction_loop n [] e); done.
Qed.

Lemma remove_loop_parents n parents x :
  _remove_order_direction_loop n parents x
  = rmap (rebuild parents) (_remove_order_direction_loop n [] x).
Proof.
  revert parents x. induction n as [|n IH]; intros parents x; simpl; [done|].
  destruct (getattr_modifier recursion_limit x) as [m|]; [|done]. cbn [bind].
  destruct (is_order_modifier _), (getattr_element x) as [e|]; try done.
  rewrite (IH (x :: parents)), (IH [x]).
  destruct (_remove_order_direction_loop n [] e); done.
Qed.

Lemma reverse_loop_step n x :
  _reverse_order_direction_loop (S n) [] x
  = do modifier <- getattr_modifier recursion_limit x;
    if is_direction modifier
    then Ok (set_modifier x (if decide (modifier = Some asc_op) then desc_op else asc_op))
    else match getattr_element x with
         | None => Ok x
         | Some e => rmap (set_element x) (_reverse_order_direction_loop n [] e)
         end.
Proof.
  simpl. destruct (getattr_modifier recursion_limit x) as [m|]; [|done]. cbn [bind].
  destruct (is_direction _).
  { destruct (decide _); done. }
  destruct (getattr_element x) as [e|]; [|done].
  by rewrite reverse_loop_parents.
Qed.

Lemma remove_loop_step n x :
  _remove_order_direction_loop (S n) [] x
  = do modifier <- getattr_modifier recursion_limit x;
    if is_order_modifier modifier
    then match getattr_element x with
         | Some e => _remove_order_direction_loop n [] e
         | None => Raise (AttributeError "element")
         end
    else match getattr_element x with
         | None => Ok x
         | Some e => rmap (set_element x) (_remove_order_direction_loop n [] e)
         end.
Proof.
  simpl. destruct (getattr_modifier recursion_limit x) as [m|]; [|done]. cbn [bind].
  destruct (is_order_modifier _), (getattr_element x) as [e|]; try done.
  by rewrite remove_loop_parents.
Qed.

(** Reversing below an object that answers [modifier] with no direction
    changes nothing in what it answers. *)
Lemma reverse_loop_modifier n x x' :
  _reverse_order_direction_loop n [] x = Ok x' →
  is_direction (modifier_of x) = false →
  ∀ f, getattr_modifier f x' = getattr_modifier f x.
Proof.
  revert x x'. induction n as [|n IH]; intros x x'; [done|].
  rewrite reverse_loop_step.
  destruct (getattr_modifier recursion_limit x) as [m|] eqn:Hm; [|done]. cbn [bind].
  rewrite (getattr_modifier_Ok _ _ _ Hm). intros Hx' Hdir. rewrite Hdir in Hx'.
  destruct (getattr_element x) as [e|] eqn:He; [|by injection Hx' as <-].
  destruct (_reverse_order_direction_loop n [] e) as [e'|] eqn:Hrev; [|done].
  injection Hx' as <-. intros f.
  destruct x as [| | | |x [o|]|]; try done.
  simpl in *. injection He as ->. destruct f; [done|]. by apply (IH e).
Qed.

(** One reversal: the direction read from the result is the flipped one,
    and removing the order modifiers gives what it gave before. *)
Lemma reverse_loop_spec n x x' :
  _reverse_order_direction_loop n [] x = Ok x' →
  (∀ frames d, _get_order_direction frames (Some x) = Ok (Some d) →
               _get_order_direction frames (Some x') = Ok (flip_direction (Some d)))
  ∧ (∀ m, _remove_order_direction_loop m [] x' = _remove_order_direction_loop m [] x).
Proof.
  revert x x'. induction n as [|n IH]; intros x x'; [done|].
  rewrite reverse_loop_step.
  destruct (getattr_modifier recursion_limit x) as [md|] eqn:Hmod; [|done]. cbn [bind].
  pose proof (getattr_modifier_Ok _ _ _ Hmod) as ->.
  destruct (is_direction (modifier_of x)) eqn:Hdir.
  - (* the direction is here *)
    intros [= <-].
    destruct (modifier_of x) as [d|] eqn:Hd; [|done].
    assert (is_Some (modifier_of x)) as Hsome by (rewrite Hd; eauto).
    split.
    + intros [|frames] d'; [done|]. cbn [_get_order_direction].
      destruct (getattr_modifier frames x) as [m0|] eqn:Hm0; [|done].
      pose proof (getattr_modifier_Ok _ _ _ Hm0) as ->. rewrite Hd. cbn [bind].
      rewrite Hdir. intros [= <-].
      rewrite (getattr_modifier_set_modifier _ _ _ Hsome). cbn [bind].
      destruct d; try done.
    + intros [|m]; [done|]. rewrite !remove_loop_step.
      rewrite (getattr_modifier_set_modifier _ _ _ Hsome), Hmod. cbn [bind].
      rewrite getattr_element_set_modifier.
      rewrite (is_direction_order_modifier _ Hdir).
      assert (is_order_modifier
                (Some (if decide (Some d = Some asc_op) then desc_op else asc_op)) = true)
        as -> by (by destruct (decide _)).
      done.
  - destruct (getattr_element x) as [e|] eqn:He.
    + destruct (_reverse_order_direction_loop n [] e) as [e'|] eqn:Hrev; [|done].
      intros [= <-]. destruct (IH _ _ Hrev) as [Hget Hremove].
      assert (∀ f, getattr_modifier f (set_element x e') = getattr_modifier f x) as Hsame.
      { apply (reverse_loop_modifier (S n)); [|done].
        rewrite reverse_loop_step, Hmod. cbn [bind]. by rewrite Hdir, He, Hrev. }
      split.
      * intros [|frames] d; [done|]. cbn [_get_order_direction].
        rewrite Hsame.
        destruct (getattr_modifier frames x) as [m0|] eqn:Hm0; [|done].
        pose proof (getattr_modifier_Ok _ _ _ Hm0) as ->. cbn [bind].
        rewrite Hdir, (getattr_element_set_element _ _ _ He), He. apply Hget.
      * intros [|m]; [done|]. rewrite !remove_loop_step, Hsame, Hmod. cbn [bind].
        rewrite (getattr_element_set_element _ _ _ He), He, Hremove.
        destruct (is_order_modifier _); [done|].
        destruct (_remove_order_direction_loop m [] e); simpl; [|done].
        by rewrite set_element_twice.
    + intros [= <-]. split; [|done].
      intros [|frames] d; [done|]. cbn [_get_order_direction].
      destruct (getattr_modifier frames x) as [m0|] eqn:Hm0; [|done].
      pose proof (getattr_modifier_Ok _ _ _ Hm0) as ->. cbn [bind].
      rewrite Hdir, He. by destruct frames.
Qed.

(** Wherever the order modifiers can be removed within the bound, the
    direction can be reversed within it. *)
Lemma reverse_loop_succeeds n x el :
  _remove_order_direction_loop n [] x = Ok el →
  ∃ x', _reverse_order_direction_loop n [] x = Ok x'.
Proof.
  revert x el. induction n as [|n IH]; intros x el; [done|].
  rewrite remove_loop_step, reverse_loop_step.
  destruct (getattr_modifier recursion_limit x) as [m|]; [|done]. cbn [bind].
  destruct (is_direction _) eqn:Hdir; [eauto|].
  destruct (getattr_element x) as [e|]; [|eauto].
  destruct (is_order_modifier _).
  - intros Hrem. destruct (IH _ _ Hrem) as [e' ->]. simpl. eauto.
  - destruct (_remove_order_direction_loop n [] e) as [el'|] eqn:Hrem; [|done].
    intros _. destruct (IH _ _ Hrem) as [e' ->]. simpl. eauto.
Qed.
End Loops.

Section Wrapper.
Context `{Environment}.
Lemma names_of_column c el : OrderByColumnWrapper.column_name_or_obj (names_of c el) = c.
Proof. unfold names_of. destruct (split_dot_once _) as [[]|]; reflexivity. Qed.

Lemma wrapper_init_unfold arg :
  OrderByColumnWrapper.__init__ arg
  = let c0 := match arg with inl s => column s | inr c => c end in
    do d <- _get_order_direction recursion_limit (Some c0);
    let c := match d with None => asc c0 | Some _ => c0 end in
    rmap (names_of c) (_remove_order_direction c).
Proof.
  unfold OrderByColumnWrapper.__init__. cbn zeta.
  destruct (_get_order_direction _ _) as [d|]; cbn [bind]; [|reflexivity].
  unfold OrderByColumnWrapper.comparable_value_of, OrderByColumnWrapper.element_of.
  unfold rmap, names_of.
  destruct (_remove_order_direction _) as [el|]; cbn [bind]; [|reflexivity].
  destruct (split_dot_once _) as [[]|]; reflexivity.
Qed.

Lemma wrapper_init_spec arg w :
  OrderByColumnWrapper.__init__ arg = Ok w →
  let c := OrderByColumnWrapper.column_name_or_obj w in
  ∃ d el, _get_order_direction recursion_limit (Some c) = Ok (Some d)
          ∧ _remove_order_direction c = Ok el
          ∧ w = names_of c el.
Proof.
  rewrite wrapper_init_unfold. cbn zeta.
  set (c0 := match arg with inl s => column s | inr c => c end).
  destruct (_get_order_direction recursion_limit (Some c0)) as [d|] eqn:Hd;
    cbn [bind]; [|discriminate].
  set (c := match d with None => asc c0 | Some _ => c0 end).
  assert (∃ d', _get_order_direction recursion_limit (Some c) = Ok (Some d')) as [d' Hd'].
  { subst c. destruct d as [d|]; [eauto|].
    destruct recursion_limit; [discriminate|]. cbn. eauto. }
  destruct (_remove_order_direction c) as [el|] eqn:Hel; [|discriminate].
  unfold rmap. cbn [bind]. intros [= <-].
  rewrite names_of_column. eauto.
Qed.

Lemma wrapper_init_of_direction c d :
  _get_order_direction recursion_limit (Some c) = Ok (Some d) →
  OrderByColumnWrapper.__init__ (inr c) = rmap (names_of c) (_remove_order_direction c).
Proof. intros Hd. rewrite wrapper_init_unfold. cbn zeta. rewrite Hd. reflexivity. Qed.

(** [reversed] on a wrapper that [__init__] built: it succeeds, and gives
    a wrapper, built as well, for the same element under the same names
    and with the other direction. *)
Lemma reversed_spec arg w :
  OrderByColumnWrapper.__init__ arg = Ok w →
  ∃ w', OrderByColumnWrapper.reversed w = Ok w'
        ∧ built w'
        ∧ same_names w w'
        ∧ OrderByColumnWrapper.element w' = OrderByColumnWrapper.element w
        ∧ ∃ a, OrderByColumnWrapper.is_ascending w = Ok a
               ∧ OrderByColumnWrapper.is_ascending w' = Ok (negb a).
Proof.
  intros Hinit. destruct (wrapper_init_spec _ _ Hinit) as (d & el & Hd & Hel & Hw).
  set (c := OrderByColumnWrapper.column_name_or_obj w) in *.
  destruct (reverse_loop_succeeds _ _ _ Hel) as [c' Hrev].
  destruct (reverse_loop_spec _ _ _ Hrev) as (Hget & Hrem).
  pose proof (get_order_direction_is_direction _ _ _ Hd) as Hdir.
  assert (∃ d', _get_order_direction recursion_limit (Some c') = Ok (Some d')
                ∧ bool_decide (d' = asc_op) = negb (bool_decide (d = asc_op)))
    as (d' & Hd' & Hflip).
  { rewrite (Hget _ _ Hd). destruct d; try discriminate Hdir; cbn; eauto. }
  assert (_remove_order_direction c' = Ok el) as Hel'.
  { unfold _remove_order_direction in *. by rewrite Hrem. }
  assert (OrderByColumnWrapper.__init__ (inr c') = Ok (names_of c' el)) as Hinit'.
  { rewrite (wrapper_init_of_direction _ _ Hd'), Hel'. reflexivity. }
  exists (names_of c' el). split; [|split; [|split; [|split]]].
  - unfold OrderByColumnWrapper.reversed, _reverse_order_direction. fold c.
    by rewrite Hrev.
  - by exists (inr c').
  - rewrite Hw. unfold same_names, names_of.
    destruct (split_dot_once _) as [[]|]; done.
  - unfold OrderByColumnWrapper.element, OrderByColumnWrapper.element_of.
    rewrite names_of_column. fold c. by rewrite Hel, Hel'.
  - exists (bool_decide (d = asc_op)). unfold OrderByColumnWrapper.is_ascending.
    rewrite names_of_column. fold c. rewrite Hd, Hd'. cbn [bind].
    by rewrite Hflip.
Qed.

Lemma built_element arg w :
  OrderByColumnWrapper.__init__ arg = Ok w →
  ∃ el, OrderByColumnWrapper.element w = Ok el.
Proof.
  intros Hinit. destruct (wrapper_init_spec _ _ Hinit) as (d & el & _ & Hel & _).
  exists el. exact Hel.
Qed.

(** Two reversals: the same element under the same names, with the same
    direction. *)
Lemma reversed_twice_spec arg w :
  OrderByColumnWrapper.__init__ arg = Ok w →
  ∃ w' w'', OrderByColumnWrapper.reversed w = Ok w'
            ∧ OrderByColumnWrapper.reversed w' = Ok w''
            ∧ opposite_key w w'
            ∧ same_key w w''
            ∧ built w''.
Proof.
  intros Hinit.
  destruct (reversed_spec _ _ Hinit) as (w' & Hw' & [arg' Hbuilt'] & Hnames & Hel & a & Ha & Ha').
  destruct (reversed_spec _ _ Hbuilt')
    as (w'' & Hw'' & Hbuilt'' & Hnames' & Hel' & a' & Hb & Hb').
  destruct (built_element _ _ Hinit) as [el Helement].
  exists w', w''. split; [done|]. split; [done|].
  split; [|split; [|done]].
  - split; [done|]. split; [|eauto].
    exists el. split; [done|]. by rewrite Hel.
  - split; [|split].
    + destruct Hnames as (? & ? & ?), Hnames' as (? & ? & ?). repeat split; congruence.
    + exists el. split; [done|]. by rewrite Hel', Hel.
    + exists a. split; [done|]. rewrite Hb', Ha' in *. injection Hb as <-.
      by rewrite negb_involutive.
Qed.
End Wrapper.

Lemma comprehension_cons_inv {A B} (f : A → Result B) x xs ys :
  comprehension f (x :: xs) = Ok ys →
  ∃ y ys', f x = Ok y ∧ comprehension f xs = Ok ys' ∧ ys = y :: ys'.
Proof.
  cbn [comprehension]. destruct (f x) as [y|]; [|done]. cbn [bind].
  destruct (comprehension f xs) as [ys'|]; [|done]. cbn [bind].
  intros [= <-]. eauto.
Qed.

(** C7. For the ordering keys that [OrderByColumnWrapper] builds from any
    expressions (direction modifier on top, nested, or absent), [reversed]
    succeeds on every key and gives a key for the same expression, under
    the same names, with the other direction; and [reversed] succeeds on
    those again, and gives keys equivalent to the original ones, each
    with the same expression, names and direction, in the same order. *)
Theorem reversing_twice_restores_ordering `{Environment}
    (args : list (string + ColumnElement)) (keys : list OrderByColumnWrapper.t) :
  comprehension OrderByColumnWrapper.__init__ args = Ok keys →
  ∃ reversed_keys restored_keys,
    comprehension OrderByColumnWrapper.reversed keys = Ok reversed_keys
    ∧ comprehension OrderByColumnWrapper.reversed reversed_keys = Ok restored_keys
    ∧ Forall2 opposite_key keys reversed_keys
    ∧ Forall2 same_key keys restored_keys.
Proof.
  revert keys. induction args as [|arg args IH]; intros keys Hkeys.
  - injection Hkeys as <-. exists [], []. repeat split; constructor.
  - apply comprehension_cons_inv in Hkeys as (w & ws & Hw & Hws & ->).
    destruct (IH _ Hws) as (ws' & ws'' & Hrev & Hback & Hopposite & Hsame).
    destruct (reversed_twice_spec _ _ Hw) as (w' & w'' & Hw' & Hw'' & Ho & Hs & _).
    exists (w' :: ws'), (w'' :: ws''). cbn [comprehension].
    rewrite Hw', Hw'', Hrev, Hback. cbn [bind].
    repeat split; by constructor.
Qed.

(** ** Paging through five authors (C2, C4) *)

(** C2 on the code. Over ids 1..5 ascending with two rows per page: no
    bookmark gives rows 1, 2, and a [next] bookmark that holds id 3, the
    key of the lookahead row, and not id 2; that bookmark gives rows 4, 5,
    so that row 3 is on no page, with the backward bookmark at id 3 as
    [previous]; and that one gives rows 1, 2 again. *)
Theorem round_trip_follows_the_lookahead_key :
  ∃ first second back,
    request 2 None = Ok first
    ∧ __iter__ first = [author 1; author 2]
    ∧ next first = forward [("id", 3)]
    ∧ request 2 (Some (next first)) = Ok second
    ∧ __iter__ second = [author 4; author 5]
    ∧ previous second = backward [("id", 3)]
    ∧ request 2 (Some (previous second)) = Ok back
    ∧ __iter__ back = [author 1; author 2].
Proof.
  do 3 eexists.
  split; [vm_compute; reflexivity|]. split; [reflexivity|]. split; [reflexivity|].
  split; [vm_compute; reflexivity|]. split; [reflexivity|]. split; [reflexivity|].
  split; [vm_compute; reflexivity|]. reflexivity.
Qed.

(** C4 at five rows and a page size of five: the page shows all five rows,
    there is no lookahead pair, and yet [has_next] is true. *)
Theorem full_last_page_claims_a_next_page :
  rmap (λ page, (__iter__ page, KeySetPage._additional_keyset_pair page, has_next page))
       (request 5 None)
  = Ok ([author 1; author 2; author 3; author 4; author 5], None, true).
Proof. vm_compute. reflexivity. Qed.

(** ** Instances *)

(** The decomposed predicate for two keys, one ascending and one
    descending, on a dialect without row values. *)
Lemma decomposed_comparison_at_two_keys :
  let lesser := [Value 3; Expr Author_id] in
  let greater := [Expr Author_name; Value 7] in
  _compare_sql_row_values (Some "oracle") lesser greater
  = Ok (lexicographic_expansion lesser greater)
  ∧ ∀ r,
      (eval_clause r (lexicographic_expansion lesser greater) = true
       ↔ lexicographically_less (eval_comparable r <$> lesser)
                                (eval_comparable r <$> greater))
      ∧ eval_clause r (lexicographic_expansion lesser greater)
        = eval_clause r (tuple_lt lesser greater).
Proof.
  apply (decomposed_comparison_is_lexicographic (Some "oracle")
           [Value 3; Expr Author_id] [Expr Author_name; Value 7]).
  - reflexivity.
  - simpl. lia.
  - vm_compute. reflexivity.
Defined.

(** A backward page of size two built from three fetched rows. *)
Lemma page_of_three_rows_shows_two :
  ∃ page,
    KeySetPage.__init__ [author 3; author 2; author 1]
      (ParsingMetadata.__init__ 2 [] (backward [])) = Ok page
    ∧ __len__ page ≤ 2
    ∧ __iter__ page = [author 2; author 3]
    ∧ ∀ i row, __getitem__ page i = Ok row → row ∈ [author 3; author 2].
Proof.
  eexists. split; [vm_compute; reflexivity|].
  apply (page_never_exceeds_page_size [author 3; author 2; author 1]
           (ParsingMetadata.__init__ 2 [] (backward []))).
  - simpl. lia.
  - vm_compute. reflexivity.
Defined.

(** The statement for the authors after id 2: the base ordering by
    [authors.id] is replaced by [authors.id ASC], and the limit is 3. *)
Lemma statement_for_authors_after_two :
  (@KeySetPaginator.__init__ default_environment select_Author_order_by_id 2 None
     (Some (forward [("id", 2)])) 0) = Ok (authors_after_two, 0%nat)
  ∧ @KeySetPaginator.get_modified_sql_statement default_environment authors_after_two
    = (authors_after_two_calls, Ok authors_after_two_statement)
  ∧ Select._limit_clause authors_after_two_statement
    = Some (KeySetPaginator._page_size authors_after_two + 1)
  ∧ Select._order_by_clauses authors_after_two_statement
    = Clause <$> KeySetPaginator._order_by_clauses authors_after_two
  ∧ ∃ filter_calls,
      authors_after_two_calls
      = filter_calls ++
        [CallOrderBy None;
         CallOrderBy (Some (KeySetPaginator._order_by_clauses authors_after_two));
         CallLimit (KeySetPaginator._page_size authors_after_two + 1)].
Proof.
  split; [vm_compute; reflexivity|].
  split; [vm_compute; reflexivity|].
  apply (@emitted_statement_limit_and_ordering default_environment
           authors_after_two authors_after_two_calls authors_after_two_statement).
  vm_compute. reflexivity.
Defined.

(** Four keys: a bare column, a grouping around a descending column, a
    labelled descending grouping, and a column given by name. *)
Lemma reversing_four_keys_twice :
  let args := [inr Author_id; inr (Grouping (desc Author_name) None);
               inr (Label "n" (desc (Grouping Author_name None))); inl "created"] in
  ∃ keys,
    @comprehension _ _ (@OrderByColumnWrapper.__init__ default_environment) args = Ok keys
    ∧ ∃ reversed_keys restored_keys,
        comprehension (@OrderByColumnWrapper.reversed default_environment) keys
        = Ok reversed_keys
        ∧ comprehension (@OrderByColumnWrapper.reversed default_environment) reversed_keys
          = Ok restored_keys
        ∧ Forall2 (@opposite_key default_environment) keys reversed_keys
        ∧ Forall2 (@same_key default_environment) keys restored_keys.
Proof.
  intros args. eexists. split; [vm_compute; reflexivity|].
  apply (@reversing_twice_restores_ordering default_environment args).
  vm_compute. reflexivity.
Defined.

(** ** [has_next] on a page without lookahead (C4) *)

Lemma dict_set_fresh {K V} `{EqDecision K} (d : dict K V) (k : K) (v : V) :
  k ∉ keys d → dict_set d k v = d ++ [(k, v)].
Proof.
  unfold keys. induction d as [|[k' v'] d IH]; simpl; [done|].
  intros Hk. apply not_elem_of_cons in Hk as [Hne Hk].
  destruct (decide (k' = k)); [congruence|]. by rewrite IH.
Qed.

Lemma dict_get_is_Some {K V} `{EqDecision K} (d : dict K V) (k : K) :
  k ∈ keys d → is_Some (dict_get d k).
Proof.
  unfold keys. induction d as [|[k' v'] d IH]; simpl; [by intros ?%elem_of_nil|].
  intros Hk. destruct (decide (k' = k)); [eauto|].
  apply elem_of_cons in Hk as [->|Hk]; [done|]. by apply IH.
Qed.

Lemma dict_get_None {K V} `{EqDecision K} (d : dict K V) (k : K) :
  k ∉ keys d → dict_get d k = None.
Proof.
  unfold keys. induction d as [|[k' v'] d IH]; simpl; [done|].
  intros Hk. apply not_elem_of_cons in Hk as [Hne Hk].
  destruct (decide (k' = k)); [congruence|]. by apply IH.
Qed.

Lemma fill_table_keys indexed order_by_columns table table' :
  NoDup (keys table ++ indexed.*1) →
  KeySetPage.fill_table indexed order_by_columns table = Ok table' →
  keys table' = keys table ++ indexed.*1.
Proof.
  revert table. induction indexed as [|[idx row] indexed IH]; intros table Hnodup; simpl.
  - intros [= <-]. by rewrite app_nil_r.
  - destruct (KeySetPage.keyset_pairs_of _ _ _) as [pairs|]; [|done]. cbn [bind].
    assert (idx ∉ keys table) as Hfresh.
    { apply NoDup_app in Hnodup as (_ & Hdisjoint & _).
      intros Hin. apply (Hdisjoint _ Hin). simpl. left. }
    rewrite (dict_set_fresh _ _ _ Hfresh). intros Hfill.
    apply IH in Hfill.
    + rewrite Hfill. unfold keys. rewrite fmap_app. simpl. by rewrite <- app_assoc.
    + unfold keys. rewrite fmap_app. simpl. by rewrite <- app_assoc.
Qed.

Lemma enumerate_keys {A} (l : list A) :
  (enumerate l).*1 = Z.of_nat <$> seq 0 (length l).
Proof. unfold enumerate. apply fst_zip. by rewrite length_fmap, length_seq. Qed.

Lemma page_table_keys rows metadata page :
  KeySetPage.__init__ rows metadata = Ok page →
  ∀ k, k ∈ keys (KeySetPage._keyset_pairs_table page) ↔ 0 ≤ k < len rows.
Proof.
  unfold KeySetPage.__init__.
  destruct (KeySetPage.fill_table _ _ _) as [table|] eqn:Hfill; [|done].
  cbn [bind]. intros [= <-]. cbn [KeySetPage._keyset_pairs_table].
  apply fill_table_keys in Hfill.
  2:{ simpl. rewrite enumerate_keys. apply NoDup_fmap; [apply _|apply NoDup_seq]. }
  simpl in Hfill. rewrite enumerate_keys in Hfill.
  intros k.
  assert (k ∈ keys table ↔ 0 ≤ k < len rows) as Htable.
  { rewrite Hfill, list_elem_of_fmap. unfold len. split.
    - intros (i & -> & Hi%elem_of_seq). lia.
    - intros Hk. exists (Z.to_nat k). split; [lia|]. apply elem_of_seq. lia. }
  destruct (Bookmark.is_backward _); [|done].
  unfold keys in *. by rewrite fmap_reverse, elem_of_reverse.
Qed.

(** C4, where the code departs from it. A page built from at least one
    row, with a page size of at least one, has [has_next] true; when no
    more than [page_size] rows came back, the page shows them all and
    holds no lookahead pair, and [has_next] is true all the same. *)
Theorem has_next_without_lookahead
    (rows : list PageRow) (metadata : ParsingMetadata.t) (page : KeySetPage.t) :
  1 ≤ len rows ≤ ParsingMetadata.page_size metadata →
  KeySetPage.__init__ rows metadata = Ok page →
  __len__ page = len rows
  ∧ KeySetPage._additional_keyset_pair page = None
  ∧ has_next page = true.
Proof.
  intros Hsize Hinit.
  pose proof (page_table_keys _ _ _ Hinit) as Hkeys.
  pose proof (KeySetPage_rows _ _ _ Hinit) as Hshown. cbn zeta in Hshown.
  assert (len (KeySetPage._rows page) = len rows) as Hlen.
  { rewrite Hshown, slice_to_sublist by lia. unfold len in *.
    destruct (Bookmark.is_backward _); rewrite ?length_reverse, length_take; lia. }
  assert (KeySetPage._additional_keyset_pair page
          = dict_get (KeySetPage._keyset_pairs_table page) (len (KeySetPage._rows page))
          ∧ KeySetPage._next_keyset_pair page
            = py_or (KeySetPage._additional_keyset_pair page)
                (dict_get (KeySetPage._keyset_pairs_table page)
                   (len (KeySetPage._rows page) - 1))) as [Hadditional Hnext].
  { revert Hinit. unfold KeySetPage.__init__.
    destruct (KeySetPage.fill_table _ _ _) as [table|]; [|done].
    cbn [bind]. intros [= <-]. done. }
  rewrite Hlen in Hadditional, Hnext.
  rewrite (dict_get_None _ (len rows)) in Hadditional by (rewrite Hkeys; lia).
  destruct (dict_get_is_Some (KeySetPage._keyset_pairs_table page) (len rows - 1))
    as [pairs Hlast]; [apply Hkeys; lia|].
  rewrite Hadditional, Hlast in Hnext.
  split; [done|]. split; [done|].
  cbn. unfold KeySetPage.has_next. by rewrite Hnext.
Qed.

(** Five rows at a page size of five. *)
Lemma five_rows_page_size_five_has_next :
  ∃ page,
    KeySetPage.__init__ [author 1; author 2; author 3; author 4; author 5]
      (ParsingMetadata.__init__ 5
         [OrderByColumnWrapper.mk (asc Author_id) "authors.id" (Some "authors") "id"]
         Bookmark.empty) = Ok page
    ∧ __len__ page = 5
    ∧ KeySetPage._additional_keyset_pair page = None
    ∧ has_next page = true.
Proof.
  eexists. split; [vm_compute; reflexivity|].
  apply (has_next_without_lookahead [author 1; author 2; author 3; author 4; author 5]
           (ParsingMetadata.__init__ 5
              [OrderByColumnWrapper.mk (asc Author_id) "authors.id" (Some "authors") "id"]
              Bookmark.empty)).
  - vm_compute. split; discriminate.
  - vm_compute. reflexivity.
Defined.

(** ** Expressions as objects: what copying protects *)

Lemma represents_node s x t :
  represents s x t ↔ ∃ node, s !! x = Some node ∧ node_represents s node t.
Proof.
  unfold node_represents. destruct t; simpl; split;
    try (intros (sh & y & Hx & Hsh & Hy); by eauto 10);
    try (intros (node & Hx & sh & y & -> & Hsh & Hy); by eauto 10);
    try (intros Hx; by eauto);
    try (intros (node & Hx & ->); done).
Qed.

Lemma represents_dom s x t : represents s x t → x ∈ dom s.
Proof. intros (node & Hx & _)%represents_node. apply elem_of_dom. eauto. Qed.

Lemma represents_frame s s' x t :
  (∀ a, a ∈ dom s → s' !! a = s !! a) → represents s x t → represents s' x t.
Proof.
  intros Hframe. revert x.
  induction t as [| | ? e IH | e IH | e IH | e IH ? ?]; intros x; simpl;
    try (intros Hx; rewrite Hframe; [done|apply elem_of_dom; eauto]);
    intros (sh & y & Hx & Hsh & Hy); exists sh, y;
    (split; [rewrite Hframe; [done|apply elem_of_dom; eauto]|]); split; auto.
Qed.

Lemma graph_getattr_modifier_unfold frames s x :
  Graph.getattr_modifier frames s x
  = match s !! x with
    | Some (Graph.mk (Grouping _ None) (Some e)) =>
        match frames with
        | O => Raise RecursionError
        | S frames' => Graph.getattr_modifier frames' s e
        end
    | Some node => Ok (Graph.node_modifier node)
    | None => Ok None
    end.
Proof. destruct frames; reflexivity. Qed.

(** Reading [modifier] on an object is reading it on the expression. *)
Lemma node_represents_modifier s0 s frames x node t :
  (∀ a, a ∈ dom s0 → s !! a = s0 !! a) →
  s !! x = Some node → node_represents s0 node t →
  (∀ f y e, getattr_element t = Some e → represents s0 y e →
            Graph.getattr_modifier f s y = getattr_modifier f e) →
  Graph.getattr_modifier frames s x = getattr_modifier frames t.
Proof.
  intros Hframe Hx Hnode Hchild. rewrite graph_getattr_modifier_unfold, Hx.
  unfold node_represents in Hnode.
  destruct (getattr_element t) as [e|] eqn:He.
  - destruct Hnode as (sh & y & -> & Hsh & Hy).
    destruct t as [| | | |t [o|]|]; destruct sh as [| | | |? [?|]|];
      simplify_eq/=; try done.
    destruct frames; [done|]. by apply Hchild.
  - subst node. by destruct t.
Qed.

Lemma represents_modifier s frames x t :
  represents s x t → Graph.getattr_modifier frames s x = getattr_modifier frames t.
Proof.
  revert frames x. induction t as [| | ? e IH | e IH | e IH ? | e IH ? ?];
    intros frames x Hrep;
    destruct (proj1 (represents_node _ _ _) Hrep) as (node & Hx & Hnode);
    (eapply node_represents_modifier; [done|done|done|]);
    intros f y e' [= <-] Hy; by apply IH.
Qed.

Lemma shallow_copy_modifier s0 s frames x t :
  shallow_copy s0 s x t → Graph.getattr_modifier frames s x = getattr_modifier frames t.
Proof.
  intros (Hframe & _ & node & Hx & Hnode).
  eapply node_represents_modifier; [done|done|done|].
  intros f y e _ Hy. apply represents_modifier. by eapply represents_frame.
Qed.

Lemma set_modifier_set_element sh e m :
  set_element (set_modifier sh m) e = set_modifier (set_element sh e) m.
Proof. destruct sh; done. Qed.

Lemma getattr_element_of_set_element sh e t :
  set_element sh e = t → is_Some (getattr_element t) → getattr_element t = Some e.
Proof. intros <-. destruct sh; simpl; by intros [? [=]] || done. Qed.

(** What [_copy_internals] does to a node with a child. *)
Lemma copy_internals_spec s x sh y node_y :
  s !! x = Some (Graph.mk sh (Some y)) → s !! y = Some node_y →
  ∃ y', (y' ∉ dom s)
        ∧ Graph._copy_internals s x
          = <[x := Graph.mk sh (Some y')]> (<[y' := node_y]> s).
Proof.
  intros Hx Hy. exists (fresh (dom s)). split; [apply is_fresh|].
  unfold Graph._copy_internals, Graph._clone. by rewrite Hx, Hy.
Qed.

(** The store after [_copy_internals] on a private copy [x] of the root of
    a wrapper around [e]: [x] now has a private copy of its child. *)
Lemma copy_internals_shallow_copy s0 s x t e :
  shallow_copy s0 s x t → getattr_element t = Some e →
  ∃ sh y',
    let s1 := Graph._copy_internals s x in
    set_element sh e = t
    ∧ s !! x = Some (Graph.mk sh (Graph.getattr_element s x))
    ∧ is_Some (Graph.getattr_element s x)
    ∧ s1 !! x = Some (Graph.mk sh (Some y'))
    ∧ (y' ∉ dom s) ∧ y' ≠ x
    ∧ (∀ a, a ≠ x → a ≠ y' → s1 !! a = s !! a)
    ∧ (∀ a, a ∈ dom s → a ∈ dom s1)
    ∧ shallow_copy s0 s1 y' e.
Proof.
  intros (Horig & Hx0 & node & Hx & Hnode) He.
  unfold node_represents in Hnode. rewrite He in Hnode.
  destruct Hnode as (sh & y & -> & Hsh & Hy).
  destruct (proj1 (represents_node _ _ _) Hy) as (node_y & Hy0 & Hnode_y).
  assert (s !! y = Some node_y) as Hys.
  { rewrite Horig; [done|]. apply elem_of_dom. eauto. }
  destruct (copy_internals_spec _ _ _ _ _ Hx Hys) as (y' & Hfresh & Hcopy).
  assert (y' ≠ x) as Hne by (intros ->; apply Hfresh, elem_of_dom; eauto).
  assert (∀ a, a ∈ dom s0 → a ∈ dom s) as Hsub.
  { intros a Ha. apply elem_of_dom. rewrite Horig by done. by apply elem_of_dom. }
  exists sh, y'. cbn zeta. rewrite Hcopy.
  unfold Graph.getattr_element. rewrite Hx. cbn [mbind option_bind Graph.element].
  split_and!; [done|done|by eexists| | done | done | | | ].
  - by rewrite lookup_insert_eq.
  - intros a Hax Hay. by rewrite !lookup_insert_ne.
  - intros a Ha. apply elem_of_dom. rewrite elem_of_dom in Ha.
    destruct (decide (a = x)) as [->|]; [by rewrite lookup_insert_eq|].
    rewrite lookup_insert_ne by done.
    destruct (decide (a = y')) as [->|]; [by rewrite lookup_insert_eq|].
    by rewrite lookup_insert_ne.
  - split; [|split].
    + intros a Ha. rewrite !lookup_insert_ne; [by apply Horig| |].
      * intros <-. by apply Hfresh, Hsub.
      * by intros <-.
    + intros Hy'. by apply Hfresh, Hsub.
    + exists node_y. split; [|done].
      rewrite lookup_insert_ne by done. by rewrite lookup_insert_eq.
Qed.

Lemma shallow_copy_leaf s0 s x t :
  shallow_copy s0 s x t → getattr_element t = None →
  Graph.getattr_element s x = None ∧ represents s x t.
Proof.
  intros (_ & _ & node & Hx & Hnode) He. unfold node_represents in Hnode.
  rewrite He in Hnode. subst node. split.
  - unfold Graph.getattr_element. by rewrite Hx.
  - apply represents_node. eexists. split; [done|].
    unfold node_represents. by rewrite He.
Qed.

Lemma represents_wrapper s x sh y e :
  s !! x = Some (Graph.mk sh (Some y)) → is_Some (getattr_element sh) →
  represents s y e → represents s x (set_element sh e).
Proof.
  intros Hx Hsh Hy. apply represents_node. eexists. split; [done|].
  unfold node_represents.
  assert (getattr_element (set_element sh e) = Some e) as ->
    by (destruct sh; simpl in *; try done; by destruct Hsh).
  eauto.
Qed.

Lemma is_Some_getattr_element_shell sh e t :
  set_element sh e = t → getattr_element t = Some e → is_Some (getattr_element sh).
Proof. intros <-. destruct sh; simpl; eauto; done. Qed.

Section Refinement.
Context `{Environment}.

(** The loop of [_reverse_order_direction] on objects does what the loop on
    expressions does, and changes no object but the copy it was given and
    those it makes. *)
Lemma graph_reverse_loop_refines s0 k s copied x t :
  shallow_copy s0 s x t →
  let result := Graph._reverse_order_direction_loop k s copied x in
  (∀ a, a ∈ dom s → a ≠ x → result.1 !! a = s !! a)
  ∧ match _reverse_order_direction_loop k [] t with
    | Ok t' => result.2 = Ok copied ∧ represents result.1 x t'
    | Raise e => result.2 = Raise e
    end.
Proof.
  revert s x t. induction k as [|k IH]; intros s x t Hcopy; [done|].
  rewrite reverse_loop_step. cbn [Graph._reverse_order_direction_loop].
  rewrite (shallow_copy_modifier _ _ _ _ _ Hcopy).
  destruct (getattr_modifier recursion_limit t) as [modifier|] eqn:Hmodifier;
    cbn [bind]; [|done].
  destruct (is_direction modifier) eqn:Hdir.
  - (* the direction is here: it is set on this object *)
    set (m' := if decide (modifier = Some asc_op) then desc_op else asc_op).
    assert ((if decide (modifier = Some asc_op)
             then (Graph.set_modifier s x desc_op, Ok copied)
             else (Graph.set_modifier s x asc_op, Ok copied))
            = (Graph.set_modifier s x m', Ok copied)) as ->
      by (subst m'; by destruct (decide _)).
    destruct Hcopy as (Horig & Hx0 & node & Hx & Hnode).
    unfold Graph.set_modifier. rewrite Hx. cbn zeta. cbn [fst snd].
    split; [intros a _ Ha; by rewrite lookup_insert_ne|].
    split; [done|].
    rewrite (getattr_modifier_Ok _ _ _ Hmodifier) in Hdir.
    destruct (modifier_of t) as [d|] eqn:Hd; [|done].
    destruct (modifier_of_has_element _ _ Hd) as [e He].
    unfold node_represents in Hnode. rewrite He in Hnode.
    destruct Hnode as (sh & y & -> & Hsh & Hy).
    assert (represents (<[x := Graph.node_set_modifier (Graph.mk sh (Some y)) m']> s) y e)
      as Hy'.
    { eapply represents_frame; [|exact Hy].
      intros a Ha. rewrite lookup_insert_ne; [by apply Horig|]. by intros <-. }
    destruct t as [| | | |t o|t op o]; try done; simpl in He; injection He as ->;
      simpl; exists (set_modifier sh m'), y;
      (split; [by rewrite lookup_insert_eq|]);
      (split; [by rewrite set_modifier_set_element, Hsh|done]).
  - destruct (getattr_element t) as [e|] eqn:He.
    + (* a wrapper: its child is copied, and the walk goes on in the copy *)
      destruct (copy_internals_shallow_copy _ _ _ _ _ Hcopy He)
        as (sh & y' & Hsh & Hx & Hsome & Hx1 & Hfresh & Hne & Hother & Hdom & Hcopy').
      cbn zeta in *. destruct Hsome as [y Hy].
      assert (Graph.getattr_element (Graph._copy_internals s x) x = Some y') as Hel1
        by (unfold Graph.getattr_element; by rewrite Hx1).
      rewrite Hy, Hel1.
      specialize (IH _ y' e Hcopy'). cbn zeta in IH.
      destruct IH as [Hframe Hresult]. split.
      * intros a Ha Hax. rewrite Hframe; [|by apply Hdom|].
        -- apply Hother; [done|]. intros ->. done.
        -- intros ->. done.
      * destruct (_reverse_order_direction_loop k [] e) as [e'|];
          unfold rmap; cbn [bind]; [|done].
        destruct Hresult as [-> Hrep]. split; [done|].
        rewrite <- Hsh, set_element_twice.
        eapply represents_wrapper; [|by eapply is_Some_getattr_element_shell|done].
        rewrite Hframe; [done| |done]. apply elem_of_dom. eauto.
    + (* nothing to reverse *)
      destruct (shallow_copy_leaf _ _ _ _ Hcopy He) as [-> Hrep]. done.
Qed.

(** X1. Reversing on objects refines reversing on expressions: the objects
    there were stay as they are, and the result is a new object that is
    the root of the reversed expression; where a grouping answered for a
    direction below it, that is the grouping with the other direction set
    on it, over the objects there were. *)
Theorem graph_reverse_refines s x t :
  represents s x t →
  let result := Graph._reverse_order_direction s x in
  (∀ a, a ∈ dom s → result.1 !! a = s !! a)
  ∧ match _reverse_order_direction t with
    | Ok t' => ∃ y, result.2 = Ok y ∧ represents result.1 y t'
    | Raise e => result.2 = Raise e
    end.
Proof.
  intros Hrep. destruct (proj1 (represents_node _ _ _) Hrep) as (node & Hx & Hnode).
  unfold Graph._reverse_order_direction, Graph._clone, _reverse_order_direction.
  rewrite Hx. set (copied := fresh (dom s)).
  assert (copied ∉ dom s) as Hfresh by apply is_fresh.
  assert (shallow_copy s (<[copied := node]> s) copied t) as Hcopy.
  { split; [|split; [done|]].
    - intros a Ha. rewrite lookup_insert_ne; [done|]. by intros <-.
    - exists node. by rewrite lookup_insert_eq. }
  destruct (graph_reverse_loop_refines s _WRAPPING_DEPTH _ copied copied t Hcopy)
    as [Hframe Hresult].
  cbn zeta. split.
  - intros a Ha. rewrite Hframe.
    + rewrite lookup_insert_ne; [done|]. by intros <-.
    + apply elem_of_dom. rewrite lookup_insert_ne by (by intros <-). by apply elem_of_dom.
    + by intros ->.
  - destruct (_reverse_order_direction_loop _ [] t); [|done].
    destruct Hresult. eauto.
Qed.

Lemma shallow_copy_insert_other s0 s y e p node :
  shallow_copy s0 s y e → p ∉ dom s0 → p ≠ y → shallow_copy s0 (<[p := node]> s) y e.
Proof.
  intros (Horig & Hy0 & n & Hy & Hn) Hp Hne. split; [|split; [done|]].
  - intros a Ha. rewrite lookup_insert_ne; [by apply Horig|]. by intros <-.
  - exists n. by rewrite lookup_insert_ne.
Qed.

Lemma graph_remove_loop_refines s0 k s copied parent x t :
  shallow_copy s0 s x t →
  parent_link s0 s copied parent x →
  let result := Graph._remove_order_direction_loop k s copied parent x in
  (∀ a, a ∈ dom s → a ≠ x → parent ≠ Some a → result.1 !! a = s !! a)
  ∧ match _remove_order_direction_loop k [] t with
    | Ok t' =>
        ∃ root, represents result.1 root t'
                ∧ match parent with
                  | None => result.2 = Ok root
                  | Some p =>
                      result.2 = Ok copied
                      ∧ ∀ shp old, s !! p = Some (Graph.mk shp old) →
                                   result.1 !! p = Some (Graph.mk shp (Some root))
                  end
    | Raise e => result.2 = Raise e
    end.
Proof.
  revert s copied parent x t.
  induction k as [|k IH]; intros s copied parent x t Hcopy Hlink; [done|].
  rewrite remove_loop_step. cbn [Graph._remove_order_direction_loop].
  rewrite (shallow_copy_modifier _ _ _ _ _ Hcopy).
  destruct (getattr_modifier recursion_limit t) as [modifier|] eqn:Hmodifier;
    cbn [bind]; [|done].
  destruct (getattr_element t) as [e|] eqn:He.
  - destruct (copy_internals_shallow_copy _ _ _ _ _ Hcopy He)
      as (sh & y' & Hsh & Hx & Hsome & Hx1 & Hfresh & Hne & Hother & Hdom & Hcopy').
    cbn zeta in *. destruct Hsome as [y Hy].
    assert (Graph.getattr_element (Graph._copy_internals s x) x = Some y') as Hel1
      by (unfold Graph.getattr_element; by rewrite Hx1).
    assert (x ∈ dom s) as Hxs by (apply elem_of_dom; eauto).
    set (s1 := Graph._copy_internals s x) in *.
    rewrite Hy, Hel1.
    destruct (is_order_modifier modifier) eqn:Hmod.
    + (* an order modifier: the object is left out of the chain *)
      destruct parent as [p|].
      * destruct Hlink as (Hp0 & Hpx & shp & Hp).
        assert (p ∈ dom s) as Hps by (apply elem_of_dom; eauto).
        assert (p ≠ y') as Hpy by (intros ->; done).
        assert (s1 !! p = Some (Graph.mk shp (Some x))) as Hp1
          by (rewrite Hother; done).
        assert (Graph.set_element s1 p y' = <[p := Graph.mk shp (Some y')]> s1) as ->
          by (unfold Graph.set_element; by rewrite Hp1).
        set (s2 := <[p := Graph.mk shp (Some y')]> s1).
        assert (shallow_copy s0 s2 y' e) as Hcopy2
          by (apply shallow_copy_insert_other; done).
        assert (parent_link s0 s2 copied (Some p) y') as Hlink2.
        { split; [done|]. split; [done|]. exists shp. subst s2. by rewrite lookup_insert_eq. }
        destruct (IH _ _ _ _ _ Hcopy2 Hlink2) as [Hframe Hresult]. split.
        -- intros a Ha Hax Hap. rewrite Hframe.
           ++ subst s2. rewrite lookup_insert_ne by congruence.
              apply Hother; [done|]. by intros ->.
           ++ subst s2. apply elem_of_dom. rewrite lookup_insert_ne by congruence.
              apply elem_of_dom. by apply Hdom.
           ++ by intros ->.
           ++ done.
        -- destruct (_remove_order_direction_loop k [] e) as [t'|]; [|done].
           destruct Hresult as (root & Hroot & Hres & Hparent).
           exists root. split; [done|]. split; [done|].
           intros shp' old Hp'. rewrite Hp in Hp'. injection Hp' as <- <-.
           apply (Hparent shp (Some y')). subst s2. by rewrite lookup_insert_eq.
      * simpl in Hlink. subst copied.
        assert (parent_link s0 s1 y' None y') as Hlink1 by done.
        destruct (IH _ _ _ _ _ Hcopy' Hlink1) as [Hframe Hresult]. split.
        -- intros a Ha Hax _. rewrite Hframe; [|by apply Hdom| |done].
           ++ apply Hother; [done|]. by intros ->.
           ++ by intros ->.
        -- destruct (_remove_order_direction_loop k [] e) as [t'|]; done.
    + (* any other wrapper stays, and becomes the parent *)
      assert (parent_link s0 s1 copied (Some x) y') as Hlink1.
      { destruct Hcopy as (_ & Hx0 & _). split; [done|]. split; [done|]. eauto. }
      destruct (IH _ _ _ _ _ Hcopy' Hlink1) as [Hframe Hresult]. split.
      * intros a Ha Hax Hap. rewrite Hframe; [|by apply Hdom| |congruence].
        -- apply Hother; [done|]. by intros ->.
        -- by intros ->.
      * destruct (_remove_order_direction_loop k [] e) as [e'|];
          unfold rmap; cbn [bind]; [|done].
        destruct Hresult as (root & Hroot & Hres & Hparent).
        specialize (Hparent _ _ Hx1).
        exists x. split.
        { rewrite <- Hsh, set_element_twice.
          eapply represents_wrapper; [done|by eapply is_Some_getattr_element_shell|done]. }
        destruct parent as [p|].
        -- destruct Hlink as (Hp0 & Hpx & shp & Hp). split; [done|].
           intros shp' old Hp'. rewrite Hp in Hp'. injection Hp' as <- <-.
           assert (p ∈ dom s) as Hps by (apply elem_of_dom; eauto).
           rewrite Hframe; [|by apply Hdom| |congruence].
           ++ rewrite Hother; [done|done|]. by intros ->.
           ++ by intros ->.
        -- simpl in Hlink. by subst copied.
  - (* no child: the walk ends here *)
    destruct (shallow_copy_leaf _ _ _ _ Hcopy He) as [Hel Hrep]. rewrite Hel.
    assert (is_order_modifier modifier = false) as ->
      by (destruct t; simplify_eq/=; done).
    cbn [fst snd]. split; [done|].
    exists x. split; [done|].
    destruct parent as [p|].
    + destruct Hlink as (Hp0 & Hpx & shp & Hp). split; [done|].
      intros shp' old Hp'. rewrite Hp in Hp'. by injection Hp' as <- <-.
    + simpl in Hlink. by subst copied.
Qed.

(** X2. Removing the order modifiers on objects refines removing them on
    expressions, and leaves the objects there were as they are; a
    grouping that answers for an order modifier below it is left out of
    the result like the object that carries the modifier. *)
Theorem graph_remove_refines s x t :
  represents s x t →
  let result := Graph._remove_order_direction s x in
  (∀ a, a ∈ dom s → result.1 !! a = s !! a)
  ∧ match _remove_order_direction t with
    | Ok t' => ∃ y, result.2 = Ok y ∧ represents result.1 y t'
    | Raise e => result.2 = Raise e
    end.
Proof.
  intros Hrep. destruct (proj1 (represents_node _ _ _) Hrep) as (node & Hx & Hnode).
  unfold Graph._remove_order_direction, Graph._clone, _remove_order_direction.
  rewrite Hx. set (copied := fresh (dom s)).
  assert (copied ∉ dom s) as Hfresh by apply is_fresh.
  assert (shallow_copy s (<[copied := node]> s) copied t) as Hcopy.
  { split; [|split; [done|]].
    - intros a Ha. rewrite lookup_insert_ne; [done|]. by intros <-.
    - exists node. by rewrite lookup_insert_eq. }
  destruct (graph_remove_loop_refines s _WRAPPING_DEPTH _ copied None copied t Hcopy eq_refl)
    as [Hframe Hresult].
  cbn zeta. split.
  - intros a Ha. rewrite Hframe.
    + rewrite lookup_insert_ne; [done|]. by intros <-.
    + apply elem_of_dom. rewrite lookup_insert_ne by (by intros <-). by apply elem_of_dom.
    + by intros ->.
    + done.
  - destruct (_remove_order_direction_loop _ [] t); [|done].
    destruct Hresult as (root & Hroot & Hres). eauto.
Qed.

End Refinement.

(** X3. Reading the direction on objects is reading it on the expression. *)
Theorem graph_get_order_direction_refines frames s x t :
  represents s x t →
  Graph._get_order_direction frames s (Some x) = _get_order_direction frames (Some t).
Proof.
  revert x t. induction frames as [|frames IH]; intros x t Hrep; [done|].
  destruct (proj1 (represents_node _ _ _) Hrep) as (node & Hx & Hnode).
  cbn [Graph._get_order_direction _get_order_direction].
  rewrite (represents_modifier _ _ _ _ Hrep).
  destruct (getattr_modifier frames t) as [m|]; [|done]. cbn [bind].
  destruct (is_direction _); [done|].
  unfold Graph.getattr_element. rewrite Hx. cbn [mbind option_bind].
  unfold node_represents in Hnode. destruct (getattr_element t) as [e|].
  - destruct Hnode as (sh & y & -> & _ & Hy). by apply IH.
  - subst node. by destruct frames.
Qed.

Lemma labelled_name_objects_represent :
  represents labelled_name_objects 0 labelled_name.
Proof.
  simpl. do 2 eexists. split; [reflexivity|]. split; [reflexivity|].
  do 2 eexists. split; [reflexivity|]. split; [reflexivity|].
  do 2 eexists. split; [reflexivity|]. split; reflexivity.
Qed.

(** Reversing on the objects of a labelled grouping around a descending
    column: the result is a new label over a new grouping with ASC set on
    it, over the descending column there was; and the objects there were
    still make up the original expression. *)
Example reversing_labelled_name_objects :
  let result := @Graph._reverse_order_direction default_environment labelled_name_objects 0 in
  represents labelled_name_objects 0 labelled_name
  ∧ ∃ y, result.2 = Ok y
         ∧ represents result.1 y (Label "n" (Grouping (desc Author_name) (Some asc_op)))
         ∧ result.1 !! 2%nat = labelled_name_objects !! 2%nat
         ∧ represents result.1 0 labelled_name.
Proof.
  intros result. pose proof labelled_name_objects_represent as Hrep.
  split; [exact Hrep|].
  destruct (@graph_reverse_refines default_environment _ _ _ Hrep) as [Hframe Hresult].
  assert (@_reverse_order_direction default_environment labelled_name
          = Ok (Label "n" (Grouping (desc Author_name) (Some asc_op)))) as Hrev
    by (vm_compute; reflexivity).
  rewrite Hrev in Hresult. destruct Hresult as (y & Hy & Hrep').
  exists y. split; [done|]. split; [done|]. split.
  - apply Hframe. by vm_compute.
  - eapply represents_frame; [|exact Hrep]. exact Hframe.
Defined.

(** ** Depth bounds of the unwrapping routines (C9) *)

(** Through [n] groupings [modifier] is read [n] frames deeper. *)
Lemma getattr_modifier_wrapped frames n c :
  (n ≤ frames)%nat →
  getattr_modifier frames (wrapped n c) = getattr_modifier (frames - n) c.
Proof.
  revert frames. induction n as [|n IH]; intros frames Hle; simpl.
  - by rewrite Nat.sub_0_r.
  - destruct frames as [|frames]; [lia|]. rewrite IH by lia. done.
Qed.

Lemma getattr_modifier_wrapped_deep frames n c :
  (frames < n)%nat → getattr_modifier frames (wrapped n c) = Raise RecursionError.
Proof.
  revert frames. induction n as [|n IH]; intros frames Hlt; [lia|]. simpl.
  destruct frames as [|frames]; [done|]. apply IH. lia.
Qed.

Section Overflow.
Context `{Environment}.




Lemma endless_is_Some s x k : endless s x k → is_Some (s !! x).
Proof. destruct k; [done|]. intros (m & e & -> & _). eauto. Qed.

Lemma clone_copy_of s0 x :
  is_Some (s0 !! x) →
  copy_of s0 (Graph._clone s0 x).1 (Graph._clone s0 x).2 x.
Proof.
  intros [node Hx]. unfold Graph._clone. rewrite Hx. simpl.
  pose proof (is_fresh (dom s0)) as Hfresh.
  split; [|split].
  - intros a Ha. rewrite lookup_insert_ne; [done|]. intros <-. done.
  - done.
  - by rewrite lookup_insert_eq.
Qed.

Lemma copy_internals_copy_of s0 s x o sh e :
  copy_of s0 s x o →
  s0 !! o = Some (Graph.mk sh (Some e)) →
  is_Some (s0 !! e) →
  ∃ y, Graph.getattr_element (Graph._copy_internals s x) x = Some y
       ∧ copy_of s0 (Graph._copy_internals s x) y e.
Proof.
  intros (Horig & Hx & Hcopy) Ho [node He].
  rewrite Ho in Hcopy. unfold Graph._copy_internals, Graph._clone.
  rewrite Hcopy.
  assert (s !! e = Some node) as Hse.
  { rewrite Horig; [done|]. apply elem_of_dom. eauto. }
  rewrite Hse.
  set (y := fresh (dom s)).
  assert (y ∉ dom s) as Hy by apply is_fresh.
  assert (x ∈ dom s) as Hxs by (apply elem_of_dom; eauto).
  assert (∀ a, a ∈ dom s0 → a ∈ dom s) as Hsub.
  { intros a Ha. apply elem_of_dom. rewrite Horig by done. by apply elem_of_dom. }
  exists y. split; [|split; [|split]].
  - unfold Graph.getattr_element. by rewrite lookup_insert_eq.
  - intros a Ha. rewrite !lookup_insert_ne; [by apply Horig| |].
    + intros <-. apply Hy. by apply Hsub.
    + intros <-. done.
  - intros Hy0. apply Hy. by apply Hsub.
  - rewrite lookup_insert_ne by (intros <-; done).
    by rewrite lookup_insert_eq.
Qed.

(** An object that is no grouping answers [modifier] by itself. *)
Lemma graph_getattr_modifier_plain frames s x sh e :
  s !! x = Some (Graph.mk sh e) → is_grouping sh = false →
  Graph.getattr_modifier frames s x = Ok (own_modifier sh).
Proof.
  intros Hx Hsh. rewrite graph_getattr_modifier_unfold, Hx. by destruct sh.
Qed.

Lemma graph_reverse_loop_overflows s0 k s copied x o :
  copy_of s0 s x o → endless s0 o k →
  (Graph._reverse_order_direction_loop k s copied x).2 = Raise WrappingOverflow.
Proof.
  revert s x o. induction k as [|k IH]; intros s x o Hcopy Hendless; [done|].
  destruct Hendless as (sh & e & Ho & Hplain & Hm & Hrest).
  pose proof Hcopy as (_ & _ & Hx). rewrite Ho in Hx.
  cbn [Graph._reverse_order_direction_loop].
  rewrite (graph_getattr_modifier_plain _ _ _ _ _ Hx Hplain).
  rewrite (not_order_modifier_not_direction _ Hm).
  unfold Graph.getattr_element at 1. rewrite Hx. cbn [mbind option_bind Graph.element].
  destruct (copy_internals_copy_of _ _ _ _ _ _ Hcopy Ho (endless_is_Some _ _ _ Hrest))
    as (y & -> & Hcopy').
  by eapply IH.
Qed.

Lemma graph_remove_loop_overflows s0 k s copied parent x o :
  copy_of s0 s x o → endless s0 o k →
  (Graph._remove_order_direction_loop k s copied parent x).2 = Raise WrappingOverflow.
Proof.
  revert s parent x o. induction k as [|k IH]; intros s parent x o Hcopy Hendless; [done|].
  destruct Hendless as (sh & e & Ho & Hplain & Hm & Hrest).
  pose proof Hcopy as (_ & _ & Hx). rewrite Ho in Hx.
  cbn [Graph._remove_order_direction_loop].
  rewrite (graph_getattr_modifier_plain _ _ _ _ _ Hx Hplain).
  rewrite Hm.
  unfold Graph.getattr_element at 1. rewrite Hx. cbn [mbind option_bind Graph.element].
  destruct (copy_internals_copy_of _ _ _ _ _ _ Hcopy Ho (endless_is_Some _ _ _ Hrest))
    as (y & -> & Hcopy').
  by eapply IH.
Qed.

(** X5. On a chain of [element] references that passes [_WRAPPING_DEPTH]
    objects, as one that runs into itself does, none of them a grouping
    and none carrying an order modifier, the two loops stop with the
    wrapping-overflow error, having copied one object per iteration. *)
Lemma reverse_and_remove_overflow_on_endless_chains s x :
  endless s x _WRAPPING_DEPTH →
  (Graph._reverse_order_direction s x).2 = Raise WrappingOverflow
  ∧ (Graph._remove_order_direction s x).2 = Raise WrappingOverflow.
Proof.
  intros Hendless.
  pose proof (clone_copy_of s x (endless_is_Some _ _ _ Hendless)) as Hcopy.
  unfold Graph._reverse_order_direction, Graph._remove_order_direction.
  destruct (Graph._clone s x) as [s1 copied]. simpl in Hcopy.
  split.
  - by eapply graph_reverse_loop_overflows.
  - by eapply graph_remove_loop_overflows.
Qed.
End Overflow.

Lemma graph_get_order_direction_recursion s k x :
  endless s x k → Graph._get_order_direction k s (Some x) = Raise RecursionError.
Proof.
  revert x. induction k as [|k IH]; intros x Hendless; [done|].
  destruct Hendless as (sh & e & Hx & Hplain & Hm & Hrest).
  cbn [Graph._get_order_direction].
  rewrite (graph_getattr_modifier_plain _ _ _ _ _ Hx Hplain). cbn [bind].
  unfold Graph.getattr_element. rewrite Hx.
  cbn [mbind option_bind Graph.element].
  rewrite (not_order_modifier_not_direction _ Hm). by apply IH.
Qed.

Lemma self_loop_endless k : endless Graph.self_loop 0 k.
Proof.
  induction k as [|k IH]; [by eexists|].
  exists (Label "l" (column "c")), 0%nat. done.
Qed.

Lemma get_order_direction_wrapped_asc n c :
  _get_order_direction (S n) (Some (wrapped n (asc c))) = Ok (Some asc_op).
Proof.
  cbn [_get_order_direction]. rewrite getattr_modifier_wrapped by done.
  by rewrite Nat.sub_diag.
Qed.

(** C9 at [_get_order_direction]. It recurses once per wrapper with no
    bound of its own: with [frames] stack frames left, a chain of [frames]
    groupings, and a label that is its own element, end in RecursionError;
    it never raises the wrapping-overflow error; and given frames enough
    it reads a direction at any depth, however far beyond
    [_WRAPPING_DEPTH]. *)
Theorem get_order_direction_has_no_depth_bound :
  (∀ frames c, _get_order_direction frames (Some (wrapped frames c)) = Raise RecursionError)
  ∧ (∀ frames, Graph._get_order_direction frames Graph.self_loop (Some 0%nat)
               = Raise RecursionError)
  ∧ (∀ frames x, raises is_wrapping_overflow (_get_order_direction frames x) = false)
  ∧ (∀ n c, _get_order_direction (S n) (Some (wrapped n (asc c))) = Ok (Some asc_op)).
Proof.
  split; [|split; [|split]].
  - intros [|frames] c; [done|]. cbn [_get_order_direction].
    by rewrite getattr_modifier_wrapped_deep by lia.
  - intros frames. apply graph_get_order_direction_recursion, self_loop_endless.
  - intros frames. induction frames as [|n IH]; intros x; simpl; [done|].
    destruct x as [x|]; [|done].
    apply raises_bind; [by apply getattr_modifier_no_raise|].
    intros m. destruct (is_direction _); [done|]. apply IH.
  - apply get_order_direction_wrapped_asc.
Qed.

(** * Further properties *)

(** ** Lists, dictionaries and comprehensions *)

Lemma dict_get_app {K V} `{EqDecision K} (d d' : dict K V) (k : K) :
  dict_get (d ++ d') k = match dict_get d k with Some v => Some v | None => dict_get d' k end.
Proof.
  induction d as [|[k' v'] d IH]; simpl; [done|].
  destruct (decide (k' = k)); done.
Qed.

Lemma dict_get_reverse {K V} `{EqDecision K} (d : dict K V) (k : K) :
  NoDup (keys d) → dict_get (reverse d) k = dict_get d k.
Proof.
  unfold keys. induction d as [|[k' v'] d IH]; simpl; [done|].
  intros [Hk' Hd]%NoDup_cons. rewrite reverse_cons, dict_get_app, IH by done. simpl.
  destruct (decide (k' = k)) as [->|]; [|by destruct (dict_get d k)].
  by rewrite dict_get_None.
Qed.

Lemma comprehension_lookup {A B} (f : A → Result B) xs ys i x :
  comprehension f xs = Ok ys → xs !! i = Some x → ∃ y, f x = Ok y ∧ ys !! i = Some y.
Proof.
  revert ys i. induction xs as [|x' xs IH]; intros ys i Hys Hx; [done|].
  apply comprehension_cons_inv in Hys as (y & ys' & Hy & Hys' & ->).
  destruct i as [|i]; simplify_eq/=; eauto.
Qed.

Lemma comprehension_length {A B} (f : A → Result B) xs ys :
  comprehension f xs = Ok ys → length ys = length xs.
Proof.
  revert ys. induction xs as [|x xs IH]; intros ys Hys.
  - by injection Hys as <-.
  - apply comprehension_cons_inv in Hys as (y & ys' & Hy & Hys' & ->).
    simpl. f_equal. by apply IH.
Qed.

Lemma dict_get_zip {K V} `{EqDecision K} (ks : list K) (vs : list V) i k :
  NoDup ks → ks !! i = Some k → dict_get (zip ks vs) k = vs !! i.
Proof.
  revert vs i. induction ks as [|k' ks IH]; intros vs i Hnodup Hi; [done|].
  apply NoDup_cons in Hnodup as [Hk' Hnodup].
  destruct vs as [|v vs]; simpl.
  { by destruct i. }
  destruct i as [|i]; simplify_eq/=.
  - by rewrite decide_True.
  - rewrite decide_False; [by apply IH|].
    intros ->. apply Hk'. by eapply list_elem_of_lookup_2.
Qed.

Lemma comprehension_Forall {A B} (f : A → Result B) (P : B → Prop) xs ys :
  (∀ x y, f x = Ok y → P y) → comprehension f xs = Ok ys → Forall P ys.
Proof.
  intros Hf. revert ys. induction xs as [|x xs IH]; intros ys Hys.
  - injection Hys as <-. constructor.
  - apply comprehension_cons_inv in Hys as (y & ys' & Hy & Hys' & ->).
    constructor; eauto.
Qed.



Lemma comprehension_Forall2 {A B} (f : A → Result B) xs ys :
  comprehension f xs = Ok ys → Forall2 (λ x y, f x = Ok y) xs ys.
Proof.
  revert ys. induction xs as [|x xs IH]; intros ys Hys.
  - injection Hys as <-. constructor.
  - apply comprehension_cons_inv in Hys as (y & ys' & Hy & Hys' & ->).
    constructor; eauto.
Qed.

(** ** Removing order modifiers, and the names of a wrapper *)

Lemma has_order_modifier_leaf x :
  getattr_element x = None → has_order_modifier x = is_order_modifier (modifier_of x).
Proof. destruct x; simpl; try done; by rewrite orb_false_r. Qed.

Lemma has_order_modifier_step x e :
  getattr_element x = Some e →
  has_order_modifier x = is_order_modifier (modifier_of x) || has_order_modifier e.
Proof. destruct x; simpl; intros [= <-]; done. Qed.

Section Removal.
Context `{Environment}.

Lemma remove_loop_mono n x el :
  _remove_order_direction_loop n [] x = Ok el →
  _remove_order_direction_loop (S n) [] x = Ok el.
Proof.
  revert x el. induction n as [|n IH]; intros x el; [done|].
  rewrite (remove_loop_step (S n)), (remove_loop_step n).
  destruct (getattr_modifier recursion_limit x) as [m|]; [|done]. cbn [bind].
  destruct (is_order_modifier _), (getattr_element x) as [e|]; try done.
  - apply IH.
  - destruct (_remove_order_direction_loop n [] e) as [e'|] eqn:He; [|done].
    by rewrite (IH _ _ He).
Qed.

(** Removing below an object that answers [modifier] with no order
    modifier changes nothing in what it answers. *)
Lemma remove_loop_modifier n x el :
  _remove_order_direction_loop n [] x = Ok el →
  is_order_modifier (modifier_of x) = false →
  ∀ f, getattr_modifier f el = getattr_modifier f x.
Proof.
  revert x el. induction n as [|n IH]; intros x el; [done|].
  rewrite remove_loop_step.
  destruct (getattr_modifier recursion_limit x) as [m|] eqn:Hm; [|done]. cbn [bind].
  rewrite (getattr_modifier_Ok _ _ _ Hm). intros Hel Hmod. rewrite Hmod in Hel.
  destruct (getattr_element x) as [e|] eqn:He; [|by injection Hel as <-].
  destruct (_remove_order_direction_loop n [] e) as [e'|] eqn:Hrem; [|done].
  injection Hel as <-. intros f.
  destruct x as [| | | |x [o|]|]; try done.
  simpl in *. injection He as ->. destruct f; [done|]. by apply (IH e).
Qed.

Lemma remove_loop_spec n x el :
  _remove_order_direction_loop n [] x = Ok el →
  has_order_modifier el = false
  ∧ _remove_order_direction_loop n [] el = Ok el
  ∧ (has_order_modifier x = false → el = x).
Proof.
  revert x el. induction n as [|n IH]; intros x el Hel; [done|].
  pose proof Hel as Hstep. rewrite remove_loop_step in Hstep.
  destruct (getattr_modifier recursion_limit x) as [m|] eqn:Hm; [|done]. cbn [bind] in Hstep.
  pose proof (getattr_modifier_Ok _ _ _ Hm) as ->.
  destruct (is_order_modifier (modifier_of x)) eqn:Hmod.
  - destruct (getattr_element x) as [e|] eqn:He; [|done].
    destruct (IH _ _ Hstep) as (Hnone & Hagain & Hsame).
    split; [done|]. split; [by apply remove_loop_mono|].
    by rewrite (has_order_modifier_step _ _ He), Hmod.
  - pose proof (remove_loop_modifier _ _ _ Hel Hmod) as Hanswer.
    assert (modifier_of el = modifier_of x) as Hof.
    { symmetry. apply (getattr_modifier_Ok recursion_limit). by rewrite Hanswer. }
    destruct (getattr_element x) as [e|] eqn:He.
    + destruct (_remove_order_direction_loop n [] e) as [e'|] eqn:Hrem; [|done].
      injection Hstep as <-. destruct (IH _ _ Hrem) as (Hnone & Hagain & Hsame).
      pose proof (getattr_element_set_element _ _ e' He) as He'.
      split; [|split].
      * by rewrite (has_order_modifier_step _ _ He'), Hof, Hmod.
      * rewrite remove_loop_step, Hanswer, Hm. cbn [bind].
        rewrite Hmod, He', Hagain. simpl. by rewrite set_element_twice.
      * rewrite (has_order_modifier_step _ _ He), Hmod. simpl.
        intros ->%Hsame. by apply set_element_getattr.
    + injection Hstep as <-. split; [|split; [|done]].
      * by rewrite (has_order_modifier_leaf _ He).
      * rewrite remove_loop_step, Hm. cbn [bind]. by rewrite Hmod, He.
Qed.

(** X6. What [_remove_order_direction] returns answers [modifier] with no
    order modifier (ASC, DESC, NULLS FIRST, NULLS LAST) anywhere on its
    chain of elements; removing again returns it unchanged; an expression
    that had none comes back as it was; and [_get_order_direction] finds
    no direction in the result: it returns None, unless the stack runs
    out first. *)
Theorem removing_order_modifiers_is_idempotent (column_element el : ColumnElement) :
  _remove_order_direction column_element = Ok el →
  has_order_modifier el = false
  ∧ _remove_order_direction el = Ok el
  ∧ (has_order_modifier column_element = false → el = column_element)
  ∧ ∀ frames, _get_order_direction frames (Some el) = Ok None
              ∨ _get_order_direction frames (Some el) = Raise RecursionError.
Proof.
  unfold _remove_order_direction. intros Hel.
  destruct (remove_loop_spec _ _ _ Hel) as (Hnone & Hagain & Hsame).
  split; [done|]. split; [done|]. split; [done|].
  clear Hel Hagain Hsame. intros frames. revert el Hnone.
  induction frames as [|n IH]; intros el Hnone; [by right|]. simpl.
  destruct (getattr_modifier n el) as [m|e] eqn:Hm; cbn [bind].
  2:{ right. by rewrite (getattr_modifier_raises _ _ _ Hm). }
  pose proof (getattr_modifier_Ok _ _ _ Hm) as ->.
  destruct (getattr_element el) as [e|] eqn:He.
  - rewrite (has_order_modifier_step _ _ He) in Hnone.
    apply orb_false_iff in Hnone as [Hmod Hnone].
    rewrite (not_order_modifier_not_direction _ Hmod).
    apply IH, Hnone.
  - rewrite (has_order_modifier_leaf _ He) in Hnone.
    rewrite (not_order_modifier_not_direction _ Hnone). destruct n; [by right|by left].
Qed.
End Removal.

Lemma split_dot_once_spec s :
  match split_dot_once s with
  | Some (a, b) => s = a +:+ "." +:+ b ∧ has_dot a = false
  | None => has_dot s = false
  end.
Proof.
  induction s as [|c s IH]; simpl; [done|].
  destruct (decide (c = "."%char)) as [->|Hc]; [done|].
  rewrite (bool_decide_eq_false_2 _ Hc). simpl.
  destruct (split_dot_once s) as [[a b]|]; [|done].
  destruct IH as [-> Ha]. simpl. by rewrite (bool_decide_eq_false_2 _ Hc).
Qed.

Section Wrappers.
Context `{Environment}.

(** X7. In a wrapper that [OrderByColumnWrapper.__init__] built,
    [full_name] is the rendering of [element], which carries no order
    modifier; with a [table_name], [full_name] is [table_name], a dot and
    [name], and [table_name] holds no dot; without one, [name] is
    [full_name] and holds no dot. *)
Theorem wrapper_names_split_the_full_name
    (arg : string + ColumnElement) (w : OrderByColumnWrapper.t) :
  OrderByColumnWrapper.__init__ arg = Ok w →
  ∃ el, OrderByColumnWrapper.element w = Ok el
        ∧ has_order_modifier el = false
        ∧ OrderByColumnWrapper.full_name w = str el
        ∧ match OrderByColumnWrapper.table_name w with
          | Some table_name =>
              OrderByColumnWrapper.full_name w
              = table_name +:+ "." +:+ OrderByColumnWrapper.name w
              ∧ has_dot table_name = false
          | None =>
              OrderByColumnWrapper.name w = OrderByColumnWrapper.full_name w
              ∧ has_dot (OrderByColumnWrapper.full_name w) = false
          end.
Proof.
  intros Hinit. destruct (wrapper_init_spec _ _ Hinit) as (d & el & Hd & Hel & Hw).
  exists el. split; [exact Hel|].
  split. { unfold _remove_order_direction in Hel. apply remove_loop_spec in Hel. tauto. }
  rewrite Hw. unfold names_of.
  pose proof (split_dot_once_spec (str el)) as Hsplit.
  destruct (split_dot_once (str el)) as [[a b]|]; simpl; tauto.
Qed.

(** ** Mapping order columns onto the selected columns *)

(** A derived key is a direct or an attribute column, for the wrapper and
    the index given. *)
Lemma derive_order_key_spec w desc index k :
  derive_order_key w desc index = Ok (Some k) →
  k = DirectColumn w index ∨ ∃ attr, k = AttributeColumn w index attr.
Proof.
  unfold derive_order_key, bind. intros Hk.
  repeat case_match; simplify_eq; eauto.
Qed.

Lemma find_order_key_from_spec w descs index n k n' :
  find_order_key_from w descs index n = Ok (k, n') →
  (n' = n
   ∧ ∃ i, (index ≤ i < index + length descs)%nat
          ∧ (k = DirectColumn w i ∨ ∃ attr, k = AttributeColumn w i attr))
  ∨ (n' = S n
     ∧ (∀ i desc, descs !! i = Some desc →
                  derive_order_key w desc (index + i) = Ok None)
     ∧ ∃ cv, OrderByColumnWrapper.comparable_value w = Ok cv
             ∧ let name := ORDER_COL_PREFIX +:+ decimal (S n) in
               k = AppendedColumn w name (Label name cv)).
Proof.
  revert index. induction descs as [|desc descs IH]; intros index; simpl.
  - unfold AppendedColumn_init.
    destruct (OrderByColumnWrapper.comparable_value w) as [cv|]; [|done]. cbn [bind].
    intros [= <- <-]. right. split; [done|]. split; [done|]. eauto.
  - destruct (derive_order_key w desc index) as [[key|]|] eqn:Hkey; cbn [bind]; [| |done].
    + intros [= <- <-]. left. split; [done|]. exists index. split; [lia|].
      by apply derive_order_key_spec in Hkey.
    + intros Hrest. destruct (IH _ Hrest) as [(-> & i & Hi & Hk)|(-> & Hnone & Hk)].
      * left. split; [done|]. exists i. split; [lia|done].
      * right. split; [done|]. split; [|done].
        intros [|i] desc'; simpl.
        -- intros [= <-]. by rewrite Nat.add_0_r.
        -- intros Hi. rewrite <- Nat.add_succ_comm. by apply Hnone.
Qed.

(** X8. [find_order_key] always answers for the wrapper it was given:
    either a direct or attribute column at the index of one of the column
    descriptions, with the counter of appended columns left alone; or,
    when no description derives a key, an appended column whose name is
    the prefix followed by the incremented counter and whose extra column
    is the comparable value under that name as label. *)
Theorem find_order_key_finds_or_appends
    (w : OrderByColumnWrapper.t) (column_descriptions : list (ColumnDescription OrmDescription))
    (n : nat) (k : MappedOrderColumn) (n' : nat) :
  find_order_key w column_descriptions n = Ok (k, n') →
  (n' = n
   ∧ ∃ i, (i < length column_descriptions)%nat
          ∧ (k = DirectColumn w i ∨ ∃ attr, k = AttributeColumn w i attr))
  ∨ (n' = S n
     ∧ (∀ i desc, column_descriptions !! i = Some desc →
                  derive_order_key w desc i = Ok None)
     ∧ ∃ cv, OrderByColumnWrapper.comparable_value w = Ok cv
             ∧ let name := ORDER_COL_PREFIX +:+ decimal (S n) in
               k = AppendedColumn w name (Label name cv)).
Proof.
  intros Hfind. apply find_order_key_from_spec in Hfind.
  destruct Hfind as [(-> & i & Hi & Hk)|Happended]; [|by right].
  left. split; [done|]. exists i. split; [lia|done].
Qed.

Lemma find_order_key_from_core w cs index n cv :
  OrderByColumnWrapper.comparable_value w = Ok cv →
  find_order_key_from w (ColumnElementDesc <$> cs) index n
  = match list_find (λ c, c = cv) cs with
    | Some (i, _) => Ok (DirectColumn w (index + i), n)
    | None => AppendedColumn_init w n
    end.
Proof.
  intros Hcv. revert index. induction cs as [|c cs IH]; intros index; [done|].
  cbn [fmap list_fmap find_order_key_from derive_order_key list_find].
  rewrite Hcv. cbn [bind].
  destruct (decide (c = cv)) as [->|Hne]; cbn [bind].
  - by rewrite Nat.add_0_r.
  - rewrite IH. destruct (list_find _ cs) as [[i c']|]; simpl; [|done].
    do 3 f_equal. lia.
Qed.

(** X9. For a select of plain column expressions, [find_order_key]
    returns the direct column at the first position whose expression is
    the wrapper's comparable value, and an appended column when there is
    no such position. *)
Theorem find_order_key_among_core_columns
    (w : OrderByColumnWrapper.t) (columns : list ColumnElement) (n : nat)
    (cv : ColumnElement) :
  OrderByColumnWrapper.comparable_value w = Ok cv →
  find_order_key w (ColumnElementDesc <$> columns) n
  = match list_find (λ c, c = cv) columns with
    | Some (i, _) => Ok (DirectColumn w i, n)
    | None =>
        let name := ORDER_COL_PREFIX +:+ decimal (S n) in
        Ok (AppendedColumn w name (Label name cv), S n)
    end.
Proof.
  intros Hcv. unfold find_order_key. rewrite (find_order_key_from_core _ _ _ _ _ Hcv).
  destruct (list_find _ _) as [[i c]|]; [done|].
  unfold AppendedColumn_init. by rewrite Hcv.
Qed.

Lemma decimal_inj n m : decimal n = decimal m → n = m.
Proof.
  unfold decimal. intros Heq.
  assert (Some (Nat.to_uint n) = Some (Nat.to_uint m)) as [= Huint]
    by (rewrite <- !NilEmpty.usu; by rewrite Heq).
  rewrite <- (Unsigned.of_to n), <- (Unsigned.of_to m). by rewrite Huint.
Qed.

Lemma mapped_order_by_columns_names cols descs n ks n' :
  KeySetPaginator.mapped_order_by_columns cols descs n = Ok (ks, n') →
  (n ≤ n')%nat
  ∧ length ks = length cols
  ∧ appended_names ks = (λ j, ORDER_COL_PREFIX +:+ decimal j) <$> seq (S n) (n' - n).
Proof.
  revert n ks n'. induction cols as [|c cols IH]; intros n ks n'; simpl.
  - intros [= <- <-]. by rewrite Nat.sub_diag.
  - destruct (find_order_key c descs n) as [[k n1]|] eqn:Hk; [|done]. cbn [bind].
    destruct (KeySetPaginator.mapped_order_by_columns cols descs n1) as [[ks' n2]|]
      eqn:Hks; [|done].
    cbn [bind]. intros [= <- <-].
    destruct (IH _ _ _ Hks) as (Hle & Hlen & Hnames).
    apply find_order_key_from_spec in Hk.
    destruct Hk as [(-> & i & _ & Hk)|(-> & _ & cv & _ & ->)].
    + split; [done|]. split; [simpl; by rewrite Hlen|].
      destruct Hk as [->|[attr ->]]; exact Hnames.
    + split; [lia|]. split; [simpl; by rewrite Hlen|]. cbn zeta.
      change (appended_names (AppendedColumn ?w ?nm ?col :: ks'))
        with (nm :: appended_names ks').
      rewrite Hnames. replace (n2 - n)%nat with (S (n2 - S n)) by lia. done.
Qed.

(** X10. Mapping the order columns of one paginator yields one mapped
    column per order column, and the appended ones are named by the
    consecutive counter values after the one it started from, in order:
    no two of them share a name. *)
Theorem appended_columns_get_distinct_names
    (order_by_columns : list OrderByColumnWrapper.t)
    (column_descriptors : list (ColumnDescription OrmDescription))
    (n : nat) (mapped : list MappedOrderColumn) (n' : nat) :
  KeySetPaginator.mapped_order_by_columns order_by_columns column_descriptors n
  = Ok (mapped, n') →
  length mapped = length order_by_columns
  ∧ appended_names mapped
    = (λ j, ORDER_COL_PREFIX +:+ decimal j) <$> seq (S n) (n' - n)
  ∧ NoDup (appended_names mapped).
Proof.
  intros Hmapped.
  destruct (mapped_order_by_columns_names _ _ _ _ _ Hmapped) as (Hle & Hlen & Hnames).
  split; [done|]. split; [done|].
  rewrite Hnames. apply NoDup_fmap_2; [|apply NoDup_seq].
  intros i j Hij. by apply String.app_inj, decimal_inj in Hij.
Qed.

(** X11. [MappedOrderColumn.reversed] on a column whose wrapper was built
    by [OrderByColumnWrapper.__init__] succeeds, and so does [reversed] on
    its result. Each returns the column it was given with another
    wrapper: first one for the same expression under the same names with
    the other direction, then one equivalent to the original wrapper. An
    appended column keeps its extra column; its ORDER BY clause turns
    from the extra column to its [desc()] or back, and is the original
    clause again after the second [reversed]. *)
Theorem mapped_column_reversed_twice
    (arg : string + ColumnElement) (column : MappedOrderColumn) :
  OrderByColumnWrapper.__init__ arg = Ok (order_by_wrapper column) →
  ∃ reversed restored,
    MappedOrderColumn_reversed column = Ok reversed
    ∧ MappedOrderColumn_reversed reversed = Ok restored
    ∧ reversed = with_wrapper column (order_by_wrapper reversed)
    ∧ restored = with_wrapper column (order_by_wrapper restored)
    ∧ opposite_key (order_by_wrapper column) (order_by_wrapper reversed)
    ∧ same_key (order_by_wrapper column) (order_by_wrapper restored)
    ∧ ∀ w name extra_column,
        column = AppendedColumn w name extra_column →
        ∃ ascending : bool,
          order_by_clause column
          = Ok (if ascending then extra_column else desc extra_column)
          ∧ order_by_clause reversed
            = Ok (if ascending then desc extra_column else extra_column)
          ∧ order_by_clause restored = order_by_clause column.
Proof.
  intros Hinit.
  destruct (reversed_twice_spec _ _ Hinit)
    as (w' & w'' & Hw' & Hw'' & Hopposite & Hsame & _).
  exists (with_wrapper column w'), (with_wrapper column w'').
  assert (∀ w, order_by_wrapper (with_wrapper column w) = w) as Hwrapper
    by (intros w; by destruct column).
  rewrite !Hwrapper.
  split. { unfold MappedOrderColumn_reversed. rewrite Hw'. by destruct column. }
  split. { unfold MappedOrderColumn_reversed. rewrite Hwrapper, Hw''. by destruct column. }
  split; [done|]. split; [done|]. split; [done|]. split; [done|].
  intros w name col ->. cbn [order_by_clause order_by_wrapper with_wrapper] in *.
  destruct Hopposite as (_ & _ & a & Ha & Ha'). destruct Hsame as (_ & _ & a' & Hb & Hb').
  exists a. rewrite Ha, Ha', Hb'. cbn [bind].
  rewrite Ha in Hb. injection Hb as <-. by destruct a.
Qed.

(** ** The paginator's statement *)

Lemma flatten_clauses (cs : list ColumnElement) :
  _flatten_order_by_clauses (ClauseList (Clause <$> cs)) = cs.
Proof.
  cbn [_flatten_order_by_clauses]. induction cs as [|c cs IH]; [done|].
  cbn [fmap list_fmap _flatten_order_by_clauses app]. f_equal. exact IH.
Qed.

(** A wrapper is rebuilt from its own expression. *)
Lemma wrapper_reparse arg w :
  OrderByColumnWrapper.__init__ arg = Ok w →
  OrderByColumnWrapper.__init__ (inr (OrderByColumnWrapper.column_name_or_obj w)) = Ok w.
Proof.
  intros Hinit. destruct (wrapper_init_spec _ _ Hinit) as (d & el & Hd & Hel & Hw).
  rewrite (wrapper_init_of_direction _ _ Hd), Hel. simpl. by rewrite <- Hw.
Qed.

Lemma paginator_init_inv query page_size dialect bookmark n paginator n' :
  KeySetPaginator.__init__ query page_size dialect bookmark n = Ok (paginator, n') →
  ∃ columns clauses,
    paginator = KeySetPaginator.mk page_size query (default Bookmark.empty bookmark)
                  columns clauses dialect
    ∧ Forall built columns
    ∧ KeySetPaginator._scaffold_order_by_clauses query columns n = Ok (clauses, n').
Proof.
  unfold KeySetPaginator.__init__.
  destruct (parse_order_by_clause _) as [parsed|] eqn:Hparsed; [|done]. cbn [bind].
  destruct (if KeySetPaginator._should_reverse_order_by_clause _ then _ else _)
    as [columns|] eqn:Hcolumns; [|done]. cbn [bind].
  destruct (KeySetPaginator._scaffold_order_by_clauses _ _ _) as [[clauses n1]|] eqn:Hs;
    [|done].
  cbn [bind]. intros [= <- <-]. exists columns, clauses. split; [done|]. split; [|done].
  destruct (KeySetPaginator._should_reverse_order_by_clause _).
  - eapply comprehension_Forall; [|exact Hcolumns].
    intros w w'. unfold OrderByColumnWrapper.reversed.
    destruct (_reverse_order_direction _) as [new_uo|]; [|done]. cbn [bind].
    intros Hw'. by exists (inr new_uo).
  - injection Hcolumns as <-. eapply comprehension_Forall; [|exact Hparsed].
    intros c w Hw. by exists (inr c).
Qed.

Lemma mapped_without_appended cols descs n mapped :
  KeySetPaginator.mapped_order_by_columns cols descs n = Ok (mapped, n) →
  comprehension order_by_clause mapped
  = Ok (OrderByColumnWrapper.column_name_or_obj <$> cols).
Proof.
  revert mapped. induction cols as [|c cols IH]; intros mapped; simpl.
  - by intros [= <-].
  - destruct (find_order_key c descs n) as [[k n1]|] eqn:Hk; [|done]. cbn [bind].
    destruct (KeySetPaginator.mapped_order_by_columns cols descs n1) as [[ks n2]|]
      eqn:Hks; [|done].
    cbn [bind]. intros [= <- ->].
    pose proof (mapped_order_by_columns_names _ _ _ _ _ Hks) as (Hle & _).
    apply find_order_key_from_spec in Hk.
    destruct Hk as [(-> & i & _ & Hk)|(-> & _)]; [|lia].
    cbn [comprehension]. rewrite (IH _ Hks).
    destruct Hk as [->|[attr ->]]; done.
Qed.

(** X12. When constructing the paginator appended no column (the counter
    is unchanged), its ORDER BY clauses are the wrappers' own expressions,
    and parsing the ORDER BY of the statement it emits gives back exactly
    its order columns. *)
Theorem emitted_ordering_parses_to_the_same_keys
    (query : Select.t OrmDescription) (page_size : Z) (dialect : option string)
    (bookmark : option Bookmark.t) (n : nat) (paginator : KeySetPaginator.t)
    (calls : list BuilderCall) (statement : Select.t OrmDescription) :
  KeySetPaginator.__init__ query page_size dialect bookmark n = Ok (paginator, n) →
  KeySetPaginator.get_modified_sql_statement paginator = (calls, Ok statement) →
  KeySetPaginator._order_by_clauses paginator
  = OrderByColumnWrapper.column_name_or_obj <$> KeySetPaginator._order_by_columns paginator
  ∧ parse_order_by_clause statement = Ok (KeySetPaginator._order_by_columns paginator).
Proof.
  intros Hinit Hstatement.
  destruct (paginator_init_inv _ _ _ _ _ _ _ Hinit) as (columns & clauses & -> & Hbuilt & Hs).
  cbn [KeySetPaginator._order_by_clauses KeySetPaginator._order_by_columns].
  assert (clauses = OrderByColumnWrapper.column_name_or_obj <$> columns) as ->.
  { revert Hs. unfold KeySetPaginator._scaffold_order_by_clauses. cbn zeta.
    destruct (KeySetPaginator.mapped_order_by_columns _ _ _) as [[mapped n1]|] eqn:Hm;
      [|done].
    cbn [bind].
    destruct (comprehension order_by_clause mapped) as [cs|] eqn:Hcs; [|done].
    cbn [bind]. intros [= <- ->].
    rewrite (mapped_without_appended _ _ _ _ Hm) in Hcs. by injection Hcs. }
  split; [done|].
  assert (Select._order_by_clauses statement
          = Clause <$> (OrderByColumnWrapper.column_name_or_obj <$> columns)) as Horder.
  { revert Hstatement. unfold KeySetPaginator.get_modified_sql_statement.
    destruct (KeySetPaginator._apply_filter_condition_if_required _) as [cs [q0|]];
      [|done].
    simpl. by intros [= _ <-]. }
  unfold parse_order_by_clause, get_order_by_clauses. rewrite Horder, flatten_clauses.
  clear -Hbuilt. induction Hbuilt as [|w ws [arg Hw] Hws IH]; [done|].
  cbn [fmap list_fmap comprehension]. rewrite (wrapper_reparse _ _ Hw).
  cbn [bind]. fold (OrderByColumnWrapper.column_name_or_obj <$> ws). by rewrite IH.
Qed.

Lemma built_pair_for_comparison w value dialect :
  built w → binds dialect w value →
  ∃ pair, OrderByColumnWrapper.pair_for_comparison w value dialect = Ok pair.
Proof.
  intros [arg Hinit] Hbinds.
  destruct (wrapper_init_spec _ _ Hinit) as (d & el & Hd & Hel & Hw).
  unfold binds in Hbinds. revert Hbinds.
  unfold OrderByColumnWrapper.pair_for_comparison, OrderByColumnWrapper.comparable_value,
    OrderByColumnWrapper.comparable_value_of, OrderByColumnWrapper.element_of,
    OrderByColumnWrapper.is_ascending.
  rewrite Hel, Hd. cbn [bind]. intros Hbinds.
  destruct (Hbinds _ eq_refl) as [v ->]. cbn [bind]. destruct (bool_decide _); eauto.
Qed.

End Wrappers.

Section Backward.
Context `{Environment}.

(** X30. Constructing the paginator parses the statement's ORDER BY. With
    a bookmark whose direction is backward, each order column of the
    paginator is the reversed one of the parsed column: same name, same
    element, opposite direction. With any other bookmark, or none, its
    order columns are the parsed ones. *)
Theorem backward_bookmark_reverses_every_key
    (query : Select.t OrmDescription) (page_size : Z) (dialect : option string)
    (bookmark : option Bookmark.t) (n : nat) (paginator : KeySetPaginator.t) (n' : nat) :
  KeySetPaginator.__init__ query page_size dialect bookmark n = Ok (paginator, n') →
  ∃ parsed,
    parse_order_by_clause query = Ok parsed
    ∧ if Bookmark.is_backward (default Bookmark.empty bookmark)
      then Forall2
             (λ w w',
                OrderByColumnWrapper.reversed w = Ok w'
                ∧ OrderByColumnWrapper.name w' = OrderByColumnWrapper.name w
                ∧ OrderByColumnWrapper.element w' = OrderByColumnWrapper.element w
                ∧ ∃ a, OrderByColumnWrapper.is_ascending w = Ok a
                       ∧ OrderByColumnWrapper.is_ascending w' = Ok (negb a))
             parsed (KeySetPaginator._order_by_columns paginator)
      else KeySetPaginator._order_by_columns paginator = parsed.
Proof.
  unfold KeySetPaginator.__init__.
  destruct (parse_order_by_clause query) as [parsed|] eqn:Hparsed; [|done]. cbn [bind].
  unfold KeySetPaginator._should_reverse_order_by_clause.
  destruct (Bookmark.is_backward _).
  - destruct (comprehension OrderByColumnWrapper.reversed parsed) as [columns|] eqn:Hrev;
      [|done].
    cbn [bind].
    destruct (KeySetPaginator._scaffold_order_by_clauses _ _ _) as [[clauses n1]|];
      [|done].
    cbn [bind]. intros [= <- <-]. exists parsed. split; [done|].
    cbn [KeySetPaginator._order_by_columns].
    apply comprehension_Forall2 in Hrev.
    assert (Forall built parsed) as Hbuilt.
    { eapply comprehension_Forall; [|exact Hparsed]. intros c w Hw. by exists (inr c). }
    clear Hparsed. induction Hrev as [|w w' ws ws' Hw Hws IH]; [constructor|].
    apply Forall_cons in Hbuilt as [[arg Harg] Hbuilt].
    constructor; [|by apply IH].
    destruct (reversed_spec _ _ Harg) as (w'' & Hw'' & _ & (_ & _ & Hname) & Hel & Hasc).
    rewrite Hw in Hw''. injection Hw'' as <-. done.
  - cbn [bind].
    destruct (KeySetPaginator._scaffold_order_by_clauses _ _ _) as [[clauses n1]|];
      [|done].
    cbn [bind]. intros [= <- <-]. exists parsed. done.
Qed.
End Backward.

(** ** The seek filter *)

Lemma compare_sql_row_values_eval dialect lesser greater :
  length lesser = length greater →
  ∃ predicate,
    _compare_sql_row_values dialect lesser greater = Ok predicate
    ∧ ∀ r, eval_clause r predicate
           = row_value_lt (eval_comparable r <$> lesser) (eval_comparable r <$> greater).
Proof.
  intros Hlen. unfold _compare_sql_row_values.
  rewrite bool_decide_eq_true_2 by done. cbn [negb].
  destruct (bool_decide (length lesser = 1%nat)) eqn:Hone.
  - apply bool_decide_eq_true in Hone.
    destruct lesser as [|l [|]]; try done. destruct greater as [|g [|]]; try done.
    eexists. split; [reflexivity|]. intros r. rewrite eval_py_lt. simpl.
    by rewrite andb_false_r, orb_false_r.
  - destruct (supports_native_row_values_comparison dialect).
    + eexists. split; [reflexivity|]. done.
    + destruct (alternatives_comprehension lesser greater (length lesser) 0 Hlen eq_refl)
        as (alternatives & Hbuilt & _ & Heval).
      exists (or_ alternatives). unfold range in *. rewrite Hbuilt. split; [done|].
      intros r. rewrite eval_or_, (Heval r). cbn zeta. by rewrite !take_0, !drop_0.
Qed.

(** X13. [_compare_sql_row_values] returns a predicate exactly when the
    two tuples have the same length, for every dialect and every length,
    zero included; otherwise it raises ValueError. Its indexing never
    raises. *)
Theorem row_comparison_raises_only_on_unequal_lengths
    (dialect : option string) (lesser greater : list Comparable) :
  match _compare_sql_row_values dialect lesser greater with
  | Ok _ => length lesser = length greater
  | Raise e => e = ValueError ∧ length lesser ≠ length greater
  end.
Proof.
  destruct (decide (length lesser = length greater)) as [Hlen|Hlen].
  - destruct (compare_sql_row_values_eval dialect _ _ Hlen) as (p & -> & _). done.
  - unfold _compare_sql_row_values. rewrite bool_decide_eq_false_2 by done. done.
Qed.

Section Seek.
Context `{Environment}.

Lemma pairs_for_comparison_cursor dialect zipped swapped :
  comprehension
    (λ '(c, value), OrderByColumnWrapper.pair_for_comparison c value dialect) zipped
  = Ok swapped →
  ∃ cursor,
    comprehension
      (λ '(c, value),
         do compval <- OrderByColumnWrapper.comparable_value c;
         do value <- OrderByColumnWrapper.processed_value compval dialect value;
         do ascending <- OrderByColumnWrapper.is_ascending c;
         Ok (compval, ascending, value)) zipped = Ok cursor
    ∧ swapped = swap <$> cursor.
Proof.
  revert swapped. induction zipped as [|[c v] zipped IH]; intros swapped Hs.
  - injection Hs as <-. by exists [].
  - apply comprehension_cons_inv in Hs as (p & ps & Hp & Hps & ->).
    destruct (IH _ Hps) as (cursor & Hcursor & ->).
    unfold OrderByColumnWrapper.pair_for_comparison in Hp.
    destruct (OrderByColumnWrapper.comparable_value c) as [cv|] eqn:Hcv; [|done].
    cbn [bind] in Hp.
    destruct (OrderByColumnWrapper.processed_value cv dialect v) as [v'|] eqn:Hv; [|done].
    cbn [bind] in Hp.
    destruct (OrderByColumnWrapper.is_ascending c) as [a|] eqn:Ha; [|done].
    cbn [bind] in Hp.
    exists ((cv, a, v') :: cursor). cbn [comprehension]. rewrite Hcv. cbn [bind].
    rewrite Hv. cbn [bind]. rewrite Ha, Hcursor.
    cbn [bind]. split; [done|]. simpl. destruct a; by injection Hp as <-.
Qed.

Lemma row_value_lt_swap r cursor :
  row_value_lt (eval_comparable r <$> (swap <$> cursor).*2)
               (eval_comparable r <$> (swap <$> cursor).*1)
  = strictly_after r cursor.
Proof.
  induction cursor as [|[[cv a] v] cursor IH]; [done|].
  cbn [fmap list_fmap strictly_after]. cbn zeta. rewrite <- IH.
  destruct a; simpl; [|done]. by rewrite (Z.eqb_sym v).
Qed.

(** X14. Whenever a bookmark with keyset pairs leads
    [_apply_filter_condition_if_required] to a statement, it has issued
    one call, [having] for a grouped statement and [where] otherwise, and
    the condition of that call holds on a row exactly when the row lies
    strictly past the bookmark's values, as the types of the keys bind
    them, in the paging order: at the first key where they differ, above
    it for an ascending key and below it for a descending one. This is so
    for any number of keys, any mix of directions and any dialect. *)
Theorem seek_filter_selects_rows_past_the_cursor
    (self : KeySetPaginator.t) (pairs : dict string Z)
    (calls : list BuilderCall) (q : Select.t OrmDescription) :
  Bookmark.keyset_pairs (KeySetPaginator._bookmark self) = Some pairs →
  KeySetPaginator._apply_filter_condition_if_required self = (calls, Ok q) →
  ∃ condition cursor,
    cursor_of (KeySetPaginator._dialect self) (KeySetPaginator._order_by_columns self)
      (values pairs) = Ok cursor
    ∧ length cursor = length (KeySetPaginator._order_by_columns self)
    ∧ calls = [if grouped (KeySetPaginator._select_or_query self)
               then CallHaving condition else CallWhere condition]
    ∧ ∀ r, eval_clause r condition = strictly_after r cursor.
Proof.
  intros Hpairs. unfold KeySetPaginator._apply_filter_condition_if_required.
  assert (Bookmark.is_empty (KeySetPaginator._bookmark self) = false) as ->.
  { destruct (KeySetPaginator._bookmark self) as [[] [] []]; done. }
  rewrite Hpairs. cbn [bind].
  destruct (bool_decide _) eqn:Hnames; cbn [negb]; [|done].
  apply bool_decide_eq_true in Hnames.
  destruct (comprehension _ (zip _ _)) as [swapped|] eqn:Hswapped; [|done].
  cbn [bind].
  destruct (pairs_for_comparison_cursor _ _ _ Hswapped) as (cursor & Hcursor & ->).
  assert (length cursor = length (KeySetPaginator._order_by_columns self)) as Hlen.
  { rewrite (comprehension_length _ _ _ Hcursor), length_zip_with.
    apply (f_equal length) in Hnames. unfold keys, values in *.
    rewrite !length_fmap in *. lia. }
  destruct cursor as [|key cursor]; [done|].
  set (sw := swap <$> key :: cursor) in *.
  assert (KeySetPaginator.unzip_pair sw = Ok (sw.*1, sw.*2)) as -> by done.
  cbn [bind].
  destruct (compare_sql_row_values_eval (KeySetPaginator._dialect self) sw.*2 sw.*1)
    as (condition & -> & Heval); [by rewrite !length_fmap|].
  unfold pure, and_then, grouped.
  intros Hq. exists condition, (key :: cursor).
  split; [exact Hcursor|]. split; [exact Hlen|]. split.
  - destruct (Select._group_by_clauses _) as [[|]|]; by injection Hq as <- _.
  - intros r. rewrite Heval. apply row_value_lt_swap.
Qed.

(** X15. With an empty bookmark [_apply_filter_condition_if_required]
    returns the statement untouched and calls nothing. Otherwise, when it
    returns, it has added one condition: to HAVING if the statement has a
    GROUP BY with at least one clause, to WHERE if not; the other list of
    criteria is as it was. *)
Theorem filter_goes_to_having_when_grouped
    (self : KeySetPaginator.t) (calls : list BuilderCall) (q : Select.t OrmDescription) :
  KeySetPaginator._apply_filter_condition_if_required self = (calls, Ok q) →
  let base := KeySetPaginator._select_or_query self in
  if Bookmark.is_empty (KeySetPaginator._bookmark self)
  then calls = [] ∧ q = base
  else ∃ condition,
         if grouped base
         then calls = [CallHaving condition]
              ∧ Select._having_criteria q = Select._having_criteria base ++ [condition]
              ∧ Select._where_criteria q = Select._where_criteria base
         else calls = [CallWhere condition]
              ∧ Select._where_criteria q = Select._where_criteria base ++ [condition]
              ∧ Select._having_criteria q = Select._having_criteria base.
Proof.
  unfold KeySetPaginator._apply_filter_condition_if_required.
  destruct (Bookmark.is_empty _).
  { by intros [= <- <-]. }
  destruct (bind _ _) as [condition|]; [|done].
  unfold pure, and_then, grouped. cbn zeta.
  intros Hq. exists condition.
  destruct (Select._group_by_clauses _) as [[|]|]; by injection Hq as <- <-.
Qed.

(** X16. A bookmark that is not empty and has no ["keyset_pairs"] entry (an
    offset bookmark, or a direction alone) makes
    [get_modified_sql_statement] raise KeyError before any call on the
    statement. *)
Theorem bookmark_without_keyset_pairs_is_a_key_error
    (self : KeySetPaginator.t) :
  Bookmark.is_empty (KeySetPaginator._bookmark self) = false →
  Bookmark.keyset_pairs (KeySetPaginator._bookmark self) = None →
  KeySetPaginator.get_modified_sql_statement self = ([], Raise (KeyError "keyset_pairs")).
Proof.
  intros Hempty Hpairs.
  unfold KeySetPaginator.get_modified_sql_statement,
    KeySetPaginator._apply_filter_condition_if_required.
  rewrite Hempty, Hpairs. reflexivity.
Qed.

(** X17. A statement without ORDER BY cannot be paged past its first
    page: with no order column, every bookmark that is not empty makes
    [get_modified_sql_statement] raise before any call on the statement;
    KeyError without keyset pairs, ValueError when they are empty (the
    unpacking of the zipped pairs fails), the mismatch error otherwise. *)
Theorem bookmark_needs_an_ordering
    (self : KeySetPaginator.t) :
  KeySetPaginator._order_by_columns self = [] →
  Bookmark.is_empty (KeySetPaginator._bookmark self) = false →
  ∃ e, KeySetPaginator.get_modified_sql_statement self = ([], Raise e)
       ∧ e = match Bookmark.keyset_pairs (KeySetPaginator._bookmark self) with
             | None => KeyError "keyset_pairs"
             | Some [] => ValueError
             | Some pairs => KeySetPairsMismatchQueryError (keys pairs) []
             end.
Proof.
  intros Hcols Hempty.
  unfold KeySetPaginator.get_modified_sql_statement,
    KeySetPaginator._apply_filter_condition_if_required.
  rewrite Hempty, Hcols.
  destruct (Bookmark.keyset_pairs _) as [[|pair pairs]|]; eexists; split; reflexivity.
Qed.

Lemma pairs_for_comparison_total dialect columns vs :
  Forall built columns → Forall2 (binds dialect) columns vs →
  ∃ swapped,
    comprehension
      (λ '(c, value), OrderByColumnWrapper.pair_for_comparison c value dialect)
      (zip columns vs) = Ok swapped.
Proof.
  intros Hbuilt Hbinds. induction Hbinds as [|c v columns vs Hc Hcs IH]; [by exists []|].
  apply Forall_cons in Hbuilt as [Hb Hbuilt].
  destruct (built_pair_for_comparison _ _ _ Hb Hc) as [pair Hpair].
  destruct (IH Hbuilt) as [swapped Hswapped].
  exists (pair :: swapped). cbn [zip zip_with comprehension]. by rewrite Hpair, Hswapped.
Qed.

Lemma pairs_for_comparison_binds dialect columns vs swapped :
  length columns = length vs →
  comprehension
    (λ '(c, value), OrderByColumnWrapper.pair_for_comparison c value dialect)
    (zip columns vs) = Ok swapped →
  Forall2 (binds dialect) columns vs.
Proof.
  revert vs swapped. induction columns as [|c columns IH]; intros [|v vs] swapped Hlen Hs;
    try done; try by constructor.
  apply comprehension_cons_inv in Hs as (p & ps & Hp & Hps & ->).
  constructor; [|eapply IH; [by injection Hlen|done]].
  intros compval Hcv. unfold OrderByColumnWrapper.pair_for_comparison in Hp.
  rewrite Hcv in Hp. cbn [bind] in Hp.
  destruct (OrderByColumnWrapper.processed_value compval dialect v); [eauto|done].
Qed.

(** X18. For a paginator that was constructed with a bookmark whose keyset
    pairs are not empty and name the paginator's order columns in order,
    [get_modified_sql_statement] returns a statement exactly when the
    type of every key binds the bookmark's value for it, or leaves it as
    it is: nothing else in the filter can raise. *)
Theorem matching_cursor_is_served_when_bound
    (query : Select.t OrmDescription) (page_size : Z) (dialect : option string)
    (bookmark : Bookmark.t) (pairs : dict string Z) (n : nat)
    (paginator : KeySetPaginator.t) (n' : nat) :
  KeySetPaginator.__init__ query page_size dialect (Some bookmark) n = Ok (paginator, n') →
  Bookmark.keyset_pairs bookmark = Some pairs →
  keys pairs = OrderByColumnWrapper.name <$> KeySetPaginator._order_by_columns paginator →
  pairs ≠ [] →
  (∃ calls statement,
     KeySetPaginator.get_modified_sql_statement paginator = (calls, Ok statement))
  ↔ Forall2 (binds dialect) (KeySetPaginator._order_by_columns paginator) (values pairs).
Proof.
  intros Hinit Hpairs Hkeys Hne.
  destruct (paginator_init_inv _ _ _ _ _ _ _ Hinit) as (columns & clauses & -> & Hbuilt & Hs).
  unfold KeySetPaginator.get_modified_sql_statement,
    KeySetPaginator._apply_filter_condition_if_required.
  cbn [KeySetPaginator._bookmark KeySetPaginator._order_by_columns
       KeySetPaginator._dialect KeySetPaginator._select_or_query] in *.
  change (default Bookmark.empty (Some bookmark)) with bookmark.
  assert (Bookmark.is_empty bookmark = false) as ->.
  { destruct bookmark as [[] [] []]; done. }
  rewrite Hpairs. cbn [bind]. rewrite bool_decide_eq_true_2 by done. cbn [negb].
  assert (length columns = length (values pairs)) as Hlen.
  { apply (f_equal length) in Hkeys. unfold keys, values in *.
    by rewrite !length_fmap in *. }
  split.
  - intros (calls & statement & Hserved).
    destruct (comprehension _ (zip columns (values pairs))) as [swapped|] eqn:Hswapped;
      [|done].
    by eapply pairs_for_comparison_binds.
  - intros Hbinds.
    destruct (pairs_for_comparison_total _ _ _ Hbuilt Hbinds) as [swapped Hswapped].
    rewrite Hswapped. cbn [bind].
    assert (length swapped = length pairs) as Hswlen.
    { rewrite (comprehension_length _ _ _ Hswapped), length_zip_with.
      unfold values in *. rewrite length_fmap in *. lia. }
    destruct swapped as [|s0 swapped]; [by destruct pairs|].
    set (sw := s0 :: swapped).
    assert (KeySetPaginator.unzip_pair sw = Ok (sw.*1, sw.*2)) as -> by done.
    cbn [bind].
    destruct (compare_sql_row_values_eval dialect sw.*2 sw.*1) as (condition & -> & _);
      [by rewrite !length_fmap|].
    unfold pure, and_then.
    destruct (Select._group_by_clauses query) as [[|]|]; simpl; eauto.
Qed.
End Seek.

(** ** Keyset pages and their bookmarks *)

Lemma fill_table_spec indexed order_by_columns table table' :
  NoDup (keys table ++ indexed.*1) →
  KeySetPage.fill_table indexed order_by_columns table = Ok table' →
  ∃ pairs,
    comprehension (key_of order_by_columns) indexed.*2 = Ok pairs
    ∧ table' = table ++ zip indexed.*1 pairs.
Proof.
  revert table. induction indexed as [|[idx row] indexed IH]; intros table Hnodup; simpl.
  - intros [= <-]. exists []. by rewrite app_nil_r.
  - destruct (KeySetPage.keyset_pairs_of _ _ _) as [pairs|] eqn:Hpairs0; [|done]. cbn [bind].
    assert (idx ∉ keys table) as Hfresh.
    { apply NoDup_app in Hnodup as (_ & Hdisjoint & _).
      intros Hin. apply (Hdisjoint _ Hin). simpl. left. }
    rewrite (dict_set_fresh _ _ _ Hfresh). intros Hfill.
    apply IH in Hfill as (rest & Hrest & ->).
    + exists (pairs :: rest). cbn [fmap list_fmap comprehension snd fst].
      unfold key_of at 1. rewrite Hpairs0. cbn [bind].
      fold (snd <$> indexed). rewrite Hrest. cbn [bind].
      split; [done|]. by rewrite <- app_assoc.
    + unfold keys. rewrite fmap_app. simpl. by rewrite <- app_assoc.
Qed.

Lemma enumerate_values {A} (l : list A) : (enumerate l).*2 = l.
Proof. unfold enumerate. apply snd_zip. by rewrite length_fmap, length_seq. Qed.

(** The pair table of a page, read at the index of a fetched row, holds
    that row's key; the reversal for a backward bookmark changes nothing
    in what a lookup finds. *)
Lemma page_table_lookup rows metadata page i r :
  KeySetPage.__init__ rows metadata = Ok page →
  rows !! i = Some r →
  ∃ k, key_of (ParsingMetadata.order_by_columns metadata) r = Ok k
       ∧ dict_get (KeySetPage._keyset_pairs_table page) (Z.of_nat i) = Some k.
Proof.
  unfold KeySetPage.__init__.
  destruct (KeySetPage.fill_table _ _ _) as [table|] eqn:Hfill; [|done].
  cbn [bind]. intros [= <-] Hr. cbn [KeySetPage._keyset_pairs_table].
  assert (NoDup (enumerate rows).*1) as Hnodup.
  { rewrite enumerate_keys. apply NoDup_fmap; [apply _|apply NoDup_seq]. }
  apply fill_table_spec in Hfill as (pairs & Hpairs & ->); [|done].
  rewrite enumerate_values in Hpairs. simpl.
  destruct (comprehension_lookup _ _ _ _ _ Hpairs Hr) as (k & Hk & Hki).
  exists k. split; [done|].
  assert (dict_get (zip (enumerate rows).*1 pairs) (Z.of_nat i) = Some k) as Hget.
  { rewrite <- Hki. apply dict_get_zip; [done|].
    rewrite enumerate_keys, list_lookup_fmap, lookup_seq_lt; [done|].
    by eapply lookup_lt_Some. }
  destruct (Bookmark.is_backward _); [|done].
  rewrite dict_get_reverse; [done|].
  unfold keys. rewrite fst_zip; [done|].
  rewrite (comprehension_length _ _ _ Hpairs), length_fmap.
  unfold enumerate. rewrite length_zip_with, length_fmap, length_seq. lia.
Qed.

Lemma page_fields rows metadata page :
  KeySetPage.__init__ rows metadata = Ok page →
  let table := KeySetPage._keyset_pairs_table page in
  let shown := KeySetPage._rows page in
  KeySetPage._metadata page = metadata
  ∧ KeySetPage._last_keyset_pair page = dict_get table (len shown - 1)
  ∧ KeySetPage._additional_keyset_pair page = dict_get table (len shown)
  ∧ KeySetPage._next_keyset_pair page
    = py_or (KeySetPage._additional_keyset_pair page) (KeySetPage._last_keyset_pair page)
  ∧ KeySetPage._previous_keyset_pair page
    = Bookmark.keyset_pairs (ParsingMetadata.bookmark metadata).
Proof.
  unfold KeySetPage.__init__.
  destruct (KeySetPage.fill_table _ _ _) as [table|]; [|done].
  cbn [bind]. intros [= <-]. done.
Qed.

Lemma page_rows_length rows metadata page :
  0 ≤ ParsingMetadata.page_size metadata →
  KeySetPage.__init__ rows metadata = Ok page →
  len (KeySetPage._rows page) = Z.min (ParsingMetadata.page_size metadata) (len rows).
Proof.
  intros Hsize Hinit. rewrite (KeySetPage_rows _ _ _ Hinit). cbn zeta.
  rewrite slice_to_sublist by done. unfold len.
  destruct (Bookmark.is_backward _); rewrite ?length_reverse, length_take; lia.
Qed.

Lemma dict_set_not_nil {K V} `{EqDecision K} (d : dict K V) k v : dict_set d k v ≠ [].
Proof. destruct d as [|[k' v'] d]; simpl; [done|]. by destruct (decide _). Qed.

Lemma keyset_pairs_of_not_nil row order_by_columns pairs k :
  KeySetPage.keyset_pairs_of row order_by_columns pairs = Ok k →
  order_by_columns ≠ [] ∨ pairs ≠ [] → k ≠ [].
Proof.
  revert pairs. induction order_by_columns as [|c cs IH]; intros pairs; simpl.
  - intros [= <-] [|]; done.
  - destruct (get_value_from_row_by_column_name _ _) as [v|]; [|done]. cbn [bind].
    intros Hk _. apply (IH _ Hk). right. apply dict_set_not_nil.
Qed.

Lemma py_or_nonempty {K V} (k : dict K V) b : k ≠ [] → py_or (Some k) b = Some k.
Proof. by destruct k. Qed.

Lemma py_or_Some_r {K V} (a : option (dict K V)) k : is_Some (py_or a (Some k)).
Proof. destruct a as [[|]|]; simpl; eauto. Qed.

(** X20. When more rows than [page_size] were fetched and there is an
    order column, the page shows the first [page_size] rows, and its
    [next] bookmark holds the key of the row after them, the lookahead
    row, which the page does not show. *)
Theorem next_bookmark_holds_the_lookahead_key
    (rows : list PageRow) (metadata : ParsingMetadata.t) (page : KeySetPage.t)
    (lookahead : PageRow) :
  0 ≤ ParsingMetadata.page_size metadata →
  ParsingMetadata.order_by_columns metadata ≠ [] →
  rows !! Z.to_nat (ParsingMetadata.page_size metadata) = Some lookahead →
  KeySetPage.__init__ rows metadata = Ok page →
  __iter__ page
  = (let shown := take (Z.to_nat (ParsingMetadata.page_size metadata)) rows in
     if Bookmark.is_backward (ParsingMetadata.bookmark metadata)
     then reverse shown else shown)
  ∧ ∃ k, key_of (ParsingMetadata.order_by_columns metadata) lookahead = Ok k
         ∧ KeySetPage._additional_keyset_pair page = Some k
         ∧ has_next page = true
         ∧ next page = forward k.
Proof.
  intros Hsize Hcols Hrow Hinit.
  split.
  { unfold __iter__. simpl. rewrite (KeySetPage_rows _ _ _ Hinit). cbn zeta.
    by rewrite slice_to_sublist. }
  destruct (page_table_lookup _ _ _ _ _ Hinit Hrow) as (k & Hk & Hget).
  destruct (page_fields _ _ _ Hinit) as (_ & _ & Hadditional & Hnext & _).
  pose proof (page_rows_length _ _ _ Hsize Hinit) as Hlen.
  apply lookup_lt_Some in Hrow.
  assert (len (KeySetPage._rows page) = ParsingMetadata.page_size metadata) as Hshown
    by (unfold len in *; lia).
  rewrite Hshown in Hadditional. rewrite Z2Nat.id in Hget by done.
  rewrite Hget in Hadditional.
  assert (k ≠ []) as Hne by (eapply keyset_pairs_of_not_nil; [exact Hk|by left]).
  rewrite Hadditional, (py_or_nonempty _ _ Hne) in Hnext.
  exists k. split; [done|]. split; [done|].
  simpl. unfold KeySetPage.next, KeySetPage.has_next. rewrite Hnext. done.
Qed.

(** X21. When no more than [page_size] rows were fetched (and at least
    one), the [next] bookmark holds the key of the last fetched row: for
    a forward page the last row it shows, for a backward page, whose rows
    are shown in reverse, the first row it shows. *)
Theorem next_bookmark_without_lookahead
    (rows : list PageRow) (metadata : ParsingMetadata.t) (page : KeySetPage.t) :
  1 ≤ len rows ≤ ParsingMetadata.page_size metadata →
  KeySetPage.__init__ rows metadata = Ok page →
  ∃ row k,
    (if Bookmark.is_backward (ParsingMetadata.bookmark metadata)
     then head (__iter__ page) else last (__iter__ page)) = Some row
    ∧ key_of (ParsingMetadata.order_by_columns metadata) row = Ok k
    ∧ next page = forward k.
Proof.
  intros Hsize Hinit.
  assert (0 ≤ ParsingMetadata.page_size metadata) as Hps by lia.
  destruct (page_fields _ _ _ Hinit) as (_ & Hlast & Hadditional & Hnext & _).
  pose proof (page_rows_length _ _ _ Hps Hinit) as Hlen.
  rewrite Z.min_r in Hlen by lia. cbn zeta in *. rewrite Hlen in *.
  destruct (lookup_lt_is_Some_2 rows (Z.to_nat (len rows - 1))) as [row Hrow];
    [unfold len in *; lia|].
  destruct (page_table_lookup _ _ _ _ _ Hinit Hrow) as (k & Hk & Hget).
  rewrite Z2Nat.id in Hget by lia.
  rewrite (dict_get_None _ (len rows)) in Hadditional
    by (rewrite (page_table_keys _ _ _ Hinit); lia).
  rewrite Hget in Hlast. rewrite Hadditional, Hlast in Hnext. simpl in Hnext.
  exists row, k. split; [|split; [done|]].
  - unfold __iter__. simpl. rewrite (KeySetPage_rows _ _ _ Hinit). cbn zeta.
    rewrite slice_to_sublist, take_ge by (unfold len in *; lia).
    assert (last rows = Some row) as Hl.
    { rewrite last_lookup. rewrite <- Hrow. f_equal. unfold len. lia. }
    destruct (Bookmark.is_backward _); [|done].
    by rewrite head_reverse.
  - simpl. unfold KeySetPage.next, KeySetPage.has_next. rewrite Hnext. done.
Qed.

(** X19. For a page size of at least one, [has_next] of a keyset page is
    true exactly when at least one row was fetched; a page built from no
    rows is empty and its [next] is the empty bookmark. *)
Theorem has_next_whenever_a_row_was_fetched
    (rows : list PageRow) (metadata : ParsingMetadata.t) (page : KeySetPage.t) :
  0 < ParsingMetadata.page_size metadata →
  KeySetPage.__init__ rows metadata = Ok page →
  has_next page = bool_decide (rows ≠ [])
  ∧ (rows = [] → __iter__ page = [] ∧ next page = Bookmark.empty).
Proof.
  intros Hsize Hinit.
  assert (0 ≤ ParsingMetadata.page_size metadata) as Hps by lia.
  destruct (page_fields _ _ _ Hinit) as (_ & Hlast & Hadditional & Hnext & _).
  pose proof (page_rows_length _ _ _ Hps Hinit) as Hlen.
  pose proof (page_table_keys _ _ _ Hinit) as Hkeys.
  cbn zeta in *.
  assert (KeySetPage.has_next page = bool_decide (rows ≠ [])) as Hhas.
  { unfold KeySetPage.has_next. destruct rows as [|row rows].
    - rewrite Hnext, Hadditional, Hlast, !dict_get_None
        by (rewrite Hkeys; unfold len; simpl; lia).
      done.
    - destruct (dict_get_is_Some (KeySetPage._keyset_pairs_table page)
                  (len (KeySetPage._rows page) - 1)) as [k Hk].
      { apply Hkeys. rewrite Hlen. unfold len. simpl. lia. }
      rewrite Hk in Hlast. rewrite Hlast in Hnext.
      destruct (py_or_Some_r (KeySetPage._additional_keyset_pair page) k) as [k' Hk'].
      rewrite Hnext, Hk'. done. }
  split; [exact Hhas|].
  intros ->. split.
  - unfold __iter__. simpl. apply length_zero_iff_nil. unfold len in Hlen. simpl in Hlen. lia.
  - simpl. unfold KeySetPage.next. rewrite Hhas. done.
Qed.

(** X22. A page that [KeySetPaginator.parse_result] builds is never full,
    for any page size that is not negative: it holds at most [page_size]
    rows, and [is_full] compares their number with [page_size + 1]. *)
Theorem keyset_page_is_never_full
    (self : KeySetPaginator.t) (resulted_rows : list Row) (page : KeySetPage.t) :
  0 ≤ KeySetPaginator._page_size self →
  parse_result self resulted_rows = Ok page →
  is_full page = false.
Proof.
  intros Hsize Hparse. unfold parse_result in Hparse.
  destruct (page_fields _ _ _ Hparse) as (Hmeta & _).
  pose proof (page_rows_length _ _ _ (Hsize : 0 ≤ ParsingMetadata.page_size
                (ParsingMetadata.__init__ _ _ _)) Hparse) as Hlen.
  simpl. unfold KeySetPage.is_full. rewrite Hmeta. simpl in *.
  apply bool_decide_eq_false. lia.
Qed.

(** X23. A page fetched with a bookmark that has keyset pairs has a
    [previous] bookmark, which is those same pairs with direction
    backward, whatever rows came back. A page that was itself fetched
    backward therefore has the bookmark it was fetched with as
    [previous], and fetching [previous] returns the same page again. *)
Theorem previous_repeats_the_cursor `{Environment}
    (entity_key : string) (table : list Attrs) (query : Select.t OrmDescription)
    (page_size : Z) (bookmark : Bookmark.t) (cursor : dict string Z) (page : KeySetPage.t) :
  Bookmark.keyset_pairs bookmark = Some cursor →
  fetch_page entity_key table query page_size (Some bookmark) = Ok page →
  has_previous page = true
  ∧ previous page = backward cursor
  ∧ (bookmark = backward cursor →
     fetch_page entity_key table query page_size (Some (previous page)) = Ok page).
Proof.
  intros Hcursor Hfetch.
  assert (KeySetPage._previous_keyset_pair page = Some cursor) as Hprev.
  { revert Hfetch. unfold fetch_page.
    destruct (KeySetPaginator.__init__ _ _ _ _ _) as [[paginator counter]|] eqn:Hinit;
      [|done].
    cbn [bind].
    destruct (KeySetPaginator.get_modified_sql_statement _).2; [|done]. cbn [bind].
    intros Hparse. unfold parse_result in Hparse.
    destruct (page_fields _ _ _ Hparse) as (_ & _ & _ & _ & ->). simpl.
    destruct (paginator_init_inv _ _ _ _ _ _ _ Hinit) as (columns & clauses & -> & _).
    done. }
  assert (previous page = backward cursor) as Hback.
  { simpl. unfold KeySetPage.previous, KeySetPage.has_previous. by rewrite Hprev. }
  split; [|split; [done|]].
  - simpl. unfold KeySetPage.has_previous. by rewrite Hprev.
  - intros Hb. by rewrite Hback, <- Hb.
Qed.

(** ** Limit/offset pages *)

(** X24. [LimitOffsetPage.total_pages_count] raises ZeroDivisionError
    exactly when the page size is zero. For a positive page size it is the
    number of full pages in [rows_count], so it is one less than the
    number of pages needed whenever the last page is partial. *)
Theorem total_pages_count_counts_full_pages {T}
    (rows : list T) (page_size offset rows_count : Z) :
  let page := LimitOffsetPage.__init__ rows page_size offset rows_count in
  match total_pages_count page with
  | Ok total =>
      page_size ≠ 0
      ∧ (0 < page_size →
         total * page_size ≤ rows_count < (total + 1) * page_size
         ∧ (rows_count + page_size - 1) / page_size
           = total + (if rows_count mod page_size =? 0 then 0 else 1))
  | Raise e => e = ZeroDivisionError ∧ page_size = 0
  end.
Proof.
  intros page. simpl. unfold LimitOffsetPage.total_pages_count, floordiv. simpl.
  destruct (decide (page_size = 0)) as [->|Hne]; [done|].
  split; [done|]. intros Hpos.
  pose proof (Z.div_mod rows_count page_size Hne) as Hdiv.
  pose proof (Z.mod_pos_bound rows_count page_size Hpos) as Hmod.
  split; [nia|].
  destruct (Z.eqb_spec (rows_count mod page_size) 0) as [Hzero|Hrest].
  - symmetry. apply Z.div_unique with (r := page_size - 1); [lia|nia].
  - symmetry. apply Z.div_unique with (r := rows_count mod page_size - 1); [lia|nia].
Qed.

(** X25. When a limit/offset page has a next page, its [next] bookmark is
    the offset one page further, which is below [rows_count], and the page
    at that offset has the next [current_page_number] (or raises
    ZeroDivisionError just as this one does). *)
Theorem next_page_number_is_one_more {T}
    (rows rows' : list T) (page_size offset rows_count : Z) :
  let page := LimitOffsetPage.__init__ rows page_size offset rows_count in
  has_next page = true →
  ∃ offset',
    next page = LimitOffsetPage.offset_bookmark offset'
    ∧ offset' = offset + page_size
    ∧ offset' < rows_count
    ∧ current_page_number (LimitOffsetPage.__init__ rows' page_size offset' rows_count)
      = rmap Z.succ (current_page_number page).
Proof.
  intros page Hnext. simpl in *. unfold LimitOffsetPage.has_next in Hnext. simpl in Hnext.
  exists (offset + page_size).
  unfold LimitOffsetPage.next, LimitOffsetPage.has_next,
    LimitOffsetPage.current_page_number, floordiv. simpl.
  rewrite Hnext. split; [done|]. split; [done|]. split; [lia|].
  destruct (decide (page_size = 0)) as [->|Hne]; [done|]. simpl. f_equal.
  replace (offset + page_size) with (offset + 1 * page_size) by lia.
  rewrite Z.div_add by done. lia.
Qed.

(** X26. The bookmark [last_page], read as the paginators read a bookmark
    (no offset means 0), is the offset [max 0 (rows_count - page_size)],
    and the page at that offset has no next page. *)
Theorem last_page_has_no_next {T}
    (rows rows' : list T) (page_size offset rows_count : Z) :
  let page := LimitOffsetPage.__init__ rows page_size offset rows_count in
  ∃ bookmark,
    last_page page = Ok bookmark
    ∧ let offset' := default 0 (Bookmark.offset bookmark) in
      offset' = Z.max 0 (rows_count - page_size)
      ∧ has_next (LimitOffsetPage.__init__ rows' page_size offset' rows_count) = false.
Proof.
  intros page. simpl. unfold LimitOffsetPage.last_page, LimitOffsetPage.has_next. simpl.
  destruct (Z.ltb_spec (rows_count - page_size) 0); eexists; (split; [reflexivity|]); simpl.
  - split; [lia|]. apply Z.ltb_ge. lia.
  - split; [lia|]. apply Z.ltb_ge. lia.
Qed.

(** ** The limit/offset paginator *)

(** X27. [with paginator.bookmarked(bookmark)] runs its body on the
    paginator with that bookmark and its offset (0 if it has none) and
    hands on the body's outcome; afterwards, whatever the body did and
    whatever bookmark the paginator was constructed with, its offset is 0
    and its bookmark empty, so the next statement it emits has OFFSET 0. *)
Theorem bookmarked_forgets_every_bookmark {A}
    (query : LimitOffsetPaginator.Statement) (page_size : Z)
    (own_bookmark : option Bookmark.t) (total_count_key : string)
    (bookmark : Bookmark.t)
    (body : LimitOffsetPaginator.t → Result A * LimitOffsetPaginator.t) :
  let self := LimitOffsetPaginator.__init__ query page_size own_bookmark total_count_key in
  let inside :=
    LimitOffsetPaginator.mk page_size query bookmark
      (default 0 (Bookmark.offset bookmark)) total_count_key in
  let after := LimitOffsetPaginator.bookmarked self bookmark body in
  after.1 = (body inside).1
  ∧ LimitOffsetPaginator._offset after.2 = 0
  ∧ LimitOffsetPaginator._bookmark after.2 = Bookmark.empty
  ∧ match LimitOffsetPaginator.get_modified_sql_statement after.2 with
    | Ok stmt => LimitOffsetPaginator._offset_clause stmt = Some 0
    | Raise e => e = IndexError
    end.
Proof.
  intros self inside after. subst after self.
  unfold LimitOffsetPaginator.bookmarked, LimitOffsetPaginator.__init__.
  cbn [LimitOffsetPaginator._page_size LimitOffsetPaginator._select_or_query
       LimitOffsetPaginator._bookmark LimitOffsetPaginator._offset
       LimitOffsetPaginator._total_count_key].
  fold inside. destruct (body inside) as [outcome self'].
  split; [done|]. split; [done|]. split; [done|].
  unfold LimitOffsetPaginator.get_modified_sql_statement,
    LimitOffsetPaginator._with_total_count_subquery. simpl.
  by destruct (LimitOffsetPaginator.final_froms _).
Qed.



Section Window.
Variables (entity_key total_count_key : string).
Variables (statement : LimitOffsetPaginator.Statement) (table : list Attrs) (page_size : Z).
Hypothesis positive : 0 < page_size.
Hypothesis has_from : LimitOffsetPaginator.final_froms statement ≠ [].
Hypothesis distinct_keys : entity_key ≠ total_count_key.






End Window.

(** ** Instances of the further properties *)

(** Removing the order modifiers from the objects of a labelled grouping
    around a descending column: the grouping goes with the modifier. *)
Lemma removing_from_labelled_name_objects :
  let result := @Graph._remove_order_direction default_environment labelled_name_objects 0 in
  ∃ y, result.2 = Ok y
       ∧ represents result.1 y (Label "n" Author_name)
       ∧ represents result.1 0 labelled_name.
Proof.
  intros result. pose proof labelled_name_objects_represent as Hrep.
  destruct (@graph_remove_refines default_environment _ _ _ Hrep) as [Hframe Hresult].
  assert (@_remove_order_direction default_environment labelled_name
          = Ok (Label "n" Author_name)) as Hremove
    by (vm_compute; reflexivity).
  rewrite Hremove in Hresult. destruct Hresult as (y & Hy & Hrep').
  exists y. split; [done|]. split; [done|].
  eapply represents_frame; [|exact Hrep]. exact Hframe.
Defined.

(** Reading the direction from the same objects: the grouping answers
    for the descending column below it. *)
Lemma direction_of_labelled_name_objects :
  Graph._get_order_direction 5 labelled_name_objects (Some 0%nat)
  = _get_order_direction 5 (Some labelled_name).
Proof.
  apply (graph_get_order_direction_refines 5 labelled_name_objects 0%nat labelled_name).
  apply labelled_name_objects_represent.
Defined.


(** The label that is its own element. *)
Lemma overflow_on_the_self_loop :
  (@Graph._reverse_order_direction default_environment Graph.self_loop 0%nat).2
  = Raise WrappingOverflow
  ∧ (@Graph._remove_order_direction default_environment Graph.self_loop 0%nat).2
    = Raise WrappingOverflow.
Proof.
  apply (@reverse_and_remove_overflow_on_endless_chains default_environment
           Graph.self_loop 0%nat).
  apply self_loop_endless.
Defined.

(** A labelled grouping around a descending column: what is left is the
    labelled column. *)
Lemma removing_from_a_labelled_descending_column :
  let el := Label "n" Author_name in
  has_order_modifier el = false
  ∧ @_remove_order_direction default_environment el = Ok el
  ∧ (has_order_modifier labelled_name = false → el = labelled_name)
  ∧ ∀ frames, _get_order_direction frames (Some el) = Ok None
              ∨ _get_order_direction frames (Some el) = Raise RecursionError.
Proof.
  apply (@removing_order_modifiers_is_idempotent default_environment
           labelled_name (Label "n" Author_name)).
  vm_compute. reflexivity.
Defined.

(** The wrapper of [Author.id]. *)
Lemma names_of_the_author_id_wrapper :
  ∃ el, @OrderByColumnWrapper.element default_environment by_author_id = Ok el
        ∧ has_order_modifier el = false
        ∧ OrderByColumnWrapper.full_name by_author_id = @str default_environment el
        ∧ match OrderByColumnWrapper.table_name by_author_id with
          | Some table_name =>
              OrderByColumnWrapper.full_name by_author_id
              = table_name +:+ "." +:+ OrderByColumnWrapper.name by_author_id
              ∧ has_dot table_name = false
          | None =>
              OrderByColumnWrapper.name by_author_id
              = OrderByColumnWrapper.full_name by_author_id
              ∧ has_dot (OrderByColumnWrapper.full_name by_author_id) = false
          end.
Proof.
  apply (@wrapper_names_split_the_full_name default_environment (inr Author_id) by_author_id).
  vm_compute. reflexivity.
Defined.

(** [Author.id] among the columns of [select(Author)]: the attribute [id]
    of the entity at index 0. *)
Lemma author_id_is_found_as_an_attribute :
  (0%nat = 0%nat
   ∧ ∃ i, (i < length [OrmDesc Author])%nat
          ∧ (AttributeColumn by_author_id 0 "id" = DirectColumn by_author_id i
             ∨ ∃ attr, AttributeColumn by_author_id 0 "id"
                       = AttributeColumn by_author_id i attr))
  ∨ (0%nat = 1%nat
     ∧ (∀ i desc, [OrmDesc Author] !! i = Some desc →
                  @derive_order_key default_environment by_author_id desc i = Ok None)
     ∧ ∃ cv, @OrderByColumnWrapper.comparable_value default_environment by_author_id = Ok cv
             ∧ let name := @ORDER_COL_PREFIX default_environment +:+ decimal 1 in
               AttributeColumn by_author_id 0 "id"
               = AppendedColumn by_author_id name (Label name cv)).
Proof.
  apply (@find_order_key_finds_or_appends default_environment by_author_id
           [OrmDesc Author] 0 (AttributeColumn by_author_id 0 "id") 0).
  vm_compute. reflexivity.
Defined.

(** [Author.id] among the plain columns [name, id]: position 1. *)
Lemma author_id_among_plain_columns :
  @find_order_key default_environment by_author_id
    (ColumnElementDesc <$> [Author_name; Author_id]) 0
  = match list_find (λ c, c = Author_id) [Author_name; Author_id] with
    | Some (i, _) => Ok (DirectColumn by_author_id i, 0%nat)
    | None =>
        let name := @ORDER_COL_PREFIX default_environment +:+ decimal 1 in
        Ok (AppendedColumn by_author_id name (Label name Author_id), 1%nat)
    end.
Proof.
  apply (@find_order_key_among_core_columns default_environment by_author_id
           [Author_name; Author_id] 0 Author_id).
  vm_compute. reflexivity.
Defined.

(** Two order columns that a select of nothing has to append. *)
Lemma two_appended_columns :
  ∃ mapped,
    @KeySetPaginator.mapped_order_by_columns default_environment
      [by_author_id; by_author_id] [] 0 = Ok (mapped, 2%nat)
    ∧ length mapped = length [by_author_id; by_author_id]
    ∧ appended_names mapped
      = (λ j, @ORDER_COL_PREFIX default_environment +:+ decimal j) <$> seq 1 (2 - 0)
    ∧ NoDup (appended_names mapped).
Proof.
  eexists. split; [vm_compute; reflexivity|].
  apply (@appended_columns_get_distinct_names default_environment
           [by_author_id; by_author_id] [] 0).
  vm_compute. reflexivity.
Defined.

(** An appended column for a grouping around the descending name,
    reversed and reversed again. *)
Lemma reversing_the_grouped_name_column :
  let column := AppendedColumn by_grouped_name "oc_1" (Label "oc_1" Author_name) in
  ∃ reversed restored,
    @MappedOrderColumn_reversed default_environment column = Ok reversed
    ∧ @MappedOrderColumn_reversed default_environment reversed = Ok restored
    ∧ reversed = with_wrapper column (order_by_wrapper reversed)
    ∧ restored = with_wrapper column (order_by_wrapper restored)
    ∧ @opposite_key default_environment (order_by_wrapper column) (order_by_wrapper reversed)
    ∧ @same_key default_environment (order_by_wrapper column) (order_by_wrapper restored)
    ∧ ∀ w name extra_column,
        column = AppendedColumn w name extra_column →
        ∃ ascending : bool,
          @order_by_clause default_environment column
          = Ok (if ascending then extra_column else desc extra_column)
          ∧ @order_by_clause default_environment reversed
            = Ok (if ascending then desc extra_column else extra_column)
          ∧ @order_by_clause default_environment restored
            = @order_by_clause default_environment column.
Proof.
  apply (@mapped_column_reversed_twice default_environment
           (inr (Grouping (desc Author_name) None))
           (AppendedColumn by_grouped_name "oc_1" (Label "oc_1" Author_name))).
  vm_compute. reflexivity.
Defined.

(** The paginator for the authors after id 2 found its key among the
    selected columns, and its statement parses to that key again. *)
Lemma reparsing_the_statement_for_authors_after_two :
  KeySetPaginator._order_by_clauses authors_after_two
  = OrderByColumnWrapper.column_name_or_obj
    <$> KeySetPaginator._order_by_columns authors_after_two
  ∧ @parse_order_by_clause default_environment _ authors_after_two_statement
    = Ok (KeySetPaginator._order_by_columns authors_after_two).
Proof.
  apply (@emitted_ordering_parses_to_the_same_keys default_environment
           select_Author_order_by_id 2 None (Some (forward [("id", 2)])) 0
           authors_after_two authors_after_two_calls authors_after_two_statement).
  - vm_compute. reflexivity.
  - vm_compute. reflexivity.
Defined.

(** The filter for the authors after id 2. *)
Lemma filter_for_authors_after_two :
  ∃ condition cursor,
    @cursor_of default_environment (KeySetPaginator._dialect authors_after_two)
      (KeySetPaginator._order_by_columns authors_after_two) (values [("id", 2)]) = Ok cursor
    ∧ length cursor = length (KeySetPaginator._order_by_columns authors_after_two)
    ∧ [CallWhere (BinaryCompare Author_id gt (Value 2))]
      = [if grouped (KeySetPaginator._select_or_query authors_after_two)
         then CallHaving condition else CallWhere condition]
    ∧ ∀ r, eval_clause r condition = strictly_after r cursor.
Proof.
  apply (@seek_filter_selects_rows_past_the_cursor default_environment
           authors_after_two [("id", 2)]
           [CallWhere (BinaryCompare Author_id gt (Value 2))]
           (Select.where_ select_Author_order_by_id (BinaryCompare Author_id gt (Value 2)))).
  - reflexivity.
  - vm_compute. reflexivity.
Defined.

(** The same filter lands in WHERE: the statement is not grouped. *)
Lemma filter_for_authors_after_two_is_a_where :
  let q := Select.where_ select_Author_order_by_id (BinaryCompare Author_id gt (Value 2)) in
  let base := KeySetPaginator._select_or_query authors_after_two in
  if Bookmark.is_empty (KeySetPaginator._bookmark authors_after_two)
  then [CallWhere (BinaryCompare Author_id gt (Value 2))] = [] ∧ q = base
  else ∃ condition,
         if grouped base
         then [CallWhere (BinaryCompare Author_id gt (Value 2))] = [CallHaving condition]
              ∧ Select._having_criteria q = Select._having_criteria base ++ [condition]
              ∧ Select._where_criteria q = Select._where_criteria base
         else [CallWhere (BinaryCompare Author_id gt (Value 2))] = [CallWhere condition]
              ∧ Select._where_criteria q = Select._where_criteria base ++ [condition]
              ∧ Select._having_criteria q = Select._having_criteria base.
Proof.
  apply (@filter_goes_to_having_when_grouped default_environment
           authors_after_two
           [CallWhere (BinaryCompare Author_id gt (Value 2))]
           (Select.where_ select_Author_order_by_id (BinaryCompare Author_id gt (Value 2)))).
  vm_compute. reflexivity.
Defined.

(** The keyset paginator given an offset bookmark. *)
Lemma offset_bookmark_on_the_keyset_paginator :
  @KeySetPaginator.get_modified_sql_statement default_environment
    (KeySetPaginator.mk 2 select_Author_order_by_id (LimitOffsetPage.offset_bookmark 4)
       [by_author_id] [asc Author_id] None)
  = ([], Raise (KeyError "keyset_pairs")).
Proof.
  apply (@bookmark_without_keyset_pairs_is_a_key_error default_environment
           (KeySetPaginator.mk 2 select_Author_order_by_id (LimitOffsetPage.offset_bookmark 4)
              [by_author_id] [asc Author_id] None)).
  - reflexivity.
  - reflexivity.
Defined.

(** A paginator without order columns, given a bookmark with no pairs. *)
Lemma empty_cursor_without_an_ordering :
  let self := KeySetPaginator.mk 2 select_Author_order_by_id (forward []) [] [] None in
  ∃ e, @KeySetPaginator.get_modified_sql_statement default_environment self = ([], Raise e)
       ∧ e = match Bookmark.keyset_pairs (KeySetPaginator._bookmark self) with
             | None => KeyError "keyset_pairs"
             | Some [] => ValueError
             | Some pairs => KeySetPairsMismatchQueryError (keys pairs) []
             end.
Proof.
  apply (@bookmark_needs_an_ordering default_environment
           (KeySetPaginator.mk 2 select_Author_order_by_id (forward []) [] [] None)).
  - reflexivity.
  - reflexivity.
Defined.

(** The cursor at id 2 on the authors ordered by id. *)
Lemma cursor_at_two_is_served :
  (∃ calls statement,
     @KeySetPaginator.get_modified_sql_statement default_environment authors_after_two
     = (calls, Ok statement))
  ↔ Forall2 (@binds default_environment None)
      (KeySetPaginator._order_by_columns authors_after_two) (values [("id", 2)]).
Proof.
  apply (@matching_cursor_is_served_when_bound default_environment
           select_Author_order_by_id 2 None (forward [("id", 2)]) [("id", 2)] 0
           authors_after_two 0).
  - vm_compute. reflexivity.
  - reflexivity.
  - reflexivity.
  - discriminate.
Defined.

(** One fetched row at a page size of one. *)
Lemma one_row_has_next :
  ∃ page,
    KeySetPage.__init__ [author 1] (ParsingMetadata.__init__ 1 [by_author_id] Bookmark.empty)
    = Ok page
    ∧ has_next page = bool_decide ([author 1] ≠ [])
    ∧ ([author 1] = [] → __iter__ page = [] ∧ next page = Bookmark.empty).
Proof.
  eexists. split; [vm_compute; reflexivity|].
  apply (has_next_whenever_a_row_was_fetched [author 1]
           (ParsingMetadata.__init__ 1 [by_author_id] Bookmark.empty)).
  - reflexivity.
  - vm_compute. reflexivity.
Defined.

(** Three fetched rows at a page size of two: the bookmark holds the key
    of the third. *)
Lemma three_rows_page_size_two :
  let metadata := ParsingMetadata.__init__ 2 [by_author_id] Bookmark.empty in
  ∃ page,
    KeySetPage.__init__ [author 1; author 2; author 3] metadata = Ok page
    ∧ __iter__ page
      = (let shown := take (Z.to_nat (ParsingMetadata.page_size metadata))
                        [author 1; author 2; author 3] in
         if Bookmark.is_backward (ParsingMetadata.bookmark metadata)
         then reverse shown else shown)
    ∧ ∃ k, key_of (ParsingMetadata.order_by_columns metadata) (author 3) = Ok k
           ∧ KeySetPage._additional_keyset_pair page = Some k
           ∧ has_next page = true
           ∧ next page = forward k.
Proof.
  intros metadata. eexists. split; [vm_compute; reflexivity|].
  apply (next_bookmark_holds_the_lookahead_key [author 1; author 2; author 3]
           metadata _ (author 3)).
  - vm_compute. discriminate.
  - discriminate.
  - reflexivity.
  - vm_compute. reflexivity.
Defined.

(** Two rows fetched backward from id 3 at a page size of two: the page
    shows ids 1, 2 and its next bookmark holds id 1. *)
Lemma backward_page_without_lookahead :
  let metadata := ParsingMetadata.__init__ 2 [by_author_id] (backward [("id", 3)]) in
  ∃ page,
    KeySetPage.__init__ [author 2; author 1] metadata = Ok page
    ∧ ∃ row k,
        (if Bookmark.is_backward (ParsingMetadata.bookmark metadata)
         then head (__iter__ page) else last (__iter__ page)) = Some row
        ∧ key_of (ParsingMetadata.order_by_columns metadata) row = Ok k
        ∧ next page = forward k.
Proof.
  intros metadata. eexists. split; [vm_compute; reflexivity|].
  apply (next_bookmark_without_lookahead [author 2; author 1] metadata).
  - vm_compute. split; discriminate.
  - vm_compute. reflexivity.
Defined.

(** The page of the authors after id 2, from the three rows fetched. *)
Lemma page_after_two_is_not_full :
  ∃ page,
    parse_result authors_after_two
      [EntityRow "Author" [("id", 3)]; EntityRow "Author" [("id", 4)];
       EntityRow "Author" [("id", 5)]] = Ok page
    ∧ is_full page = false.
Proof.
  eexists. split; [vm_compute; reflexivity|].
  apply (keyset_page_is_never_full authors_after_two
           [EntityRow "Author" [("id", 3)]; EntityRow "Author" [("id", 4)];
            EntityRow "Author" [("id", 5)]]).
  - vm_compute. discriminate.
  - vm_compute. reflexivity.
Defined.

(** Paging back from id 4 over the five authors. *)
Lemma paging_back_from_four :
  ∃ page,
    request 2 (Some (backward [("id", 4)])) = Ok page
    ∧ has_previous page = true
    ∧ previous page = backward [("id", 4)]
    ∧ (backward [("id", 4)] = backward [("id", 4)] →
       request 2 (Some (previous page)) = Ok page).
Proof.
  eexists. split; [vm_compute; reflexivity|].
  apply (@previous_repeats_the_cursor default_environment "Author" (authors 5)
           select_Author_order_by_id 2 (backward [("id", 4)]) [("id", 4)]).
  - reflexivity.
  - vm_compute. reflexivity.
Defined.

(** The first of three pages of two rows over five. *)
Lemma second_page_of_five_rows :
  let page := LimitOffsetPage.__init__ [1; 2] 2 0 5 in
  ∃ offset',
    next page = LimitOffsetPage.offset_bookmark offset'
    ∧ offset' = 0 + 2
    ∧ offset' < 5
    ∧ current_page_number (LimitOffsetPage.__init__ [3; 4] 2 offset' 5)
      = rmap Z.succ (current_page_number page).
Proof.
  apply (next_page_number_is_one_more [1; 2] [3; 4] 2 0 5). reflexivity.
Defined.



(** Paging back over the authors: the key is [authors.id DESC]. *)
Lemma paging_back_reverses_the_author_id_key :
  ∃ parsed,
    @parse_order_by_clause default_environment _ select_Author_order_by_id = Ok parsed
    ∧ if Bookmark.is_backward (default Bookmark.empty (Some (backward [("id", 4)])))
      then Forall2
             (λ w w',
                @OrderByColumnWrapper.reversed default_environment w = Ok w'
                ∧ OrderByColumnWrapper.name w' = OrderByColumnWrapper.name w
                ∧ @OrderByColumnWrapper.element default_environment w'
                  = @OrderByColumnWrapper.element default_environment w
                ∧ ∃ a, @OrderByColumnWrapper.is_ascending default_environment w = Ok a
                       ∧ @OrderByColumnWrapper.is_ascending default_environment w'
                         = Ok (negb a))
             parsed (KeySetPaginator._order_by_columns authors_before_four)
      else KeySetPaginator._order_by_columns authors_before_four = parsed.
Proof.
  apply (@backward_bookmark_reverses_every_key default_environment
           select_Author_order_by_id 2 None (Some (backward [("id", 4)])) 0
           authors_before_four 0).
  vm_compute. reflexivity.
Defined.
